(** * BattleShip match screen: synchronisation, turn and attack engine

    A shallow embedding of the non-rendering logic of the match screen
    ([GameScreen]): the snapshot/event reconciler [applyGameStateUpdate],
    the fire gate [canFire] and the attack controller [handleFireAt], the
    identity effect over the matchmaking tokens, the ship placement
    handlers with [buildBoardMatrix] and [handleConfirmBoard], and the
    bounded retry loop [fetchStateWithRetry] with the effect that starts
    it; and, around the screen, the
    manual attack markers, the token decoder ([base64Decode], [decodeJWT]),
    the matchmaking [QueueService] with the match handler of the profile
    screen, and the settlement of [gameApi.fireAttack].

    React state variables become fields of explicit state records and
    every handler becomes a function from state to state.  Network calls
    are split at their [await]: the part before it returns the request,
    the part after it takes the outcome of the request. *)

From Stdlib Require Import ZArith List Bool Lia Ascii QArith.
From stdpp Require Import base option list strings gmap.
Import ListNotations.

Local Open Scope string_scope.
Local Open Scope list_scope.
Local Open Scope Z_scope.

(** ** JavaScript values as the screen observes them *)

(** A JavaScript number.  Grid coordinates, player slots and attempt
    counters are integers; [NaN] and the infinities are kept because
    [Number(...)] produces them and [Number.isFinite] filters them. *)
Inductive JNumber : Type :=
| Fin (z : Z)
| NaN
| PosInf
| NegInf.

(** [a === b] on numbers: [NaN] is different from itself. *)
Definition strict_eq_num (a b : JNumber) : bool :=
  match a, b with
  | Fin x, Fin y => x =? y
  | PosInf, PosInf => true
  | NegInf, NegInf => true
  | _, _ => false
  end.

Definition Number_isFinite (n : JNumber) : bool :=
  match n with Fin _ => true | _ => false end.

(** A scalar field of a parsed JSON payload. [JObject] stands for any
    array or object, of which the code only observes that it is none of
    the other kinds. *)
Inductive JValue : Type :=
| JUndefined
| JNull
| JBool (b : bool)
| JNum (n : JNumber)
| JStr (s : string)
| JObject.

Definition is_nullish (v : JValue) : bool :=
  match v with JUndefined | JNull => true | _ => false end.

(** [a ?? b] *)
Definition nullish_coalesce (a b : JValue) : JValue :=
  if is_nullish a then b else a.

(** Truthiness, as in [if (v)] and [a && b]. *)
Definition truthy (v : JValue) : bool :=
  match v with
  | JUndefined | JNull => false
  | JBool b => b
  | JNum (Fin z) => negb (z =? 0)
  | JNum NaN => false
  | JNum _ => true
  | JStr s => negb (String.eqb s "")
  | JObject => true
  end.

(** [v === 'text'] *)
Definition is_str (v : JValue) (text : string) : bool :=
  match v with JStr s => String.eqb s text | _ => false end.

(** [v === n] for a number [n] held by the screen. *)
Definition is_num (v : JValue) (n : Z) : bool :=
  match v with JNum m => strict_eq_num m (Fin n) | _ => false end.

(** A coordinate field of an inbound payload, reduced to what the code
    observes of it: whether it is [null]/[undefined], whether it is the
    empty string, and otherwise its value under [Number(...)]. *)
Inductive Coord : Type :=
| CNullish
| CEmptyString
| CValue (n : JNumber).

(** ** Attack cells and the per-list merge *)

(** [type AttackCell = { row; col; sunk? }]; a missing [sunk] reads as
    [false], which is all that [cell.sunk] is ever tested for. *)
Record AttackCell : Type := mkCell {
  row : JNumber;
  col : JNumber;
  sunk : bool
}.

(** [existing.row === cell.row && existing.col === cell.col] *)
Definition sameCell (cell existing : AttackCell) : bool :=
  strict_eq_num (row existing) (row cell) && strict_eq_num (col existing) (col cell).

(** [cells.some((c) => c.row === row && c.col === col)] *)
Definition someAt (r c : JNumber) (cells : list AttackCell) : bool :=
  existsb (fun cell => strict_eq_num (row cell) r && strict_eq_num (col cell) c) cells.

Definition finiteCell (cell : AttackCell) : bool :=
  Number_isFinite (row cell) && Number_isFinite (col cell).

(** [mergeCells]: copy [base], then push every addition that no element of
    the list built so far matches by row and column. *)
Definition mergeCells (base additions : list AttackCell) : list AttackCell :=
  fold_left
    (fun next cell => if existsb (sameCell cell) next then next else next ++ [cell])
    additions base.

Record AttackHistory : Type := mkHistory {
  hits : list AttackCell;
  misses : list AttackCell
}.

Definition emptyHistory : AttackHistory := mkHistory [] [].

(** One element of [payload.events]; an element that is not an object
    reads as the event with every field [undefined]. *)
Record GameEvent : Type := mkEvent {
  ev_type : JValue;
  ev_player : JValue;
  ev_x : Coord;
  ev_y : Coord;
  ev_result : JValue;
  ev_sunk : JValue;
  ev_hitCode : JValue
}.

(** [toCell] of the event loop. The empty string passes the [== null]
    test and [Number('')] is [0]. *)
Definition coordNumber (c : Coord) : option JNumber :=
  match c with
  | CNullish => None
  | CEmptyString => Some (Fin 0)
  | CValue n => Some n
  end.

Definition toCell (event : GameEvent) : option AttackCell :=
  if negb (is_str (ev_type event) "attack") then None
  else
    match coordNumber (ev_x event), coordNumber (ev_y event) with
    | Some c, Some r =>
        if negb (Number_isFinite c) || negb (Number_isFinite r) then None
        else
          let sunkFlag :=
            is_str (ev_result event) "hit"
            && (match ev_sunk event with JBool true => true | _ => false end
                || truthy (ev_hitCode event)) in
          Some (mkCell r c sunkFlag)
    | _, _ => None
    end.

(** The body of the [eventsArray.forEach] inside the two history updaters:
    the accumulator is the pair [(newHits, newMisses)]. *)
Definition collectStep (index : Z) (acc : list AttackCell * list AttackCell)
    (event : GameEvent) : list AttackCell * list AttackCell :=
  if negb (is_num (ev_player event) index) then acc
  else
    match toCell event with
    | None => acc
    | Some cell =>
        if is_str (ev_result event) "hit" then (fst acc ++ [cell], snd acc)
        else if is_str (ev_result event) "miss" then (fst acc, snd acc ++ [cell])
        else acc
    end.

Definition collectAttacks (index : Z) (events : list GameEvent)
    : list AttackCell * list AttackCell :=
  fold_left (collectStep index) events ([], []).

(** The updater passed to [setSelfAttackHistory] / [setOpponentAttackHistory]. *)
Definition mergeEvents (index : Z) (events : list GameEvent) (prev : AttackHistory)
    : AttackHistory :=
  let '(newHits, newMisses) := collectAttacks index events in
  match newHits, newMisses with
  | [], [] => prev
  | _, _ => mkHistory (mergeCells (hits prev) newHits) (mergeCells (misses prev) newMisses)
  end.

(** ** Strings: [trim], and the ASCII fragment of [toLowerCase] and [includes]

    A string is held as the bytes of its UTF-8 encoding. [trim] removes
    the white space and the line terminators of the language: U+0009 to
    U+000D and U+0020, of one byte; U+00A0, of two; U+1680, U+2000 to
    U+200A, U+2028, U+2029, U+202F, U+205F, U+3000 and U+FEFF, of three. *)

Definition isSpace2 (a b : Ascii.ascii) : bool :=
  Nat.eqb (Ascii.nat_of_ascii a) 194 && Nat.eqb (Ascii.nat_of_ascii b) 160.

Definition isSpace3 (a b c : Ascii.ascii) : bool :=
  let x := Ascii.nat_of_ascii a in
  let y := Ascii.nat_of_ascii b in
  let z := Ascii.nat_of_ascii c in
  Nat.eqb x 225 && Nat.eqb y 154 && Nat.eqb z 128
  || Nat.eqb x 226 && Nat.eqb y 128
     && (Nat.leb 128 z && Nat.leb z 138 || Nat.eqb z 168 || Nat.eqb z 169 || Nat.eqb z 175)
  || Nat.eqb x 226 && Nat.eqb y 129 && Nat.eqb z 159
  || Nat.eqb x 227 && Nat.eqb y 128 && Nat.eqb z 128
  || Nat.eqb x 239 && Nat.eqb y 187 && Nat.eqb z 191.

(** White space removed from the front of [s]; with [reversed] the bytes
    of [s] are read as those of a string turned around. *)
Fixpoint trimStart (reversed : bool) (s : string) : string :=
  match s with
  | EmptyString => EmptyString
  | String a rest =>
      if Ascii.is_space a then trimStart reversed rest
      else
        match rest with
        | String b rest2 =>
            if (if reversed then isSpace2 b a else isSpace2 a b) then trimStart reversed rest2
            else
              match rest2 with
              | String c rest3 =>
                  if (if reversed then isSpace3 c b a else isSpace3 a b c)
                  then trimStart reversed rest3
                  else s
              | EmptyString => s
              end
        | EmptyString => s
        end
  end.

Definition trim (s : string) : string :=
  String.rev (trimStart true (String.rev (trimStart false s))).

Definition lowerAscii (a : Ascii.ascii) : Ascii.ascii :=
  let n := Ascii.nat_of_ascii a in
  if (Nat.leb 65 n && Nat.leb n 90)%bool then Ascii.ascii_of_nat (n + 32) else a.

Fixpoint toLowerCase (s : string) : string :=
  match s with
  | EmptyString => EmptyString
  | String a rest => String (lowerAscii a) (toLowerCase rest)
  end.

Fixpoint includes (s needle : string) : bool :=
  String.prefix needle s
  || match s with
     | EmptyString => false
     | String _ rest => includes rest needle
     end.

(** A string state variable used as a condition: [null] and [''] are falsy. *)
Definition truthyStr (o : option string) : bool :=
  match o with Some s => negb (String.eqb s "") | None => false end.

(** [o && v === o] for a nullable string [o]. *)
Definition matchesUuid (o : option string) (v : JValue) : bool :=
  match o with
  | Some u => negb (String.eqb u "") && is_str v u
  | None => false
  end.

(** ** Snapshots *)

(** An element of a [hits]/[misses]/[sunk] list of a snapshot, before
    [normalizeCells]. *)
Record RawRecord : Type := mkRawRecord {
  r_row : Coord;  r_y : Coord;
  r_col : Coord;  r_x : Coord;
  r_sunk : JValue;  r_isSunk : JValue;  r_status : JValue;  r_sank : JValue
}.

Inductive RawCellItem : Type :=
| RawShortArray                                   (* an array of length < 2 *)
| RawTuple (xRaw yRaw : Coord) (extra : JValue)   (* [xRaw, yRaw, extra] *)
| RawObject (record : RawRecord)                  (* a non-array object *)
| RawOther.                                       (* null or a primitive *)

Definition coalesceCoord (a b : Coord) : Coord :=
  match a with CNullish => b | _ => a end.

Definition is_true (v : JValue) : bool :=
  match v with JBool true => true | _ => false end.

(** The callback of [value.map(...)] in [normalizeCells]. *)
Definition normalizeItem (item : RawCellItem) : option AttackCell :=
  match item with
  | RawShortArray => None
  | RawTuple xRaw yRaw extra =>
      match xRaw, yRaw with
      | CValue c, CValue r =>
          if negb (Number_isFinite c) || negb (Number_isFinite r) then None
          else Some (mkCell r c (is_true extra || is_str extra "sunk"))
      | _, _ => None
      end
  | RawObject record =>
      let rowSource := coalesceCoord (r_row record) (r_y record) in
      let colSource := coalesceCoord (r_col record) (r_x record) in
      match rowSource, colSource with
      | CValue r, CValue c =>
          Some (mkCell r c
                  (is_true (r_sunk record) || is_true (r_isSunk record)
                   || is_str (r_status record) "sunk" || is_true (r_sank record)))
      | _, _ => None
      end
  | RawOther => None
  end.

(** [normalizeCells]; [None] is a value that is not an array. *)
Definition normalizeCells (value : option (list RawCellItem)) : list AttackCell :=
  match value with
  | None => []
  | Some items => omap normalizeItem items
  end.

(** A player entry of [payload.players], before [mapSnapshot]; a missing
    entry has every field [undefined]. [d_sunk] is
    [data?.sunk ?? data?.sinks ?? data?.sank]. *)
Record RawPlayer : Type := mkRawPlayer {
  d_uuid : JValue;
  d_name : JValue;
  d_boardSubmitted : JValue;
  d_hits : option (list RawCellItem);
  d_misses : option (list RawCellItem);
  d_sunk : option (list RawCellItem)
}.

Definition missingPlayer : RawPlayer :=
  mkRawPlayer JUndefined JUndefined JUndefined None None None.

Record PlayerCombatSnapshot : Type := mkSnapshot {
  snap_uuid : option string;
  snap_name : option string;
  snap_boardSubmitted : bool;
  snap_hits : list AttackCell;
  snap_misses : list AttackCell;
  snap_sunk : list AttackCell
}.

Definition mapSnapshot (data : RawPlayer) : PlayerCombatSnapshot :=
  {| snap_uuid := match d_uuid data with JStr u => Some u | _ => None end;
     snap_name :=
       match d_name data with
       | JStr n => if String.eqb (trim n) "" then None else Some (trim n)
       | _ => None
       end;
     snap_boardSubmitted := truthy (d_boardSubmitted data);
     snap_hits := normalizeCells (d_hits data);
     snap_misses := normalizeCells (d_misses data);
     snap_sunk := normalizeCells (d_sunk data) |}.

(** ** Inbound payloads and the session state *)

(** A parsed payload of [GET /state], of the status socket or of
    [POST /submit-board]. [p_players1] is [players['1'] ?? players[1]]
    with [players = payload.players ?? {}]; [p_events] is [None] when
    [payload.events] is not an array. *)
Record Payload : Type := mkPayload {
  p_type : JValue;
  p_status : JValue;
  p_currentTurn : JValue;
  p_turn : JValue;
  p_nextTurn : JValue;
  p_players1 : RawPlayer;
  p_players2 : RawPlayer;
  p_winner : JValue;
  p_loser : JValue;
  p_events : option (list GameEvent)
}.

(** The state variables of [GameScreen] that the reconciler, the turn gate
    and the attack controller read or write. Display strings (labels,
    status messages) are left out; [gameResult] keeps the raw
    [payload.winner] and [payload.loser] in place of their labels. *)
Record Session : Type := mkSession {
  displayGameId : string;
  selfUserId : option string;
  playerIndex : option Z;
  opponentUuid : string;
  playerOneUuid : option string;
  playerTwoUuid : option string;
  selfCombatSnapshot : option PlayerCombatSnapshot;
  opponentCombatSnapshot : option PlayerCombatSnapshot;
  gameResult : option (JValue * JValue);
  isCurrentTurnSelf : bool;
  pendingAttack : option (JNumber * JNumber);
  isSubmittingAttack : bool;
  attackFeedback : option string;
  selfAttackHistory : AttackHistory;
  opponentAttackHistory : AttackHistory;
  hasBothBoardsSubmitted : bool;
  isConfirmed : bool
}.

(** ** The reconciler: [applyGameStateUpdate] *)

(** [payload.currentTurn ?? payload.turn ?? payload.nextTurn] *)
Definition candidateTurnOf (p : Payload) : JValue :=
  nullish_coalesce (nullish_coalesce (p_currentTurn p) (p_turn p)) (p_nextTurn p).

Definition isGameStatus (p : Payload) : bool := is_str (p_type p) "game_status".

(** [normalizedStatus?.includes('ended') || payload.type === 'game_ended'].
    A numeric status is turned into its decimal text, which never contains
    ["ended"]. *)
Definition gameEndedOf (p : Payload) : bool :=
  match p_status p with
  | JStr st => includes (toLowerCase st) "ended"
  | _ => false
  end
  || is_str (p_type p) "game_ended".

Definition playerOneSnapshotOf (p : Payload) : option PlayerCombatSnapshot :=
  if isGameStatus p then Some (mapSnapshot (p_players1 p)) else None.

Definition playerTwoSnapshotOf (p : Payload) : option PlayerCombatSnapshot :=
  if isGameStatus p then Some (mapSnapshot (p_players2 p)) else None.

(** [snapshot?.uuid ?? fallback] *)
Definition uuidOr (snapshot : option PlayerCombatSnapshot) (fallback : option string)
    : option string :=
  match snapshot with
  | Some sn => match snap_uuid sn with Some u => Some u | None => fallback end
  | None => fallback
  end.

(** [snapshot?.uuid === id] for a string [id]. *)
Definition uuidIs (snapshot : option PlayerCombatSnapshot) (id : string) : bool :=
  match snapshot with
  | Some sn => match snap_uuid sn with Some u => String.eqb u id | None => false end
  | None => false
  end.

(** The pair [(selfSnapshot, enemySnapshot)]: by [playerIndex] when it is
    1 or 2, otherwise by comparing [selfUserId] with the snapshot uuids. *)
Definition selectSnapshots (s : Session) (p : Payload)
    : option PlayerCombatSnapshot * option PlayerCombatSnapshot :=
  let one := playerOneSnapshotOf p in
  let two := playerTwoSnapshotOf p in
  let byUuid :=
    match selfUserId s with
    | Some me =>
        if negb (String.eqb me "") && isGameStatus p then
          if uuidIs one me then (one, two)
          else if uuidIs two me then (two, one)
          else (None, None)
        else (None, None)
    | None => (None, None)
    end in
  match playerIndex s with
  | Some i =>
      if i =? 1 then (one, two)
      else if i =? 2 then (two, one)
      else byUuid
  | None => byUuid
  end.

Definition getIndexForUuid (p : Payload) (id : option string) : option Z :=
  match id with
  | None => None
  | Some u =>
      if String.eqb u "" then None
      else if uuidIs (playerOneSnapshotOf p) u then Some 1
      else if uuidIs (playerTwoSnapshotOf p) u then Some 2
      else None
  end.

Definition resolvedSelfIndexOf (s : Session) (p : Payload) : option Z :=
  match playerIndex s with
  | Some i => Some i
  | None =>
      match getIndexForUuid p (uuidOr (fst (selectSnapshots s p)) (selfUserId s)) with
      | Some i => Some i
      | None => getIndexForUuid p (selfUserId s)
      end
  end.

Definition resolvedOpponentIndexOf (s : Session) (p : Payload) : option Z :=
  match resolvedSelfIndexOf s p with
  | Some i => if i =? 1 then Some 2 else if i =? 2 then Some 1 else None
  | None => getIndexForUuid p (uuidOr (snd (selectSnapshots s p)) (Some (opponentUuid s)))
  end.

Definition nextPlayerOneUuidOf (s : Session) (p : Payload) : option string :=
  uuidOr (playerOneSnapshotOf p) (playerOneUuid s).

Definition nextPlayerTwoUuidOf (s : Session) (p : Payload) : option string :=
  uuidOr (playerTwoSnapshotOf p) (playerTwoUuid s).

(** [isSelfTurnNow], lines 805-811: a string turn that equals either
    player's uuid counts, whichever slot is the local one. *)
Definition isSelfTurnNow (s : Session) (p : Payload) : bool :=
  let candidateTurn := candidateTurnOf p in
  match candidateTurn, resolvedSelfIndexOf s p with
  | JUndefined, _ => false
  | _, None => false
  | _, Some self =>
      matchesUuid (nextPlayerOneUuidOf s p) candidateTurn
      || matchesUuid (nextPlayerTwoUuidOf s p) candidateTurn
      || is_num candidateTurn self
  end.

(** The slot a turn value denotes: the case analysis by which lines 679-690
    pick [nextPlayerOneLabel] or [nextPlayerTwoLabel] for the turn banner. *)
Definition turnSlotOf (s : Session) (p : Payload) : option Z :=
  let candidateTurn := candidateTurnOf p in
  if is_num candidateTurn 1 then Some 1
  else if is_num candidateTurn 2 then Some 2
  else if matchesUuid (nextPlayerOneUuidOf s p) candidateTurn then Some 1
  else if matchesUuid (nextPlayerTwoUuidOf s p) candidateTurn then Some 2
  else None.

Definition eventsArrayOf (p : Payload) : list GameEvent :=
  match p_events p with Some evs => evs | None => [] end.

Definition nextSelfHistory (s : Session) (p : Payload) : AttackHistory :=
  match eventsArrayOf p, resolvedSelfIndexOf s p with
  | _ :: _, Some self => mergeEvents self (eventsArrayOf p) (selfAttackHistory s)
  | _, _ => selfAttackHistory s
  end.

Definition nextOpponentHistory (s : Session) (p : Payload) : AttackHistory :=
  match eventsArrayOf p, resolvedSelfIndexOf s p, resolvedOpponentIndexOf s p with
  | _ :: _, Some _, Some opp => mergeEvents opp (eventsArrayOf p) (opponentAttackHistory s)
  | _, _, _ => opponentAttackHistory s
  end.

(** [applyGameStateUpdate(payload)]; [None] is a falsy payload. *)
Definition applyGameStateUpdate (payload : option Payload) (s : Session) : Session :=
  match payload with
  | None => s
  | Some p =>
      let selfSnapshot := fst (selectSnapshots s p) in
      let enemySnapshot := snd (selectSnapshots s p) in
      {| displayGameId := displayGameId s;
         selfUserId := selfUserId s;
         playerIndex := playerIndex s;
         opponentUuid := opponentUuid s;
         playerOneUuid := if isGameStatus p then nextPlayerOneUuidOf s p else playerOneUuid s;
         playerTwoUuid := if isGameStatus p then nextPlayerTwoUuidOf s p else playerTwoUuid s;
         selfCombatSnapshot :=
           match selfSnapshot with Some sn => Some sn | None => selfCombatSnapshot s end;
         opponentCombatSnapshot :=
           match enemySnapshot with Some sn => Some sn | None => opponentCombatSnapshot s end;
         gameResult := if gameEndedOf p then Some (p_winner p, p_loser p) else None;
         isCurrentTurnSelf := isSelfTurnNow s p;
         pendingAttack := pendingAttack s;
         isSubmittingAttack := isSubmittingAttack s;
         attackFeedback := attackFeedback s;
         selfAttackHistory := nextSelfHistory s p;
         opponentAttackHistory := nextOpponentHistory s p;
         hasBothBoardsSubmitted :=
           match selfSnapshot, enemySnapshot with
           | Some a, Some b => snap_boardSubmitted a && snap_boardSubmitted b
           | _, _ => hasBothBoardsSubmitted s
           end;
         isConfirmed :=
           match selfSnapshot with
           | Some sn => if snap_boardSubmitted sn then true else isConfirmed s
           | None => isConfirmed s
           end |}
  end.

(** ** The turn gate *)

Definition isMyTurn (s : Session) : bool :=
  match gameResult s with
  | Some _ => false
  | None => isCurrentTurnSelf s
  end.

Definition hasPending (s : Session) : bool :=
  match pendingAttack s with Some _ => true | None => false end.

Definition canFire (s : Session) : bool :=
  if negb (isConfirmed s) then false
  else if negb (hasBothBoardsSubmitted s) then false
  else if negb (isCurrentTurnSelf s) then false
  else if isSubmittingAttack s || hasPending s then false
  else true.

(** ** State setters ([setX(v)] of the corresponding [useState] pair) *)

Definition setPlayerIndex (v : option Z) (s : Session) : Session :=
  mkSession (displayGameId s) (selfUserId s) v (opponentUuid s) (playerOneUuid s)
    (playerTwoUuid s) (selfCombatSnapshot s) (opponentCombatSnapshot s) (gameResult s)
    (isCurrentTurnSelf s) (pendingAttack s) (isSubmittingAttack s) (attackFeedback s)
    (selfAttackHistory s) (opponentAttackHistory s) (hasBothBoardsSubmitted s)
    (isConfirmed s).

Definition setIsCurrentTurnSelf (v : bool) (s : Session) : Session :=
  mkSession (displayGameId s) (selfUserId s) (playerIndex s) (opponentUuid s)
    (playerOneUuid s) (playerTwoUuid s) (selfCombatSnapshot s) (opponentCombatSnapshot
    s) (gameResult s) v (pendingAttack s) (isSubmittingAttack s) (attackFeedback s)
    (selfAttackHistory s) (opponentAttackHistory s) (hasBothBoardsSubmitted s)
    (isConfirmed s).

Definition setPendingAttack (v : option (JNumber * JNumber)) (s : Session) : Session :=
  mkSession (displayGameId s) (selfUserId s) (playerIndex s) (opponentUuid s)
    (playerOneUuid s) (playerTwoUuid s) (selfCombatSnapshot s) (opponentCombatSnapshot
    s) (gameResult s) (isCurrentTurnSelf s) v (isSubmittingAttack s) (attackFeedback s)
    (selfAttackHistory s) (opponentAttackHistory s) (hasBothBoardsSubmitted s)
    (isConfirmed s).

Definition setIsSubmittingAttack (v : bool) (s : Session) : Session :=
  mkSession (displayGameId s) (selfUserId s) (playerIndex s) (opponentUuid s)
    (playerOneUuid s) (playerTwoUuid s) (selfCombatSnapshot s) (opponentCombatSnapshot
    s) (gameResult s) (isCurrentTurnSelf s) (pendingAttack s) v (attackFeedback s)
    (selfAttackHistory s) (opponentAttackHistory s) (hasBothBoardsSubmitted s)
    (isConfirmed s).

Definition setAttackFeedback (v : option string) (s : Session) : Session :=
  mkSession (displayGameId s) (selfUserId s) (playerIndex s) (opponentUuid s)
    (playerOneUuid s) (playerTwoUuid s) (selfCombatSnapshot s) (opponentCombatSnapshot
    s) (gameResult s) (isCurrentTurnSelf s) (pendingAttack s) (isSubmittingAttack s) v
    (selfAttackHistory s) (opponentAttackHistory s) (hasBothBoardsSubmitted s)
    (isConfirmed s).

Definition setSelfAttackHistory (v : AttackHistory) (s : Session) : Session :=
  mkSession (displayGameId s) (selfUserId s) (playerIndex s) (opponentUuid s)
    (playerOneUuid s) (playerTwoUuid s) (selfCombatSnapshot s) (opponentCombatSnapshot
    s) (gameResult s) (isCurrentTurnSelf s) (pendingAttack s) (isSubmittingAttack s)
    (attackFeedback s) v (opponentAttackHistory s) (hasBothBoardsSubmitted s)
    (isConfirmed s).

Definition setIsConfirmed (v : bool) (s : Session) : Session :=
  mkSession (displayGameId s) (selfUserId s) (playerIndex s) (opponentUuid s)
    (playerOneUuid s) (playerTwoUuid s) (selfCombatSnapshot s) (opponentCombatSnapshot
    s) (gameResult s) (isCurrentTurnSelf s) (pendingAttack s) (isSubmittingAttack s)
    (attackFeedback s) (selfAttackHistory s) (opponentAttackHistory s)
    (hasBothBoardsSubmitted s) v.
(** ** The attack controller: [handleFireAt] *)

(** The arguments of the call [gameApi.fireAttack({ gameId, x, y })]. *)
Record FireCall : Type := mkFireCall {
  call_gameId : string;
  call_x : JNumber;
  call_y : JNumber
}.

(** The body of [POST /fire] as the controller reads it. [res_message] is
    the declared [message?: string]; [res_nextTurnNumber] is
    [Number(response.nextTurn)]. *)
Record FireResponse : Type := mkFireResponse {
  res_result : JValue;
  res_sunk : JValue;
  res_hitCode : JValue;
  res_message : option string;
  res_nextTurn : JValue;
  res_nextTurnNumber : JNumber
}.

(** What a rejected promise carries into [catch (error)]. *)
Inductive Thrown : Type :=
| ThrownError (message : string)
| ThrownString (text : string)
| ThrownOther.

Inductive FireOutcome : Type :=
| Resolved (response : FireResponse)
| Rejected (error : Thrown).

(** [gameApi.fireAttack] up to its [fetch]: a request leaves the client
    only for finite coordinates and an available token. *)
Definition fireAttack_request (token : option string) (call : FireCall)
    : Thrown + FireCall :=
  if negb (Number_isFinite (call_x call)) || negb (Number_isFinite (call_y call))
  then inl (ThrownError "Invalid attack coordinates")
  else if truthyStr token then inr call
  else inl (ThrownError "No authentication token available for attack").

Definition alreadyAttacked (s : Session) (r c : JNumber) : bool :=
  someAt r c (hits (selfAttackHistory s)) || someAt r c (misses (selfAttackHistory s)).

(** [handleFireAt(row, col)] up to [await gameApi.fireAttack(...)]: the new
    state and the call made, if any. *)
Definition handleFireAt_begin (s : Session) (r c : JNumber) : Session * option FireCall :=
  if negb (canFire s) then (s, None)
  else if String.eqb (displayGameId s) "" || String.eqb (displayGameId s) "pending"
  then (s, None)
  else if alreadyAttacked s r c
  then (setAttackFeedback (Some "Ai atacat deja acea celulÄƒ.") s, None)
  else
    (setAttackFeedback None (setPendingAttack (Some (r, c)) (setIsSubmittingAttack true s)),
     Some (mkFireCall (displayGameId s) c r)).

Definition responseFeedback (response : FireResponse) (s : Session) : Session :=
  match res_message response with
  | Some m =>
      if negb (String.eqb m "") then setAttackFeedback (Some m) s
      else if is_str (res_result response) "hit" then setAttackFeedback (Some "Lovit!") s
      else if is_str (res_result response) "miss" then setAttackFeedback (Some "Ratare.") s
      else s
  | None =>
      if is_str (res_result response) "hit" then setAttackFeedback (Some "Lovit!") s
      else if is_str (res_result response) "miss" then setAttackFeedback (Some "Ratare.") s
      else s
  end.

(** The two functional updates of [setSelfAttackHistory]. *)
Definition recordOutcome (response : FireResponse) (r c : JNumber) (s : Session) : Session :=
  let sunkFlag :=
    is_str (res_result response) "hit"
    && (is_true (res_sunk response) || truthy (res_hitCode response)) in
  let firedCell := mkCell r c sunkFlag in
  let prev := selfAttackHistory s in
  if is_str (res_result response) "hit" then
    if someAt r c (hits prev) then s
    else setSelfAttackHistory (mkHistory (hits prev ++ [firedCell]) (misses prev)) s
  else if is_str (res_result response) "miss" then
    if someAt r c (misses prev) then s
    else setSelfAttackHistory (mkHistory (hits prev) (misses prev ++ [firedCell])) s
  else s.

(** The [nextTurn] block; [closure] holds the state variables captured
    when [handleFireAt] was created. *)
Definition applyNextTurn (closure : Session) (response : FireResponse) (s : Session)
    : Session :=
  match res_nextTurn response with
  | JUndefined => s
  | nextTurn =>
      let byIndex :=
        match playerIndex closure with
        | Some me =>
            let nextIndex :=
              match nextTurn with JNum n => n | _ => res_nextTurnNumber response end in
            match nextIndex with
            | NaN => s
            | _ => setIsCurrentTurnSelf (strict_eq_num nextIndex (Fin me)) s
            end
        | None => s
        end in
      match nextTurn with
      | JStr _ =>
          if matchesUuid (selfUserId closure) nextTurn
          then setIsCurrentTurnSelf true byIndex
          else if matchesUuid (playerOneUuid closure) nextTurn
          then setIsCurrentTurnSelf
                 (match playerIndex closure with Some i => i =? 1 | None => false end) byIndex
          else if matchesUuid (playerTwoUuid closure) nextTurn
          then setIsCurrentTurnSelf
                 (match playerIndex closure with Some i => i =? 2 | None => false end) byIndex
          else setIsCurrentTurnSelf false byIndex
      | _ => byIndex
      end
  end.

Definition thrownMessage (error : Thrown) : string :=
  match error with
  | ThrownError message =>
      if String.eqb message "" then "Could not fire attack." else message
  | ThrownString text =>
      if String.eqb text "" then "Could not fire attack." else text
  | ThrownOther => "Could not fire attack."
  end.

(** [handleFireAt] from the settlement of [gameApi.fireAttack] to the end
    of its [finally] block, run on the state [s] current at that time. *)
Definition handleFireAt_settle (closure : Session) (r c : JNumber)
    (outcome : FireOutcome) (s : Session) : Session :=
  let afterTry :=
    match outcome with
    | Resolved response =>
        applyNextTurn closure response (recordOutcome response r c (responseFeedback response s))
    | Rejected error => setAttackFeedback (Some (thrownMessage error)) s
    end in
  setIsSubmittingAttack false afterTry.

(** The effect on [pendingAttack, selfHits, selfMisses, isMyTurn]: the only
    place that clears [pendingAttack]. *)
Definition pendingAttackEffect (s : Session) : Session :=
  match pendingAttack s with
  | None => s
  | Some (r, c) =>
      if alreadyAttacked s r c || negb (isMyTurn s) then setPendingAttack None s else s
  end.

(** One complete attack: the handler, the call to the game service decided
    by [respond], the settlement, and the effect that follows the render. *)
Definition fireRound (token : option string) (respond : FireCall -> FireOutcome)
    (r c : JNumber) (s : Session) : Session :=
  match handleFireAt_begin s r c with
  | (s1, None) => s1
  | (s1, Some call) =>
      let outcome :=
        match fireAttack_request token call with
        | inl error => Rejected error
        | inr request => respond request
        end in
      pendingAttackEffect (handleFireAt_settle s r c outcome (pendingAttackEffect s1))
  end.

(** ** Identity from the matchmaking tokens *)

Section Identity.

(** [getUserIdFromToken] decodes the JWT payload and returns its [sub];
    [None] stands for the exception it throws on a token it cannot
    decode or that has no [sub]. *)
Variable getUserIdFromToken : string -> option string.

(** [selfToken && candidate === selfToken] *)
Definition tokenMatches (selfToken : option string) (candidate : string) : bool :=
  match selfToken with
  | Some t => negb (String.eqb t "") && String.eqb candidate t
  | None => false
  end.

(** The [if (selfUserId) { try { ... } catch {} }] block. *)
Definition subjectMatches (selfUserId : option string) (candidate : string) : bool :=
  match selfUserId with
  | Some me =>
      negb (String.eqb me "")
      && match getUserIdFromToken candidate with
         | Some candidateUserId => String.eqb candidateUserId me
         | None => false
         end
  | None => false
  end.

(** The callback of [matchTokens.forEach((candidate, idx) => ...)]; the
    accumulator is [(foundIndex, idx)]. *)
Definition tokenStep (selfToken selfUserId : option string) (acc : Z * Z)
    (candidate : string) : Z * Z :=
  let '(foundIndex, idx) := acc in
  if negb (foundIndex =? -1) then (foundIndex, idx + 1)
  else if tokenMatches selfToken candidate then (idx, idx + 1)
  else if subjectMatches selfUserId candidate then (idx, idx + 1)
  else (foundIndex, idx + 1).

Definition findSelfIndex (matchTokens : list string) (selfToken selfUserId : option string)
    : Z :=
  fst (fold_left (tokenStep selfToken selfUserId) matchTokens (-1, 0)).

(** The effect on [matchTokens, selfToken, selfUserId, playerIndex]: the
    value of [playerIndex] after it ran. *)
Definition identityEffect (matchTokens : list string) (selfToken selfUserId : option string)
    (playerIndex : option Z) : option Z :=
  match matchTokens with
  | [] => playerIndex
  | _ :: _ =>
      if negb (truthyStr selfToken) && negb (truthyStr selfUserId) then playerIndex
      else
        let foundIndex := findSelfIndex matchTokens selfToken selfUserId in
        if negb (foundIndex =? -1) then Some (foundIndex + 1) else playerIndex
  end.

(** The resolution rule in the words of the design text: the first exact
    token match, and only failing that the first subject match. *)
Definition exactThenSubjectIndex (matchTokens : list string)
    (selfToken selfUserId : option string) : option Z :=
  match list_find (fun c => tokenMatches selfToken c = true) matchTokens with
  | Some (i, _) => Some (Z.of_nat i + 1)
  | None =>
      match list_find (fun c => subjectMatches selfUserId c = true) matchTokens with
      | Some (i, _) => Some (Z.of_nat i + 1)
      | None => None
      end
  end.

(** Either test of the callback. *)
Definition matchesSelf (selfToken selfUserId : option string) (candidate : string) : bool :=
  tokenMatches selfToken candidate || subjectMatches selfUserId candidate.

End Identity.

(** ** The initial fetch: [fetchStateWithRetry] *)

Definition maxAttempts : nat := 8.

(** [Math.round(200 * Math.pow(1.5, attempt))]: the product is the dyadic
    rational [200 * 3^attempt / 2^attempt], exact in a double for every
    attempt below [maxAttempts], and [Math.round x] is [floor (x + 1/2)]. *)
Definition roundedDelay (attempt : nat) : Z :=
  (2 * (200 * 3 ^ Z.of_nat attempt) + 2 ^ Z.of_nat attempt) / (2 * 2 ^ Z.of_nat attempt).

Definition backoff (attempt : nat) : Z := Z.min 1500 (roundedDelay attempt).

(** What the loop does, in order. *)
Inductive FetchAction : Type :=
| GetState (attempt : nat)          (* [await gameApi.getState(displayGameId)] *)
| ApplyState (state : Payload)      (* [applyGameStateUpdate(state)] *)
| SetGameReady                      (* [setGameReady(true)] *)
| WarnGiveUp                        (* [console.warn(...)] *)
| ClearGameReady                    (* [setGameReady(false)] of the effect's guard *)
| Sleep (ms : Z).                   (* [await new Promise(... setTimeout(resolve, backoff))] *)

Section FetchLoop.

(** The outcome of the request of each attempt ([None]: it rejects), and
    the value of the [cancelled] flag when the loop condition is tested
    and when the request has resolved. *)
Variable getState : nat -> option Payload.
Variable cancelledAtTest : nat -> bool.
Variable cancelledAfterFetch : nat -> bool.

Fixpoint fetchLoop (fuel : nat) (attempt : nat) : option (list FetchAction) :=
  match fuel with
  | O => None
  | S fuel' =>
      if Nat.ltb attempt maxAttempts && negb (cancelledAtTest attempt) then
        match getState attempt with
        | Some state =>
            if cancelledAfterFetch attempt then Some [GetState attempt]
            else Some [GetState attempt; ApplyState state; SetGameReady]
        | None =>
            if Nat.eqb attempt (maxAttempts - 1) then Some [GetState attempt; WarnGiveUp]
            else
              match fetchLoop fuel' (S attempt) with
              | Some rest => Some (GetState attempt :: Sleep (backoff attempt) :: rest)
              | None => None
              end
        end
      else Some []
  end.

Definition fetchStateWithRetry (fuel : nat) : option (list FetchAction) :=
  fetchLoop fuel 0.

End FetchLoop.

Definition isGetState (a : FetchAction) : bool :=
  match a with GetState _ => true | _ => false end.

Definition attemptsMade (trace : list FetchAction) : nat :=
  length (filter (fun a => isGetState a = true) trace).

(** ** Ship placement *)

(** [type Shape = { id; name; cells: {x, y}[] }]; a cell is [(x, y)]. *)
Record Shape : Type := mkShape {
  shape_id : string;
  shape_name : string;
  shape_cells : list (Z * Z)
}.

Definition shapes : list Shape :=
  [ mkShape "s-3x1" "3x1" [(0, 0); (1, 0); (2, 0)];
    mkShape "s-2x1" "2x1" [(0, 0); (1, 0)];
    mkShape "s-2x2" "2x2" [(0, 0); (1, 0); (0, 1); (1, 1)];
    mkShape "s-4x1" "4x1" [(0, 0); (1, 0); (2, 0); (3, 0)];
    mkShape "s-u" "U" [(0, 0); (1, 0); (0, 1); (0, 2); (1, 2)] ].

Definition shapesById : gmap string Shape :=
  fold_left (fun map shape => <[shape_id shape := shape]> map) shapes ∅.

(** An element of [placedShapesLeft]; a cell is [(row, col)]. *)
Record PlacedShape : Type := mkPlaced {
  ps_id : string;
  ps_cells : list (Z * Z)
}.

Inductive DragSource : Type := FromPalette | FromGrid.

(** A touch position, reduced to the two tests the handlers make on it:
    the grid cell [(row0, col0)] under it when [leftGridMetrics] is known
    and the point lies within the grid, and whether it lies within the
    measured palette. *)
Record Pointer : Type := mkPointer {
  overGrid : option (Z * Z);
  overPalette : bool
}.

(** The placement state variables and refs of [GameScreen]; the purely
    visual ones ([isDragging], [liftingId], [dragPosition], [dragOffset])
    are left out. *)
Record Placement : Type := mkPlacement {
  placedShapesLeft : list PlacedShape;
  usedShapeIds : gset string;
  draggingShape : option Shape;
  dragSource : option DragSource;
  hoverPreview : option (list (Z * Z) * bool);
  liftedPrevCellsRef : option PlacedShape;
  lastDragCoords : option Pointer
}.

Definition initialPlacement : Placement :=
  mkPlacement [] ∅ None None None None None.

(** The assignments shared by the early exit of [moveDrag] and the end of
    [endDrag]. *)
Definition resetDrag (placed : list PlacedShape) (used : gset string) : Placement :=
  mkPlacement placed used None None None None None.

Definition inGrid (cell : Z * Z) : bool :=
  (0 <=? fst cell) && (fst cell <? 10) && (0 <=? snd cell) && (snd cell <? 10).

Definition sameGridCell (a b : Z * Z) : bool :=
  (fst a =? fst b) && (snd a =? snd b).

(** [cells.some((c) => placed.some((ps) => ps.cells.some((p) => ...)))] *)
Definition overlapsPlaced (cells : list (Z * Z)) (placed : list PlacedShape) : bool :=
  existsb (fun c => existsb (fun ps => existsb (fun p => sameGridCell p c) (ps_cells ps)) placed)
          cells.

(** The shapes the palette renders, each with its drag responder. *)
Definition paletteShapes (p : Placement) : list Shape :=
  filter (fun shape => shape_id shape ∉ usedShapeIds p) shapes.

Definition startDrag (isConfirmed : bool) (shape : Shape) (at_ : Pointer) (p : Placement)
    : Placement :=
  if isConfirmed then p
  else mkPlacement (placedShapesLeft p) (usedShapeIds p) (Some shape) (Some FromPalette)
         (hoverPreview p) (liftedPrevCellsRef p) (Some at_).

Definition removePlaced (id : string) (placed : list PlacedShape) : list PlacedShape :=
  filter (fun ps => ps_id ps ≠ id) placed.

(** [moveDrag(pageX, pageY)]; [None] is a null or NaN coordinate. *)
Definition moveDrag (isConfirmed : bool) (at_ : option Pointer) (p : Placement) : Placement :=
  if isConfirmed then p
  else
    match at_ with
    | None =>
        match draggingShape p, dragSource p with
        | Some shape, Some FromGrid =>
            resetDrag (removePlaced (shape_id shape) (placedShapesLeft p))
                      (usedShapeIds p ∖ {[shape_id shape]})
        | _, _ => resetDrag (placedShapesLeft p) (usedShapeIds p)
        end
    | Some pt =>
        let preview :=
          match draggingShape p, overGrid pt with
          | Some shape, Some (row0, col0) =>
              let cells := map (fun c => (row0 + snd c, col0 + fst c)) (shape_cells shape) in
              let inBounds := forallb inGrid cells in
              let overlaps := overlapsPlaced cells (placedShapesLeft p) in
              Some (cells, inBounds && negb overlaps)
          | _, _ => None
          end in
        mkPlacement (placedShapesLeft p) (usedShapeIds p) (draggingShape p) (dragSource p)
          preview (liftedPrevCellsRef p) (Some pt)
    end.

Definition withinPalette (p : Placement) : bool :=
  match lastDragCoords p with Some pt => overPalette pt | None => false end.

Definition endDrag (isConfirmed : bool) (p : Placement) : Placement :=
  if isConfirmed then resetDrag (placedShapesLeft p) (usedShapeIds p)
  else
    match hoverPreview p, draggingShape p with
    | Some (cells, true), Some shape =>
        match dragSource p with
        | Some FromPalette =>
            resetDrag (placedShapesLeft p ++ [mkPlaced (shape_id shape) cells])
                      (usedShapeIds p ∪ {[shape_id shape]})
        | Some FromGrid =>
            match liftedPrevCellsRef p with
            | Some lifted =>
                if String.eqb (ps_id lifted) "" then
                  resetDrag (placedShapesLeft p) (usedShapeIds p)
                else
                  resetDrag
                    (map (fun ps => if String.eqb (ps_id ps) (ps_id lifted)
                                    then mkPlaced (ps_id ps) cells else ps)
                         (placedShapesLeft p))
                    (usedShapeIds p)
            | None => resetDrag (placedShapesLeft p) (usedShapeIds p)
            end
        | None => resetDrag (placedShapesLeft p) (usedShapeIds p)
        end
    | _, Some shape =>
        if withinPalette p then
          match dragSource p with
          | Some FromGrid =>
              resetDrag (removePlaced (shape_id shape) (placedShapesLeft p))
                        (usedShapeIds p ∖ {[shape_id shape]})
          | _ => resetDrag (placedShapesLeft p) (usedShapeIds p)
          end
        else resetDrag (placedShapesLeft p) (usedShapeIds p)
    | _, None => resetDrag (placedShapesLeft p) (usedShapeIds p)
    end.

(** [onPlacedDragStart(id, x, y)] of the left grid. *)
Definition onPlacedDragStart (isConfirmed : bool) (id : string) (p : Placement) : Placement :=
  if isConfirmed then p
  else
    match find (fun ps => String.eqb (ps_id ps) id) (placedShapesLeft p),
          find (fun shape => String.eqb (shape_id shape) id) shapes with
    | Some ps, Some shape =>
        mkPlacement (placedShapesLeft p) (usedShapeIds p) (Some shape) (Some FromGrid)
          (hoverPreview p) (Some (mkPlaced id (ps_cells ps))) (lastDragCoords p)
    | _, _ => p
    end.

(** ** Board matrix and board submission *)

Abbreviation Board := (list (list (option string))).

(** [Array.from({ length: 10 }, () => Array(10).fill(null))] *)
Definition emptyBoard : Board := replicate 10 (replicate 10 None).

(** [shapesById[shape.id]?.name ?? shape.id]. [shapesById] is a plain
    object, so an id outside the catalog finds what [Object.prototype]
    holds under that key: the function [Object] under ["constructor"],
    whose [name] is ["Object"]; its other members are functions named like
    their key, or have no [name], and leave the id. *)
Definition shapeLabel (id : string) : string :=
  match shapesById !! id with
  | Some definition => shape_name definition
  | None => if String.eqb id "constructor" then "Object" else id
  end.

(** [if (row >= 0 && row < 10 && col >= 0 && col < 10) board[row][col] = label]
    for a cell with integer coordinates, as the placement handlers store
    them: within the test both indices exist, so the assignment replaces
    one entry. [writeCellValue] further down is the same statement for any
    number, with the assignment as the language defines it, and agrees
    with this one on integers ([buildBoardMatrix_any_integer]). *)
Definition writeCell (label : string) (board : Board) (cell : Z * Z) : Board :=
  if inGrid cell
  then alter (fun cells => <[Z.to_nat (snd cell) := Some label]> cells) (Z.to_nat (fst cell)) board
  else board.

Definition buildBoardMatrix (placed : list PlacedShape) : Board :=
  fold_left
    (fun board shape => fold_left (writeCell (shapeLabel (ps_id shape))) (ps_cells shape) board)
    placed emptyBoard.

Record SubmitBoardRequest : Type := mkSubmit {
  submit_gameId : string;
  submit_board : Board;
  submit_token : string
}.

Inductive ConfirmResult : Type :=
| NoConfirmButton                       (* the footer bar is not rendered *)
| ConfirmIgnored                        (* the first [return] *)
| ConfirmAlert (title message : string)
| ConfirmSubmitted (request : SubmitBoardRequest).

(** [handleConfirmBoard] up to [await gameApi.submitBoard(...)]; [token] is
    the result of [tokenStorage.getToken()]. *)
Definition handleConfirmBoard_begin (isConfirmed isSubmittingBoard : bool)
    (displayGameId : string) (token : option string) (p : Placement) : ConfirmResult :=
  if isConfirmed || isSubmittingBoard then ConfirmIgnored
  else
    match placedShapesLeft p with
    | [] => ConfirmAlert "Board Incomplete" "Place your ships before confirming."
    | _ :: _ =>
        if String.eqb displayGameId "" || String.eqb displayGameId "pending"
        then ConfirmAlert "Game Not Ready" "Game session is not ready yet."
        else
          match token with
          | Some t =>
              if String.eqb t "" then ConfirmAlert "Submit Failed" "Missing authentication token."
              else ConfirmSubmitted (mkSubmit displayGameId (buildBoardMatrix (placedShapesLeft p)) t)
          | None => ConfirmAlert "Submit Failed" "Missing authentication token."
          end
    end.

(** [!isConfirmed && usedShapeIds.size === shapes.length]: the condition
    under which the "Confirm Ships" button exists. *)
Definition confirmButtonShown (isConfirmed : bool) (p : Placement) : bool :=
  negb isConfirmed && Nat.eqb (size (usedShapeIds p)) (length shapes).

(** A press on "Confirm Ships". *)
Definition pressConfirm (isConfirmed isSubmittingBoard : bool) (displayGameId : string)
    (token : option string) (p : Placement) : ConfirmResult :=
  if confirmButtonShown isConfirmed p
  then handleConfirmBoard_begin isConfirmed isSubmittingBoard displayGameId token p
  else NoConfirmButton.

(** The placement gestures the screen offers: a palette item exists only
    for an unused catalog shape; the responders of the palette and of the
    placed boxes forward moves and releases. *)
Inductive placementStep : Placement -> Placement -> Prop :=
| step_startDrag isConfirmed shape at_ p :
    shape ∈ paletteShapes p ->
    placementStep p (startDrag isConfirmed shape at_ p)
| step_moveDrag isConfirmed at_ p :
    placementStep p (moveDrag isConfirmed at_ p)
| step_endDrag isConfirmed p :
    placementStep p (endDrag isConfirmed p)
| step_placedDragStart isConfirmed id p :
    placementStep p (onPlacedDragStart isConfirmed id p).

Inductive placementReachable : Placement -> Prop :=
| reach_initial : placementReachable initialPlacement
| reach_step p p' :
    placementReachable p -> placementStep p p' -> placementReachable p'.

(** The failed attempts [first], ..., [first + count - 1], each followed by
    its wait. *)
Definition retriesFrom (first count : nat) : list FetchAction :=
  flat_map (fun n => [GetState n; Sleep (backoff n)]) (seq first count).

(** How the loop can end at attempt [k]: cancelled before the request,
    a request that resolves (and is applied unless cancelled meanwhile), or
    the last attempt failing. *)
Definition loopEnding (getState : nat -> option Payload)
    (cancelledAtTest cancelledAfterFetch : nat -> bool) (k : nat)
    (ending : list FetchAction) : Prop :=
  (cancelledAtTest k = true /\ ending = [])
  \/ (cancelledAtTest k = false
      /\ exists state, getState k = Some state
         /\ ending = if cancelledAfterFetch k then [GetState k]
                     else [GetState k; ApplyState state; SetGameReady])
  \/ (cancelledAtTest k = false /\ getState k = None
      /\ k = (maxAttempts - 1)%nat /\ ending = [GetState k; WarnGiveUp]).





(** ** The effect that starts the initial fetch (lines 994-1033) *)

(** What one run of the effect is given: the values of [authReady],
    [displayGameId] and [gameReady] of its render and, for the loop it may
    start, the answers of the game service and the value of its own
    [cancelled] flag at the two places the loop reads it. The flag is set
    by the cleanup of the run, which React calls before the next run of
    the effect and when the screen is left. *)
Record EffectRun : Type := mkEffectRun {
  run_authReady : bool;
  run_displayGameId : string;
  run_gameReady : bool;
  run_getState : nat -> option Payload;
  run_cancelledAtTest : nat -> bool;
  run_cancelledAfterFetch : nat -> bool
}.

(** One run of the effect: what it does, in order. *)
Definition initialFetchEffect (fuel : nat) (run : EffectRun) : option (list FetchAction) :=
  if negb (run_authReady run) || String.eqb (run_displayGameId run) ""
     || String.eqb (run_displayGameId run) "pending"
  then Some (if run_gameReady run then [ClearGameReady] else [])
  else if run_gameReady run then Some []
  else fetchStateWithRetry (run_getState run) (run_cancelledAtTest run)
         (run_cancelledAfterFetch run) fuel.

(** The runs of the effect over the life of the screen, in order. React
    runs the effect after the first render and again after every render in
    which [authReady], [displayGameId], [gameReady] or [applyGameStateUpdate]
    is not the value of the render before; [applyGameStateUpdate] is
    created anew whenever a state variable of its dependency list changes
    (lines 978-990). The result holds the trace of every run. *)
Fixpoint effectRuns (fuel : nat) (runs : list EffectRun) : option (list (list FetchAction)) :=
  match runs with
  | [] => Some []
  | run :: rest =>
      match initialFetchEffect fuel run, effectRuns fuel rest with
      | Some trace, Some traces => Some (trace :: traces)
      | _, _ => None
      end
  end.

(** The requests [GET /state] of all runs together. *)
Definition requestsMade (traces : list (list FetchAction)) : nat :=
  fold_right (fun trace total => (attemptsMade trace + total)%nat) 0%nat traces.

(** A run for game ["g1"] whose requests all fail and whose cleanup is
    called, if ever, while attempt [cancelledFrom] is being prepared. *)
Definition failingRun (cancelledFrom : option nat) : EffectRun :=
  let cancelled :=
    fun n => match cancelledFrom with Some k => Nat.leb k n | None => false end in
  mkEffectRun true "g1" false (fun _ => None) cancelled cancelled.

(** ** Concrete sessions and payloads used by the examples *)

Definition cellAt (r c : Z) : AttackCell := mkCell (Fin r) (Fin c) false.

(** The local player is slot 1 of game ["g1"], with subject ["u1"]. *)
Definition freshSession : Session :=
  {| displayGameId := "g1";
     selfUserId := Some "u1";
     playerIndex := Some 1;
     opponentUuid := "";
     playerOneUuid := None;
     playerTwoUuid := None;
     selfCombatSnapshot := None;
     opponentCombatSnapshot := None;
     gameResult := None;
     isCurrentTurnSelf := false;
     pendingAttack := None;
     isSubmittingAttack := false;
     attackFeedback := None;
     selfAttackHistory := emptyHistory;
     opponentAttackHistory := emptyHistory;
     hasBothBoardsSubmitted := false;
     isConfirmed := false |}.

(** [{ uuid, boardSubmitted: true, hits }] *)
Definition playerEntry (uuid : string) (hitList : list RawCellItem) : RawPlayer :=
  mkRawPlayer (JStr uuid) JUndefined (JBool true) (Some hitList) (Some []) None.

(** [{ type: 'game_status', status, currentTurn, players: { 1: one, 2: two } }] *)
Definition statusPayload (status currentTurn : JValue) (one two : RawPlayer) : Payload :=
  mkPayload (JStr "game_status") status currentTurn JUndefined JUndefined one two
            JUndefined JUndefined None.

(** [{ type: 'attack', player, x, y, result }] *)
Definition attackEvent (player x y : Z) (result : string) : GameEvent :=
  mkEvent (JStr "attack") (JNum (Fin player)) (CValue (Fin x)) (CValue (Fin y))
          (JStr result) JUndefined JUndefined.

(** [{ events, currentTurn }] *)
Definition eventsPayload (currentTurn : JValue) (events : list GameEvent) : Payload :=
  mkPayload JUndefined JUndefined currentTurn JUndefined JUndefined missingPlayer missingPlayer
            JUndefined JUndefined (Some events).

(** Both boards submitted, no attack recorded, slot 1 to move. *)
Definition openingSnapshot : Payload :=
  statusPayload (JStr "active") (JNum (Fin 1)) (playerEntry "u1" []) (playerEntry "u2" []).

(** The session once [openingSnapshot] has arrived: the local player may fire. *)
Definition readySession : Session := applyGameStateUpdate (Some openingSnapshot) freshSession.

(** Local history holds the hit (row 1, col 1). *)
Definition localHits11 : Session :=
  setSelfAttackHistory (mkHistory [cellAt 1 1] []) freshSession.


(** A snapshot whose slot-1 hit list is [[[2, 2]]]. *)
Definition snapshotHits22 : Payload :=
  statusPayload (JStr "active") (JNum (Fin 2))
    (playerEntry "u1" [RawTuple (CValue (Fin 2)) (CValue (Fin 2)) JUndefined])
    (playerEntry "u2" []).

(** An event batch: slot 1 hit the cell x = 1, y = 1. *)
Definition eventHit11 : Payload :=
  eventsPayload (JNum (Fin 2)) [attackEvent 1 1 1 "hit"].


(** The game service answers [POST /fire] with status 500. *)
Definition failingRespond (call : FireCall) : FireOutcome :=
  Rejected (ThrownError "Attack failed: 500").

(** Both boards submitted; the turn is given as the uuid of slot 2. *)
Definition uuidTurnSnapshot : Payload :=
  statusPayload (JStr "active") (JStr "u2") (playerEntry "u1" []) (playerEntry "u2" []).

(** [{ type: 'game_status', status: 'ended', currentTurn, winner: 2, loser: 1, players }] *)
Definition endedSnapshot (currentTurn : JValue) : Payload :=
  mkPayload (JStr "game_status") (JStr "ended") currentTurn JUndefined JUndefined
            (playerEntry "u1" []) (playerEntry "u2" []) (JNum (Fin 2)) (JNum (Fin 1)) None.

(** A decoder under which every token carries the subject ["u1"]: two
    tokens issued to the same account. *)
Definition sameSubjectDecoder (token : string) : option string := Some "u1".

(** No matchmaking tokens were handed over and the subject is not yet
    known: the slot of the local player is unresolved. *)
Definition unresolvedSession : Session :=
  setPlayerIndex None
    (mkSession "g1" None None "" None None None None None false None false None
       emptyHistory emptyHistory false false).

(** An entry of the board matrix: [null], or the label written for one of
    the placed shapes. *)
Definition boardEntryOk (placed : list PlacedShape) (entry : option string) : Prop :=
  entry = None \/ exists ps, ps ∈ placed /\ entry = Some (shapeLabel (ps_id ps)).

(** The invariant of the two nested loops of [buildBoardMatrix]. *)
Definition boardInvariant (placed : list PlacedShape) (board : Board) : Prop :=
  length board = 10%nat
  /\ Forall (fun cells => length cells = 10%nat /\ Forall (boardEntryOk placed) cells) board.

(** A placed shape with the cells outside the grid removed. *)
Definition clipToGrid (ps : PlacedShape) : PlacedShape :=
  mkPlaced (ps_id ps) (filter (fun cell => inGrid cell = true) (ps_cells ps)).

(** A 2x1 ship with one cell on the grid and one beyond column 9, and a
    shape id outside the catalog placed beyond row 9. *)
Definition overhangingPlacement : list PlacedShape :=
  [ mkPlaced "s-2x1" [(0, 9); (0, 10)]; mkPlaced "s-9x9" [(12, 3); (-1, 0)] ].

(** No cell of [a] is a cell of [b]. *)
Definition cellsApart (a b : list (Z * Z)) : Prop :=
  forall cell, cell ∈ a -> cell ∉ b.

(** What every reachable placement state satisfies: [usedShapeIds] is the
    set of placed ids, no id is placed twice, every placed id is a catalog
    id, every placed cell is on the grid, two placed instances share no
    cell, a valid preview is on the grid and clear of every placed
    instance, and a shape dragged from the palette is an unused catalog
    shape. *)
Definition placementInvariant (p : Placement) : Prop :=
  usedShapeIds p = list_to_set (ps_id <$> placedShapesLeft p)
  /\ NoDup (ps_id <$> placedShapesLeft p)
  /\ (forall ps, ps ∈ placedShapesLeft p -> ps_id ps ∈ (shape_id <$> shapes))
  /\ (forall ps, ps ∈ placedShapesLeft p -> forallb inGrid (ps_cells ps) = true)
  /\ (forall ps1 ps2, ps1 ∈ placedShapesLeft p -> ps2 ∈ placedShapesLeft p ->
         ps_id ps1 <> ps_id ps2 -> cellsApart (ps_cells ps1) (ps_cells ps2))
  /\ (forall cells, hoverPreview p = Some (cells, true) ->
         forallb inGrid cells = true
         /\ forall ps, ps ∈ placedShapesLeft p -> cellsApart cells (ps_cells ps))
  /\ (forall shape, draggingShape p = Some shape -> dragSource p = Some FromPalette ->
         shape ∈ shapes /\ shape_id shape ∉ usedShapeIds p).

(** One drag from the palette: touch the palette item, move over the grid
    cell [(row0, col0)], release. *)
Definition dragFromPalette (shape : Shape) (row0 col0 : Z) (p : Placement) : Placement :=
  endDrag false
    (moveDrag false (Some (mkPointer (Some (row0, col0)) false))
       (startDrag false shape (mkPointer None true) p)).

(** The first four catalog shapes stacked from the top-left corner, and
    the same with the U shape below them. *)
Definition fourPlaced : Placement :=
  dragFromPalette (mkShape "s-4x1" "4x1" [(0, 0); (1, 0); (2, 0); (3, 0)]) 4 0
    (dragFromPalette (mkShape "s-2x2" "2x2" [(0, 0); (1, 0); (0, 1); (1, 1)]) 2 0
       (dragFromPalette (mkShape "s-2x1" "2x1" [(0, 0); (1, 0)]) 1 0
          (dragFromPalette (mkShape "s-3x1" "3x1" [(0, 0); (1, 0); (2, 0)]) 0 0
             initialPlacement))).

Definition fivePlaced : Placement :=
  dragFromPalette (mkShape "s-u" "U" [(0, 0); (1, 0); (0, 1); (0, 2); (1, 2)]) 5 0 fourPlaced.

(** A decoder that can decode no token. *)
Definition failingDecoder (token : string) : option string := None.

(** The subject is known but the matchmaking tokens resolved no slot. *)
Definition slotlessSession : Session := setPlayerIndex None freshSession.

(** ** The session over time *)

Definition setSelfUserId (v : option string) (s : Session) : Session :=
  mkSession (displayGameId s) v (playerIndex s) (opponentUuid s) (playerOneUuid s)
    (playerTwoUuid s) (selfCombatSnapshot s) (opponentCombatSnapshot s) (gameResult s)
    (isCurrentTurnSelf s) (pendingAttack s) (isSubmittingAttack s) (attackFeedback s)
    (selfAttackHistory s) (opponentAttackHistory s) (hasBothBoardsSubmitted s)
    (isConfirmed s).

(** The state of [GameScreen] when it mounts for the route parameters
    [gameId] and [opponentUuid]: the initial values of its [useState]s. *)
Definition initialSession (gameId opponent : string) : Session :=
  mkSession gameId None None opponent None None None None None false None false None
    emptyHistory emptyHistory false false.

(** The effect on [displayGameId] (lines 404-409): both histories are
    emptied and the both-boards flag is dropped. *)
Definition resetForGame (s : Session) : Session :=
  mkSession (displayGameId s) (selfUserId s) (playerIndex s) (opponentUuid s)
    (playerOneUuid s) (playerTwoUuid s) (selfCombatSnapshot s) (opponentCombatSnapshot s)
    (gameResult s) (isCurrentTurnSelf s) (pendingAttack s) (isSubmittingAttack s)
    (attackFeedback s) emptyHistory emptyHistory false (isConfirmed s).

(** [applyGameStateUpdate] called from a continuation that captured the
    state variables of an earlier render ([closure]) while the screen is in
    state [s]: what the callback reads directly comes from [closure], the
    functional updaters ([setIsConfirmed((prev) => ...)], the two history
    updaters) read [s], and the variables it does not set stay as in [s]. *)
Definition applyGameStateUpdateFrom (closure : Session) (payload : option Payload)
    (s : Session) : Session :=
  match payload with
  | None => s
  | Some p =>
      let selfSnapshot := fst (selectSnapshots closure p) in
      let enemySnapshot := snd (selectSnapshots closure p) in
      {| displayGameId := displayGameId s;
         selfUserId := selfUserId s;
         playerIndex := playerIndex s;
         opponentUuid := opponentUuid s;
         playerOneUuid :=
           if isGameStatus p then nextPlayerOneUuidOf closure p else playerOneUuid s;
         playerTwoUuid :=
           if isGameStatus p then nextPlayerTwoUuidOf closure p else playerTwoUuid s;
         selfCombatSnapshot :=
           match selfSnapshot with Some sn => Some sn | None => selfCombatSnapshot s end;
         opponentCombatSnapshot :=
           match enemySnapshot with Some sn => Some sn | None => opponentCombatSnapshot s end;
         gameResult := if gameEndedOf p then Some (p_winner p, p_loser p) else None;
         isCurrentTurnSelf := isSelfTurnNow closure p;
         pendingAttack := pendingAttack s;
         isSubmittingAttack := isSubmittingAttack s;
         attackFeedback := attackFeedback s;
         selfAttackHistory :=
           match eventsArrayOf p, resolvedSelfIndexOf closure p with
           | _ :: _, Some self => mergeEvents self (eventsArrayOf p) (selfAttackHistory s)
           | _, _ => selfAttackHistory s
           end;
         opponentAttackHistory :=
           match eventsArrayOf p, resolvedSelfIndexOf closure p,
                 resolvedOpponentIndexOf closure p with
           | _ :: _, Some _, Some opp =>
               mergeEvents opp (eventsArrayOf p) (opponentAttackHistory s)
           | _, _, _ => opponentAttackHistory s
           end;
         hasBothBoardsSubmitted :=
           match selfSnapshot, enemySnapshot with
           | Some a, Some b => snap_boardSubmitted a && snap_boardSubmitted b
           | _, _ => hasBothBoardsSubmitted s
           end;
         isConfirmed :=
           match selfSnapshot with
           | Some sn => if snap_boardSubmitted sn then true else isConfirmed s
           | None => isConfirmed s
           end |}
  end.

(** [handleConfirmBoard] from the settlement of [gameApi.submitBoard]: the
    response (an object, [{}] when its body does not parse) goes through
    [applyGameStateUpdate] and the board is marked confirmed; a rejected
    request ([None]) only raises an alert. *)
Definition handleConfirmBoard_settle (closure : Session) (response : option Payload)
    (s : Session) : Session :=
  match response with
  | Some p => setIsConfirmed true (applyGameStateUpdateFrom closure (Some p) s)
  | None => s
  end.

(** What can happen to the session between two renders. *)
Inductive sessionStep : Session -> Session -> Prop :=
| step_update closure payload s :
    sessionStep s (applyGameStateUpdateFrom closure payload s)
| step_fire r c s :
    sessionStep s (fst (handleFireAt_begin s r c))
| step_fireSettled closure r c outcome s :
    sessionStep s (handleFireAt_settle closure r c outcome s)
| step_pendingEffect s :
    sessionStep s (pendingAttackEffect s)
| step_feedbackExpired s :
    sessionStep s (setAttackFeedback None s)
| step_boardSettled closure response s :
    sessionStep s (handleConfirmBoard_settle closure response s)
| step_identity index s :
    sessionStep s (setPlayerIndex index s)
| step_subject subject s :
    sessionStep s (setSelfUserId subject s)
| step_gameChanged s :
    sessionStep s (resetForGame s).

Inductive sessionReachable : Session -> Prop :=
| session_initial gameId opponent : sessionReachable (initialSession gameId opponent)
| session_step s s' : sessionReachable s -> sessionStep s s' -> sessionReachable s'.

(** No two cells of the list have the same row and column. *)
Fixpoint cellsDistinct (cells : list AttackCell) : bool :=
  match cells with
  | [] => true
  | cell :: rest => negb (existsb (sameCell cell) rest) && cellsDistinct rest
  end.

Definition historyDistinct (h : AttackHistory) : bool :=
  cellsDistinct (hits h) && cellsDistinct (misses h).

(** What every reachable session satisfies. *)
Definition sessionInvariant (s : Session) : Prop :=
  (hasBothBoardsSubmitted s = true -> isConfirmed s = true)
  /\ historyDistinct (selfAttackHistory s) = true
  /\ historyDistinct (opponentAttackHistory s) = true.

(** The session on the second client of the same game: slot 2, subject ["u2"]. *)
Definition freshSessionTwo : Session :=
  setPlayerIndex (Some 2) (setSelfUserId (Some "u2") (initialSession "g1" "")).

(** The cell [handleFireAt] records for an answer: [sunk] is set for a hit
    whose answer has [sunk === true] or a truthy [hitCode]. *)
Definition firedCellOf (response : FireResponse) (r c : JNumber) : AttackCell :=
  mkCell r c
    (is_str (res_result response) "hit"
     && (is_true (res_sunk response) || truthy (res_hitCode response))).

(** [POST /fire] answers "hit, sunk" and hands the turn to slot 2. *)
Definition hitSunkRespond (call : FireCall) : FireOutcome :=
  Resolved (mkFireResponse (JStr "hit") (JBool true) JUndefined None (JNum (Fin 2)) (Fin 2)).

(** [POST /fire] answers 200 with a body that is not JSON: the client
    reads it as [{}]. *)
Definition emptyRespond (call : FireCall) : FireOutcome :=
  Resolved (mkFireResponse JUndefined JUndefined JUndefined None JUndefined NaN).

(** ** Reading the board matrix, shape bounds *)

(** [board[row][col]] for a cell [(row, col)] with non-negative indices. *)
Definition boardAt (board : Board) (cell : Z * Z) : option (option string) :=
  board !! Z.to_nat (fst cell) ≫= fun cells => cells !! Z.to_nat (snd cell).

(** The label of the last placed shape that covers [cell], if any. *)
Definition coverStep (cell : Z * Z) (acc : option string) (ps : PlacedShape) : option string :=
  if existsb (fun p => sameGridCell p cell) (ps_cells ps)
  then Some (shapeLabel (ps_id ps)) else acc.

Definition lastCover (placed : list PlacedShape) (cell : Z * Z) : option string :=
  fold_left (coverStep cell) placed None.

Definition boardDims (board : Board) : Prop :=
  length board = 10%nat /\ Forall (fun cells => length cells = 10%nat) board.

(** [Math.max(...values)]: the maximum, [-Infinity] for no argument. *)
Definition Math_max (values : list Z) : JNumber :=
  match values with
  | [] => NegInf
  | v :: rest => Fin (fold_left Z.max rest v)
  end.

(** [n + 1] on a JavaScript number. *)
Definition plusOne (n : JNumber) : JNumber :=
  match n with Fin z => Fin (z + 1) | other => other end.

(** [getShapeBounds(cells)]: [(width, height)]. *)
Definition getShapeBounds (cells : list (Z * Z)) : JNumber * JNumber :=
  (plusOne (Math_max (map fst cells)), plusOne (Math_max (map snd cells))).

(** The cells a shape covers when its anchor is dropped on [(row0, col0)]:
    [shape.cells.map((c) => ({ row: row0 + c.y, col: col0 + c.x }))]. *)
Definition cellsAt (shape : Shape) (row0 col0 : Z) : list (Z * Z) :=
  map (fun c => (row0 + snd c, col0 + fst c)) (shape_cells shape).

(** Lift a placed shape off the grid and release it over the palette. *)
Definition dragToPalette (id : string) (p : Placement) : Placement :=
  endDrag false
    (moveDrag false (Some (mkPointer None true)) (onPlacedDragStart false id p)).

(** Lift a placed shape and release it over the grid cell [(row0, col0)]. *)
Definition dragOnGrid (id : string) (row0 col0 : Z) (p : Placement) : Placement :=
  endDrag false
    (moveDrag false (Some (mkPointer (Some (row0, col0)) false))
       (onPlacedDragStart false id p)).

(** An item of a snapshot list given in array form. *)
Definition isArrayItem (item : RawCellItem) : bool :=
  match item with RawShortArray | RawTuple _ _ _ => true | _ => false end.

(** The milliseconds a trace spends in [setTimeout]. *)
Definition totalSleep (trace : list FetchAction) : Z :=
  fold_right (fun a acc => match a with Sleep ms => ms + acc | _ => acc end) 0 trace.

(** ** Token decoding: [base64Decode] and [decodeJWT]

    A string is read as the list of its characters; a character outside
    Latin-1 is outside the alphabet of the decoder and would be removed by
    its first statement like any other. The 32-bit integer operators are
    written with their conversion [ToInt32]. *)

Definition chars : string :=
  "ABCDEFGHIJKLMNOPQRSTUVWXYZabcdefghijklmnopqrstuvwxyz0123456789+/=".

Definition charCode (c : Ascii.ascii) : Z := Z.of_N (Ascii.N_of_ascii c).

(** The characters the pattern [[^A-Za-z0-9\+\/\=]] does not match. *)
Definition isBase64Char (c : Ascii.ascii) : bool :=
  let n := charCode c in
  (65 <=? n) && (n <=? 90) || (97 <=? n) && (n <=? 122) || (48 <=? n) && (n <=? 57)
  || (n =? 43) || (n =? 47) || (n =? 61).

Fixpoint indexOfFrom (c : Ascii.ascii) (s : string) (i : Z) : Z :=
  match s with
  | EmptyString => -1
  | String d rest => if Ascii.eqb d c then i else indexOfFrom c rest (i + 1)
  end.

(** [s.indexOf(ch)] for [ch] a result of [str.charAt(i)]: a character, or
    the empty string past the end of [str] ([None]), which [indexOf] finds
    at position 0. *)
Definition indexOf (s : string) (ch : option Ascii.ascii) : Z :=
  match ch with
  | None => 0
  | Some c => indexOfFrom c s 0
  end.

Definition ToInt32 (z : Z) : Z := (z + 2 ^ 31) mod 2 ^ 32 - 2 ^ 31.

(** [a << n], [a | b], [a >> n] and [a & b] for [0 <= n < 32]. *)
Definition shl (a n : Z) : Z := ToInt32 (Z.shiftl (ToInt32 a) n).
Definition bor (a b : Z) : Z := Z.lor (ToInt32 a) (ToInt32 b).
Definition sar (a n : Z) : Z := Z.shiftr (ToInt32 a) n.
Definition band (a b : Z) : Z := Z.land (ToInt32 a) (ToInt32 b).

(** One round of the [while] loop on the four characters read; the result
    is the list of char codes appended to [output]. *)
Definition decodeRound (ch1 ch2 ch3 ch4 : option Ascii.ascii) : list Z :=
  let enc1 := indexOf chars ch1 in
  let enc2 := indexOf chars ch2 in
  let enc3 := indexOf chars ch3 in
  let enc4 := indexOf chars ch4 in
  let bits := bor (bor (bor (shl enc1 18) (shl enc2 12)) (shl enc3 6)) enc4 in
  if enc3 =? 64 then [band (sar bits 16) 255]
  else if enc4 =? 64 then [band (sar bits 16) 255; band (sar bits 8) 255]
  else [band (sar bits 16) 255; band (sar bits 8) 255; band bits 255].

(** The loop [while (i < str.length)]: [i] advances by four in every round,
    so the rounds read consecutive groups of four characters, the last one
    possibly past the end of the string. *)
Fixpoint decodeLoop (str : list Ascii.ascii) : list Z :=
  match str with
  | [] => []
  | [c1] => decodeRound (Some c1) None None None
  | [c1; c2] => decodeRound (Some c1) (Some c2) None None
  | [c1; c2; c3] => decodeRound (Some c1) (Some c2) (Some c3) None
  | c1 :: c2 :: c3 :: c4 :: rest =>
      decodeRound (Some c1) (Some c2) (Some c3) (Some c4) ++ decodeLoop rest
  end.

(** [base64Decode(str)]: the char codes of the returned string. *)
Definition base64Decode (str : list Ascii.ascii) : list Z :=
  decodeLoop (filter (fun c => isBase64Char c = true) str).

(** [s.split(sep)] for a one-character separator. *)
Fixpoint split (sep : Ascii.ascii) (s : list Ascii.ascii) : list (list Ascii.ascii) :=
  match s with
  | [] => [[]]
  | c :: rest =>
      if Ascii.eqb c sep then [] :: split sep rest
      else
        match split sep rest with
        | part :: parts => (c :: part) :: parts
        | [] => [[c]]
        end
  end.

Definition padChar : Ascii.ascii := "="%char.

(** [s.replace(/from/g, to)] for single characters. *)
Definition replaceAll (from to : Ascii.ascii) (s : list Ascii.ascii) : list Ascii.ascii :=
  map (fun c => if Ascii.eqb c from then to else c) s.

(** The argument [decodeJWT] passes to [base64Decode]: the payload part
    with the URL-safe characters replaced and the padding added. *)
Definition paddedPayload (payload : list Ascii.ascii) : list Ascii.ascii :=
  let base64 := replaceAll "_"%char "/"%char (replaceAll "-"%char "+"%char payload) in
  let padding := (length base64 mod 4)%nat in
  if negb (Nat.eqb padding 0) then base64 ++ repeat padChar (4 - padding) else base64.

(** [decodeJWT(token)] up to its call of [JSON.parse]: the char codes of
    [decoded], or [None] where it throws for a token that has not three
    parts. *)
Definition decodeJWT_decoded (token : list Ascii.ascii) : option (list Z) :=
  match split "."%char token with
  | [_; payload; _] => Some (base64Decode (paddedPayload payload))
  | _ => None
  end.

(** The characters of a base64url payload. *)
Definition isBase64UrlChar (c : Ascii.ascii) : bool :=
  let n := charCode c in
  (65 <=? n) && (n <=? 90) || (97 <=? n) && (n <=? 122) || (48 <=? n) && (n <=? 57)
  || (n =? 45) || (n =? 95).

(** The value of a character in the base64 alphabet: its position in
    [chars]. *)
Definition sextet (c : Ascii.ascii) : Z := indexOf chars (Some c).

(** ** The matchmaking queue: [QueueService] and the profile screen

    The service is a record of its private fields; a handler returns the
    new record and what it did to the outside, in order: the listeners it
    called and the socket operations it made. Identifiers are strings, as
    [QueueMessage] declares them, so [String(id)] is [id]. *)

Inductive QueueStatus : Type := Idle | Connecting | InQueue | Matched | QueueError.

(** [message.data] of a ['matched'] message, with the fields that are read. *)
Record MatchData : Type := mkMatchData {
  data_gameId : option string;
  data_playerTokens : option (list string);
  data_matchId : option string;
  data_opponentName : option string;
  data_opponentUuid : option string
}.

Definition emptyData : MatchData := mkMatchData None None None None None.

(** The parsed message, by its [type]. *)
Inductive QueueMessage : Type :=
| JoinedMessage (queuePosition : option Z)
| MatchedMessage (gameId : option string) (playerTokens : option (list string))
    (data : option MatchData)
| ErrorMessage (message : option string)
| OtherMessage.

Inductive QueueEffect : Type :=
| NotifyStatus (status : QueueStatus)               (* [this.onStatusChange?.(status)] *)
| NotifyPosition (position : Z)                     (* [this.onQueuePositionChange?.(...)] *)
| NotifyMatched (gameId : string) (payload : MatchData)   (* [this.onMatched?.(...)] *)
| NotifyError (error : string)                      (* [this.onError?.(...)] *)
| SocketCreated (socket : nat)                      (* [new WebSocket(...)] *)
| SocketSend (socket : nat) (token : string)        (* [this.ws?.send(...)] *)
| SocketClose (socket : nat)                        (* [this.ws.close()] *)
| WarnUnknown.                                      (* [console.warn(...)] *)

(** The [on...] fields hold [true] once a handler is registered. *)
Record QueueService : Type := mkQueue {
  q_ws : option nat;
  q_status : QueueStatus;
  q_queuePosition : option Z;
  q_gameId : option string;
  q_onStatusChange : bool;
  q_onQueuePositionChange : bool;
  q_onMatched : bool;
  q_onError : bool
}.

(** [new QueueService()] *)
Definition newQueueService : QueueService :=
  mkQueue None Idle None None false false false false.

Definition setStatus (status : QueueStatus) (q : QueueService)
    : QueueService * list QueueEffect :=
  (mkQueue (q_ws q) status (q_queuePosition q) (q_gameId q)
     (q_onStatusChange q) (q_onQueuePositionChange q) (q_onMatched q) (q_onError q),
   if q_onStatusChange q then [NotifyStatus status] else []).

Definition handleError (errorMessage : string) (q : QueueService)
    : QueueService * list QueueEffect :=
  let '(q1, done1) := setStatus QueueError q in
  (q1, done1 ++ if q_onError q1 then [NotifyError errorMessage] else []).

Definition disconnect (q : QueueService) : QueueService * list QueueEffect :=
  (mkQueue None Idle None None
     (q_onStatusChange q) (q_onQueuePositionChange q) (q_onMatched q) (q_onError q),
   match q_ws q with Some socket => [SocketClose socket] | None => [] end).

(** [a ?? b] on optional values. *)
Definition orElse {A} (a b : option A) : option A :=
  match a with Some _ => a | None => b end.

(** [a || b] for an optional string and a default. *)
Definition orDefault (a : option string) (b : string) : string :=
  match a with
  | Some s => if String.eqb s "" then b else s
  | None => b
  end.

(** The [payload] built in the ['matched'] case. *)
Definition matchedPayload (gameId : option string) (playerTokens : option (list string))
    (data : option MatchData) : MatchData :=
  let resolvedGameId := orElse gameId (data ≫= data_gameId) in
  let base := default emptyData data in
  let tokens :=
    default [] (orElse playerTokens (data ≫= data_playerTokens)) in
  mkMatchData
    (match resolvedGameId, data_gameId base with
     | Some resolved, None => Some resolved
     | _, _ => data_gameId base
     end)
    (Some tokens) (data_matchId base) (data_opponentName base) (data_opponentUuid base).

Definition handleMessage (message : QueueMessage) (q : QueueService)
    : QueueService * list QueueEffect :=
  match message with
  | JoinedMessage queuePosition =>
      let '(q1, done1) := setStatus InQueue q in
      match queuePosition with
      | Some position =>
          (mkQueue (q_ws q1) (q_status q1) (Some position) (q_gameId q1)
             (q_onStatusChange q1) (q_onQueuePositionChange q1) (q_onMatched q1) (q_onError q1),
           done1 ++ if q_onQueuePositionChange q1 then [NotifyPosition position] else [])
      | None => (q1, done1)
      end
  | MatchedMessage gameId playerTokens data =>
      let '(q1, done1) := setStatus Matched q in
      let resolvedGameId := orElse gameId (data ≫= data_gameId) in
      let gameIdStr := default "pending" resolvedGameId in
      let q2 :=
        mkQueue (q_ws q1) (q_status q1) (q_queuePosition q1) (Some gameIdStr)
          (q_onStatusChange q1) (q_onQueuePositionChange q1) (q_onMatched q1) (q_onError q1) in
      let payload := matchedPayload gameId playerTokens data in
      let '(q3, done3) := disconnect q2 in
      (q3, done1 ++ done3 ++ if q_onMatched q3 then [NotifyMatched gameIdStr payload] else [])
  | ErrorMessage message =>
      handleError (orDefault message "Unknown error from queue service") q
  | OtherMessage => (q, [WarnUnknown])
  end.

(** [connect()] up to [await tokenStorage.getToken()]: whether it returns
    at once; [isOpen] is [this.ws.readyState === WebSocket.OPEN]. *)
Definition connect_begin (isOpen : bool) (q : QueueService) : bool :=
  match q_ws q with Some _ => isOpen | None => false end.

(** [connect()] after the token has arrived; [socket] is the socket that
    [new WebSocket] creates, and the third component the message of the
    error the promise is rejected with, if any. *)
Definition connect_resume (token : option string) (socket : nat) (q : QueueService)
    : QueueService * list QueueEffect * option string :=
  if truthyStr token then
    let '(q1, done1) := setStatus Connecting q in
    (mkQueue (Some socket) (q_status q1) (q_queuePosition q1) (q_gameId q1)
       (q_onStatusChange q1) (q_onQueuePositionChange q1) (q_onMatched q1) (q_onError q1),
     done1 ++ [SocketCreated socket], None)
  else
    let '(q1, done1) := handleError "No token available. Please login first." q in
    (q1, done1, Some "No token available. Please login first.").

(** The handlers [connect] installs on its socket; [token] is the token
    that call of [connect] read, [parsed] the result of [JSON.parse]. *)
Definition ws_onopen (token : string) (q : QueueService) : QueueService * list QueueEffect :=
  (q, match q_ws q with Some socket => [SocketSend socket token] | None => [] end).

Definition ws_onmessage (parsed : option QueueMessage) (q : QueueService)
    : QueueService * list QueueEffect :=
  match parsed with
  | Some message => handleMessage message q
  | None => handleError "Failed to parse server message" q
  end.

Definition ws_onerror (q : QueueService) : QueueService * list QueueEffect :=
  handleError "Connection error occurred" q.

Definition ws_onclose (q : QueueService) : QueueService * list QueueEffect :=
  match q_status q with
  | Matched | QueueError => (q, [])
  | _ => setStatus Idle q
  end.

(** [setOnStatusChange], [setOnQueuePositionChange], [setOnMatched] and
    [setOnError]. *)
Definition setOnStatusChange (q : QueueService) : QueueService :=
  mkQueue (q_ws q) (q_status q) (q_queuePosition q) (q_gameId q)
    true (q_onQueuePositionChange q) (q_onMatched q) (q_onError q).

Definition setOnQueuePositionChange (q : QueueService) : QueueService :=
  mkQueue (q_ws q) (q_status q) (q_queuePosition q) (q_gameId q)
    (q_onStatusChange q) true (q_onMatched q) (q_onError q).

Definition setOnMatched (q : QueueService) : QueueService :=
  mkQueue (q_ws q) (q_status q) (q_queuePosition q) (q_gameId q)
    (q_onStatusChange q) (q_onQueuePositionChange q) true (q_onError q).

Definition setOnError (q : QueueService) : QueueService :=
  mkQueue (q_ws q) (q_status q) (q_queuePosition q) (q_gameId q)
    (q_onStatusChange q) (q_onQueuePositionChange q) (q_onMatched q) true.

(** The service between two of its handlers: everything that can run on
    it, in any order. *)
Inductive queueStep : QueueService -> QueueService -> Prop :=
| queue_listener q q' :
    q' = setOnStatusChange q \/ q' = setOnQueuePositionChange q
    \/ q' = setOnMatched q \/ q' = setOnError q ->
    queueStep q q'
| queue_connect q token socket :
    queueStep q (connect_resume token socket q).1.1
| queue_open q token : queueStep q (ws_onopen token q).1
| queue_message q parsed : queueStep q (ws_onmessage parsed q).1
| queue_error q : queueStep q (ws_onerror q).1
| queue_close q : queueStep q (ws_onclose q).1
| queue_disconnect q : queueStep q (disconnect q).1.

Inductive queueReachable : QueueService -> Prop :=
| queue_new : queueReachable newQueueService
| queue_next q q' : queueReachable q -> queueStep q q' -> queueReachable q'.

(** The route parameters the profile screen builds in its [onMatched]
    handler; [param_playerTokens] is the array it serialises. *)
Record RouteParams : Type := mkRouteParams {
  param_gameId : string;
  param_matchId : option string;
  param_opponentName : option string;
  param_opponentUuid : option string;
  param_playerTokens : option (list string)
}.

(** [if (v) params.k = String(v)] *)
Definition whenTruthy (v : option string) : option string :=
  match v with
  | Some s => if String.eqb s "" then None else Some s
  | None => None
  end.

Definition onMatchedRoute (gameId : string) (data : MatchData) : RouteParams :=
  let matchedTokens := default [] (data_playerTokens data) in
  mkRouteParams
    (default gameId (data_gameId data))
    (whenTruthy (data_matchId data))
    (whenTruthy (data_opponentName data))
    (whenTruthy (data_opponentUuid data))
    (match matchedTokens with [] => None | _ :: _ => Some matchedTokens end).

(** The [NotifyMatched] of a list of effects, passed through the profile
    screen's handler. *)
Definition routesPushed (effects : list QueueEffect) : list RouteParams :=
  omap (fun e => match e with
                 | NotifyMatched gameId payload => Some (onMatchedRoute gameId payload)
                 | _ => None
                 end) effects.

Definition statusesNotified (effects : list QueueEffect) : list QueueStatus :=
  omap (fun e => match e with NotifyStatus status => Some status | _ => None end) effects.

(** ** [gameApi.fireAttack] after its [fetch] *)

(** [errorData?.message] and [errorData?.error] of an error body. *)
Record ErrorBody : Type := mkErrorBody {
  err_message : JValue;
  err_error : JValue
}.

(** What the request settles with: [fetch] rejects (with
    [networkError?.message]); a response that is not [ok], with the text of
    its status code and its body ([None] where [response.json()] rejects);
    or an [ok] response with its body. *)
Inductive FetchReply : Type :=
| NetworkFailure (message : option string)
| HttpFailure (statusText : string) (body : option ErrorBody)
| HttpOk (body : option FireResponse).

(** [typeof v === 'string' && v.trim()] *)
Definition nonBlankString (v : JValue) : option string :=
  match v with
  | JStr s => if String.eqb (trim s) "" then None else Some s
  | _ => None
  end.

Definition failureMessage (prefix statusText : string) (body : option ErrorBody) : string :=
  match body with
  | Some errorData =>
      match nonBlankString (err_message errorData) with
      | Some message => message
      | None =>
          match nonBlankString (err_error errorData) with
          | Some error => error
          | None => String.append prefix statusText
          end
      end
  | None => String.append prefix statusText
  end.

(** The object [{}] read as a response. *)
Definition emptyResponse : FireResponse :=
  mkFireResponse JUndefined JUndefined JUndefined None JUndefined NaN.

Definition fireAttack_settle (reply : FetchReply) : FireOutcome :=
  match reply with
  | NetworkFailure message =>
      Rejected (ThrownError (orDefault message "Network error while firing"))
  | HttpFailure statusText body =>
      Rejected (ThrownError (failureMessage "Attack failed: " statusText body))
  | HttpOk body => Resolved (default emptyResponse body)
  end.

(** [gameApi.fireAttack(call)] as a whole. *)
Definition fireAttack (token : option string) (call : FireCall) (reply : FetchReply)
    : FireOutcome :=
  match fireAttack_request token call with
  | inl error => Rejected error
  | inr _ => fireAttack_settle reply
  end.

(** ** Manual attack markers *)

(** The updater of [setManualAttackMarkers] in [onCellPress]. *)
Definition addMarker (r c : JNumber) (prev : list AttackCell) : list AttackCell :=
  if someAt r c prev then prev else prev ++ [mkCell r c false].

(** [onCellPress(row, col)] of the opponent grid: the session, the request
    made if any, and the markers. *)
Definition onCellPress (r c : JNumber) (s : Session) (markers : list AttackCell)
    : Session * option FireCall * list AttackCell :=
  (if canFire s then handleFireAt_begin s r c else (s, None), addMarker r c markers).

(** [selfDisplayHits] *)
Definition selfDisplayHits (selfHits manualAttackMarkers : list AttackCell)
    : list AttackCell :=
  fold_left
    (fun combined marker =>
       if existsb (fun cell => strict_eq_num (row cell) (row marker)
                               && strict_eq_num (col cell) (col marker)) combined
       then combined else combined ++ [marker])
    manualAttackMarkers selfHits.

(** The test of the marker effect: no hit and no miss at the marker. *)
Definition unrecorded (selfHits selfMisses : list AttackCell) (cell : AttackCell) : bool :=
  negb (existsb (fun hit => strict_eq_num (row hit) (row cell)
                            && strict_eq_num (col hit) (col cell)) selfHits)
  && negb (existsb (fun miss => strict_eq_num (row miss) (row cell)
                                && strict_eq_num (col miss) (col cell)) selfMisses).

(** The effect on [manualAttackMarkers, selfHits, selfMisses]. *)
Definition markersEffect (selfHits selfMisses manualAttackMarkers : list AttackCell)
    : list AttackCell :=
  match manualAttackMarkers with
  | [] => manualAttackMarkers
  | _ :: _ => filter (fun cell => unrecorded selfHits selfMisses cell = true) manualAttackMarkers
  end.

(** ** The board matrix on any value of the placement's type

    [placedShapesLeft] is declared as
    [{ id: string; cells: { row: number; col: number }[] }[]]. The placement
    handlers store integer cells only, which is what [buildBoardMatrix]
    above is written for; here a coordinate is any number: a finite one,
    given as a fraction, [NaN], or an infinity. *)

Inductive CellNumber : Type :=
| Finite (q : Q)
| NotANumber
| Infinite (positive : bool).

(** [n >= 0 && n < 10] *)
Definition inRange (n : CellNumber) : bool :=
  match n with
  | Finite q => Qle_bool (inject_Z 0) q && negb (Qle_bool (inject_Z 10) q)
  | _ => false
  end.

(** The array index the property key [n] denotes: the number itself when
    it is a non-negative integer, none otherwise. *)
Definition arrayIndex (n : CellNumber) : option nat :=
  match n with
  | Finite q =>
      if (0 <=? Qnum q) && (Qnum q mod Z.pos (Qden q) =? 0)
      then Some (Z.to_nat (Qnum q / Z.pos (Qden q)))
      else None
  | _ => None
  end.

(** [cells[col] = label] on an array: an index below the length replaces
    the element, an index from the length on extends the array over holes,
    and a key that is no index becomes a property beside the elements. *)
Definition assignElement (label : string) (cells : list (option string)) (col : CellNumber)
    : list (option string) :=
  match arrayIndex col with
  | Some j =>
      if Nat.ltb j (length cells) then <[j := Some label]> cells
      else cells ++ replicate (j - length cells) None ++ [Some label]
  | None => cells
  end.

(** [board[row][col] = label]; [None] is the [TypeError] raised where
    [board[row]] is [undefined]. *)
Definition assignCell (label : string) (board : Board) (row col : CellNumber) : option Board :=
  match arrayIndex row with
  | Some i =>
      match board !! i with
      | Some cells => Some (<[i := assignElement label cells col]> board)
      | None => None
      end
  | None => None
  end.

Record PlacedValue : Type := mkPlacedValue {
  pv_id : string;
  pv_cells : list (CellNumber * CellNumber)  (* [(row, col)] *)
}.

(** The test of the inner loop. *)
Definition passesGuard (cell : CellNumber * CellNumber) : bool :=
  inRange (fst cell) && inRange (snd cell).

(** The body of the inner loop; an exception raised earlier is kept. *)
Definition writeCellValue (label : string) (board : option Board)
    (cell : CellNumber * CellNumber) : option Board :=
  match board with
  | Some cells =>
      if passesGuard cell then assignCell label cells (fst cell) (snd cell) else Some cells
  | None => None
  end.

(** [buildBoardMatrix()] for [placedShapesLeft = placed]: the matrix, or
    [None] where it raises. *)
Definition buildBoardMatrix_any (placed : list PlacedValue) : option Board :=
  fold_left
    (fun board shape =>
       fold_left (writeCellValue (shapeLabel (pv_id shape))) (pv_cells shape) board)
    placed (Some emptyBoard).

(** A placement with integer cells as a value of the declared type. *)
Definition ofPlaced (ps : PlacedShape) : PlacedValue :=
  mkPlacedValue (ps_id ps)
    (map (fun cell => (Finite (inject_Z (fst cell)), Finite (inject_Z (snd cell))))
       (ps_cells ps)).

(** A placed shape without the cells that fail the test of the loop. *)
Definition clipValue (shape : PlacedValue) : PlacedValue :=
  mkPlacedValue (pv_id shape) (filter (fun cell => passesGuard cell = true) (pv_cells shape)).

(** No cell that passes the test has a fractional row. *)
Definition rowsIntegral (placed : list PlacedValue) : Prop :=
  forall shape cell,
    shape ∈ placed -> cell ∈ pv_cells shape -> passesGuard cell = true ->
    is_Some (arrayIndex (fst cell)).

(** An entry of the matrix: [null], or the label of a placed shape. *)
Definition entryOfPlaced (placed : list PlacedValue) (entry : option string) : Prop :=
  entry = None \/ exists shape, shape ∈ placed /\ entry = Some (shapeLabel (pv_id shape)).

(** Integer cells on and off the grid, and an id outside the catalog. *)
Definition overhangingValue : list PlacedValue := map ofPlaced overhangingPlacement.

(** One cell, at row 1/2 and column 0. *)
Definition halfRowPlacement : list PlacedValue :=
  [ mkPlacedValue "s-2x1" [(Finite (1 # 2), Finite (inject_Z 0))] ].

(** * Properties *)

(** ** The merge of attack cells *)

Lemma strict_eq_num_finite_refl n : Number_isFinite n = true -> strict_eq_num n n = true.
Proof. destruct n; simpl; try discriminate. intros _. apply Z.eqb_refl. Qed.

Lemma sameCell_refl c : finiteCell c = true -> sameCell c c = true.
Proof.
  unfold finiteCell, sameCell. intros [Hr Hc]%andb_prop.
  by rewrite !strict_eq_num_finite_refl.
Qed.

Lemma mergeCells_cons base c adds :
  mergeCells base (c :: adds)
  = mergeCells (if existsb (sameCell c) base then base else base ++ [c]) adds.
Proof. reflexivity. Qed.

Lemma mergeCells_prefix base adds : base `prefix_of` mergeCells base adds.
Proof.
  revert base. induction adds as [|c adds IH]; intros base.
  - done.
  - rewrite mergeCells_cons. destruct (existsb (sameCell c) base); [apply IH|].
    etrans; [|apply IH]. by apply prefix_app_r.
Qed.

Lemma existsb_prefix {A} (f : A -> bool) (l k : list A) :
  l `prefix_of` k -> existsb f l = true -> existsb f k = true.
Proof. intros [t ->] H. rewrite existsb_app, H. done. Qed.

Lemma mergeCells_noop base adds :
  forallb (fun c => existsb (sameCell c) base) adds = true ->
  mergeCells base adds = base.
Proof.
  induction adds as [|c adds IH]; [done|]. rewrite mergeCells_cons. cbn [forallb].
  intros [Hc Hrest]%andb_prop. rewrite Hc. by apply IH.
Qed.

Lemma mergeCells_covers base adds :
  forallb finiteCell adds = true ->
  forallb (fun c => existsb (sameCell c) (mergeCells base adds)) adds = true.
Proof.
  revert base. induction adds as [|c adds IH]; intros base; [done|].
  rewrite mergeCells_cons. cbn [forallb]. intros [Hc Hrest]%andb_prop.
  apply andb_true_intro; split; [|by apply IH].
  eapply existsb_prefix; [apply mergeCells_prefix|].
  destruct (existsb (sameCell c) base) eqn:E; [done|].
  rewrite existsb_app. simpl. rewrite (sameCell_refl c Hc). by rewrite orb_true_r.
Qed.

Lemma mergeCells_idempotent base adds :
  forallb finiteCell adds = true ->
  mergeCells (mergeCells base adds) adds = mergeCells base adds.
Proof. intros H. by apply mergeCells_noop, mergeCells_covers. Qed.

Lemma someAt_app r c l k : someAt r c (l ++ k) = someAt r c l || someAt r c k.
Proof. unfold someAt. apply existsb_app. Qed.

Lemma strict_eq_num_trans a b c :
  strict_eq_num a b = true -> strict_eq_num b c = strict_eq_num a c.
Proof.
  destruct a, b; simpl; try done. intros ->%Z.eqb_eq. done.
Qed.

Lemma someAt_skipped r c cell cells :
  existsb (sameCell cell) cells = true ->
  someAt r c [cell] = true -> someAt r c cells = true.
Proof.
  unfold someAt. simpl. rewrite orb_false_r.
  intros (existing & Hin & Hsame)%existsb_exists [Hr Hc]%andb_prop.
  apply existsb_exists. exists existing. split; [done|].
  unfold sameCell in Hsame. apply andb_prop in Hsame as [Hrow Hcol].
  by rewrite <- (strict_eq_num_trans _ _ r Hrow), <- (strict_eq_num_trans _ _ c Hcol), Hr, Hc.
Qed.

Lemma someAt_mergeCells r c base adds :
  someAt r c (mergeCells base adds) = someAt r c base || someAt r c adds.
Proof.
  revert base. induction adds as [|cell adds IH]; intros base.
  - by rewrite orb_false_r.
  - rewrite mergeCells_cons, IH. change (cell :: adds) with ([cell] ++ adds).
    rewrite (someAt_app r c [cell] adds).
    destruct (existsb (sameCell cell) base) eqn:E.
    + destruct (someAt r c [cell]) eqn:Ecell; [|by rewrite orb_false_l].
      by rewrite (someAt_skipped r c cell base E Ecell).
    + rewrite someAt_app. by rewrite orb_assoc.
Qed.







Lemma mergeEvents_prefix index events prev :
  hits prev `prefix_of` hits (mergeEvents index events prev)
  /\ misses prev `prefix_of` misses (mergeEvents index events prev).
Proof.
  unfold mergeEvents. destruct (collectAttacks index events) as [newHits newMisses].
  destruct newHits, newMisses; cbn [hits misses]; try done; split; apply mergeCells_prefix.
Qed.

(** ** Snapshots against the attack history *)

(** Case analysis on the conditions of the [if]s left in the goal. *)
Ltac split_conditions :=
  repeat match goal with
         | |- context [if ?b then _ else _] => destruct b eqn:?
         end;
  simpl.




Lemma history_prefix_after q s :
  hits (selfAttackHistory s) `prefix_of` hits (selfAttackHistory (applyGameStateUpdate q s))
  /\ misses (selfAttackHistory s) `prefix_of` misses (selfAttackHistory (applyGameStateUpdate q s))
  /\ hits (opponentAttackHistory s)
       `prefix_of` hits (opponentAttackHistory (applyGameStateUpdate q s))
  /\ misses (opponentAttackHistory s)
       `prefix_of` misses (opponentAttackHistory (applyGameStateUpdate q s)).
Proof.
  destruct q as [p|]; [|done]. simpl. unfold nextSelfHistory, nextOpponentHistory.
  destruct (eventsArrayOf p) eqn:E; [done|].
  destruct (resolvedSelfIndexOf s p) as [i|]; [|done].
  destruct (mergeEvents_prefix i (g :: l) (selfAttackHistory s)) as [? ?].
  destruct (resolvedOpponentIndexOf s p) as [j|]; [|done].
  destruct (mergeEvents_prefix j (g :: l) (opponentAttackHistory s)) as [? ?].
  done.
Qed.

Lemma storedSnapshots_by_slot s p :
  let after := applyGameStateUpdate (Some p) s in
  let one := mapSnapshot (p_players1 p) in
  let two := mapSnapshot (p_players2 p) in
  let kept :=
    selfCombatSnapshot after = selfCombatSnapshot s
    /\ opponentCombatSnapshot after = opponentCombatSnapshot s in
  let asSlotOne :=
    selfCombatSnapshot after = Some one /\ opponentCombatSnapshot after = Some two in
  let asSlotTwo :=
    selfCombatSnapshot after = Some two /\ opponentCombatSnapshot after = Some one in
  (isGameStatus p = false -> kept)
  /\ (isGameStatus p = true ->
      (playerIndex s = Some 1 -> asSlotOne)
      /\ (playerIndex s = Some 2 -> asSlotTwo)
      /\ (playerIndex s <> Some 1 -> playerIndex s <> Some 2 ->
          (truthyStr (selfUserId s) = false -> kept)
          /\ (forall me, selfUserId s = Some me -> me <> "" ->
                (snap_uuid one = Some me -> asSlotOne)
                /\ (snap_uuid one <> Some me -> snap_uuid two = Some me -> asSlotTwo)
                /\ (snap_uuid one <> Some me -> snap_uuid two <> Some me -> kept)))).
Proof.
  simpl. unfold selectSnapshots, playerOneSnapshotOf, playerTwoSnapshotOf.
  split; [intros ->|intros ->].
  - destruct (playerIndex s) as [i|], (selfUserId s) as [me|]; split_conditions; by simpl.
  - split; [by intros ->|]. split; [by intros ->|]. intros H1 H2.
    assert (match playerIndex s with
            | Some i => if i =? 1 then false else if i =? 2 then false else true
            | None => true
            end = true) as Hother.
    { destruct (playerIndex s) as [i|]; [|done].
      destruct (i =? 1) eqn:E1; [apply Z.eqb_eq in E1; by subst|].
      destruct (i =? 2) eqn:E2; [apply Z.eqb_eq in E2; by subst|]. done. }
    split.
    + intros Hme. destruct (playerIndex s) as [i|]; [destruct (i =? 1), (i =? 2); try done|];
        destruct (selfUserId s) as [me|]; simpl in Hme; try done;
        try (apply negb_false_iff in Hme; rewrite Hme; by simpl).
    + intros me -> Hne. apply String.eqb_neq in Hne. rewrite Hne. simpl.
      unfold uuidIs. cbn [snap_uuid mapSnapshot].
      destruct (playerIndex s) as [i|]; [destruct (i =? 1), (i =? 2); try done|];
        (split; [|split]).
      all: try (intros ->; by rewrite String.eqb_refl).
      all: try (intros Hone ->; rewrite String.eqb_refl;
                destruct (match d_uuid (p_players1 p) with JStr u => Some u | _ => None end)
                  as [u|]; [|done];
                destruct (String.eqb u me) eqn:E; [apply String.eqb_eq in E; by subst|done]).
      all: intros Hone Htwo;
        destruct (match d_uuid (p_players1 p) with JStr u => Some u | _ => None end) as [u|];
        [destruct (String.eqb u me) eqn:E; [apply String.eqb_eq in E; by subst|]|];
        (destruct (match d_uuid (p_players2 p) with JStr u => Some u | _ => None end) as [v|];
         [destruct (String.eqb v me) eqn:E'; [apply String.eqb_eq in E'; by subst|]|]);
        done.
Qed.

(** C1 (as amended). A snapshot is stored wholesale, whatever was stored
    before. Of a [game_status] payload the local player's stored snapshot
    becomes the normalised entry of the local slot and the opponent's
    stored snapshot the normalised entry of the other slot: entry 1 and
    entry 2 for [playerIndex] 1, entry 2 and entry 1 for [playerIndex] 2,
    and without such an index the same by the entry whose uuid is the
    local subject (entry 1 tested first); when neither resolves, and for
    any other payload, both stored snapshots stay as they are. The hit and
    miss lists of a stored entry are the normalised lists of the payload.
    A payload without events leaves both attack histories as they were,
    and no update of any kind removes a recorded cell: the old hit and miss
    lists of both histories are prefixes of the new ones. *)
Theorem snapshot_stored_wholesale_history_kept (s : Session) (p : Payload) :
  let after := applyGameStateUpdate (Some p) s in
  let one := mapSnapshot (p_players1 p) in
  let two := mapSnapshot (p_players2 p) in
  let kept :=
    selfCombatSnapshot after = selfCombatSnapshot s
    /\ opponentCombatSnapshot after = opponentCombatSnapshot s in
  let asSlotOne :=
    selfCombatSnapshot after = Some one /\ opponentCombatSnapshot after = Some two in
  let asSlotTwo :=
    selfCombatSnapshot after = Some two /\ opponentCombatSnapshot after = Some one in
  (isGameStatus p = false -> kept)
  /\ (isGameStatus p = true ->
      (playerIndex s = Some 1 -> asSlotOne)
      /\ (playerIndex s = Some 2 -> asSlotTwo)
      /\ (playerIndex s <> Some 1 -> playerIndex s <> Some 2 ->
          (truthyStr (selfUserId s) = false -> kept)
          /\ (forall me, selfUserId s = Some me -> me <> "" ->
                (snap_uuid one = Some me -> asSlotOne)
                /\ (snap_uuid one <> Some me -> snap_uuid two = Some me -> asSlotTwo)
                /\ (snap_uuid one <> Some me -> snap_uuid two <> Some me -> kept))))
  /\ (snap_hits one = normalizeCells (d_hits (p_players1 p))
      /\ snap_misses one = normalizeCells (d_misses (p_players1 p))
      /\ snap_hits two = normalizeCells (d_hits (p_players2 p))
      /\ snap_misses two = normalizeCells (d_misses (p_players2 p)))
  /\ (eventsArrayOf p = [] ->
      selfAttackHistory after = selfAttackHistory s
      /\ opponentAttackHistory after = opponentAttackHistory s)
  /\ (forall q,
        hits (selfAttackHistory s) `prefix_of` hits (selfAttackHistory (applyGameStateUpdate q s))
        /\ misses (selfAttackHistory s)
             `prefix_of` misses (selfAttackHistory (applyGameStateUpdate q s))
        /\ hits (opponentAttackHistory s)
             `prefix_of` hits (opponentAttackHistory (applyGameStateUpdate q s))
        /\ misses (opponentAttackHistory s)
             `prefix_of` misses (opponentAttackHistory (applyGameStateUpdate q s))).
Proof.
  intros after one two kept asSlotOne asSlotTwo.
  destruct (storedSnapshots_by_slot s p) as [Hother Hstatus].
  split; [exact Hother|]. split; [exact Hstatus|]. split; [done|]. split.
  - intros Hev. subst after. simpl. unfold nextSelfHistory, nextOpponentHistory.
    by rewrite Hev.
  - intros q. apply history_prefix_after.
Qed.

(** The theorem at the session of slot 1 that holds the hit (1,1) and the
    snapshot that carries the hit (2,2) for slot 1, and at a session of
    slot 2 for the same snapshot. *)
Lemma snapshot_stored_wholesale_history_kept_witness :
  let after := applyGameStateUpdate (Some snapshotHits22) localHits11 in
  let other := applyGameStateUpdate (Some snapshotHits22) freshSessionTwo in
  (snap_hits <$> selfCombatSnapshot after) = Some [cellAt 2 2]
  /\ (snap_hits <$> opponentCombatSnapshot after) = Some []
  /\ hits (selfAttackHistory after) = [cellAt 1 1]
  /\ (snap_hits <$> selfCombatSnapshot other) = Some []
  /\ (snap_hits <$> opponentCombatSnapshot other) = Some [cellAt 2 2].
Proof.
  destruct (snapshot_stored_wholesale_history_kept localHits11 snapshotHits22)
    as (_ & Hstatus & _ & Hevents & _).
  destruct (Hstatus eq_refl) as ([Hself Hopp] & _).
  { reflexivity. }
  destruct (snapshot_stored_wholesale_history_kept freshSessionTwo snapshotHits22)
    as (_ & Hstatus2 & _).
  destruct (Hstatus2 eq_refl) as (_ & Htwo & _).
  destruct Htwo as [Hself2 Hopp2]; [reflexivity|].
  split; [rewrite Hself; reflexivity|]. split; [rewrite Hopp; reflexivity|].
  split; [rewrite (proj1 (Hevents eq_refl)); reflexivity|].
  split; [rewrite Hself2; reflexivity|rewrite Hopp2; reflexivity].
Defined.

(** C1 (as stated) fails: with local hits {(1,1)} and a snapshot carrying
    hits {(2,2)}, the attack history still holds (1,1) only and the stored
    snapshot holds (2,2) only; the same when the snapshot arrives first and
    the hit on (1,1) arrives afterwards as an event. *)
Lemma snapshot_hits_not_unioned :
  let after := applyGameStateUpdate (Some snapshotHits22) localHits11 in
  let other :=
    applyGameStateUpdate (Some eventHit11)
      (applyGameStateUpdate (Some snapshotHits22) freshSession) in
  hits (selfAttackHistory after) = [cellAt 1 1]
  /\ (snap_hits <$> selfCombatSnapshot after) = Some [cellAt 2 2]
  /\ hits (selfAttackHistory other) = [cellAt 1 1]
  /\ (snap_hits <$> selfCombatSnapshot other) = Some [cellAt 2 2]
  /\ someAt (Fin 2) (Fin 2) (hits (selfAttackHistory after)) = false
  /\ someAt (Fin 2) (Fin 2) (hits (selfAttackHistory other)) = false.
Proof. repeat split; reflexivity. Qed.

(** ** Event batches: no-op on seen cells, idempotence *)




















(** ** The attack controller *)

Lemma canFire_true s :
  canFire s = true ->
  isConfirmed s = true /\ hasBothBoardsSubmitted s = true /\ isCurrentTurnSelf s = true
  /\ isSubmittingAttack s = false /\ pendingAttack s = None.
Proof.
  unfold canFire, hasPending.
  destruct (isConfirmed s), (hasBothBoardsSubmitted s), (isCurrentTurnSelf s),
    (isSubmittingAttack s), (pendingAttack s); simpl; intros H; try discriminate H; done.
Qed.

Lemma handleFireAt_begin_issued s r c s1 call :
  handleFireAt_begin s r c = (s1, Some call) ->
  canFire s = true /\ alreadyAttacked s r c = false
  /\ s1 = setAttackFeedback None (setPendingAttack (Some (r, c)) (setIsSubmittingAttack true s))
  /\ call = mkFireCall (displayGameId s) c r.
Proof.
  unfold handleFireAt_begin.
  destruct (canFire s); simpl; [|intros [=]].
  destruct (_ || _); [intros [=]|].
  destruct (alreadyAttacked s r c); [intros [=]|].
  intros [= <- <-]. done.
Qed.

(** What a rejected attack leaves behind while the game has no result:
    the message, the untouched history, and the pending marker. *)
Lemma rejected_attack_outcome s r c s1 call error :
  handleFireAt_begin s r c = (s1, Some call) ->
  gameResult s = None ->
  let after :=
    pendingAttackEffect (handleFireAt_settle s r c (Rejected error) (pendingAttackEffect s1)) in
  attackFeedback after = Some (thrownMessage error)
  /\ selfAttackHistory after = selfAttackHistory s
  /\ isSubmittingAttack after = false
  /\ pendingAttack after = Some (r, c)
  /\ canFire after = false.
Proof.
  intros (Hfire & Hnew & -> & _)%handleFireAt_begin_issued Hres.
  apply canFire_true in Hfire as (Hc & Hb & Ht & _ & _).
  unfold alreadyAttacked in Hnew.
  unfold pendingAttackEffect at 2. cbn [pendingAttack setAttackFeedback setPendingAttack
    setIsSubmittingAttack]. unfold alreadyAttacked, isMyTurn.
  cbn [selfAttackHistory gameResult isCurrentTurnSelf setAttackFeedback setPendingAttack
    setIsSubmittingAttack]. rewrite Hnew, Hres, Ht. cbn [negb orb].
  unfold handleFireAt_settle, pendingAttackEffect.
  cbn [pendingAttack setAttackFeedback setPendingAttack setIsSubmittingAttack].
  unfold alreadyAttacked, isMyTurn.
  cbn [selfAttackHistory gameResult isCurrentTurnSelf setAttackFeedback setPendingAttack
    setIsSubmittingAttack]. rewrite Hnew, Hres, Ht. cbn [negb orb].
  unfold canFire, hasPending. simpl. rewrite Hc, Hb, Ht. done.
Qed.

(** C3 (the code departs from it). The local player may fire, fires at
    (row 3, col 4), and the game service answers 500: the message is shown
    and the history is untouched, but [finally] only resets
    [isSubmittingAttack]; [pendingAttack] stays at (3,4), [canFire] is
    false, and a second attempt on the same cell is dropped before any
    request. *)
Theorem failed_attack_leaves_pending :
  let after := fireRound (Some "token") failingRespond (Fin 3) (Fin 4) readySession in
  canFire readySession = true
  /\ attackFeedback after = Some "Attack failed: 500"
  /\ selfAttackHistory after = selfAttackHistory readySession
  /\ isSubmittingAttack after = false
  /\ pendingAttack after = Some (Fin 3, Fin 4)
  /\ isMyTurn after = true
  /\ canFire after = false
  /\ handleFireAt_begin after (Fin 3) (Fin 4) = (after, None).
Proof. repeat split; reflexivity. Qed.

(** C4 (the code departs from it). With the local player in slot 1 and a
    snapshot whose turn is the uuid of slot 2, the gate opens although the
    turn belongs to the other slot; and with a snapshot marked ended whose
    turn field is 1, the gate opens although the game has a result. *)
Theorem canFire_open_off_turn :
  let offTurn := applyGameStateUpdate (Some uuidTurnSnapshot) freshSession in
  let ended := applyGameStateUpdate (Some (endedSnapshot (JNum (Fin 1)))) freshSession in
  resolvedSelfIndexOf freshSession uuidTurnSnapshot = Some 1
  /\ turnSlotOf freshSession uuidTurnSnapshot = Some 2
  /\ hasPending offTurn = false /\ isSubmittingAttack offTurn = false
  /\ canFire offTurn = true
  /\ gameResult ended = Some (JNum (Fin 2), JNum (Fin 1))
  /\ isMyTurn ended = false
  /\ canFire ended = true.
Proof. repeat split; reflexivity. Qed.

(** ** Game end *)

(** C5 (as amended). The ended status is read off each update: the game
    result is set exactly by an update whose status text contains "ended"
    or whose type is "game_ended", and cleared by every other update, also
    after an ended one. While the result is set, [isMyTurn] is false and
    the pending-attack effect clears the pending marker. *)
Theorem game_end_is_per_update (s : Session) (p q : Payload) :
  let after := applyGameStateUpdate (Some p) s in
  gameResult after = (if gameEndedOf p then Some (p_winner p, p_loser p) else None)
  /\ isMyTurn after = negb (gameEndedOf p) && isSelfTurnNow s p
  /\ (gameEndedOf p = true -> pendingAttack (pendingAttackEffect after) = None)
  /\ (gameEndedOf q = false -> gameResult (applyGameStateUpdate (Some q) after) = None).
Proof.
  simpl. unfold isMyTurn, pendingAttackEffect, isMyTurn. simpl.
  destruct (gameEndedOf p) eqn:Ep; simpl.
  - repeat split; try done.
    + intros _. destruct (pendingAttack s) as [[r c]|]; [|done].
      simpl. by rewrite orb_true_r.
    + by intros ->.
  - repeat split; try done. by intros ->.
Qed.

(** The theorem at an ended snapshot that finds an attack pending, and at
    an opening snapshot that follows an ended one. *)
Lemma game_end_is_per_update_witness :
  pendingAttack
    (pendingAttackEffect
       (applyGameStateUpdate (Some (endedSnapshot (JNum (Fin 2))))
          (setPendingAttack (Some (Fin 3, Fin 4)) readySession))) = None
  /\ gameResult
       (applyGameStateUpdate (Some openingSnapshot)
          (applyGameStateUpdate (Some (endedSnapshot (JNum (Fin 2)))) readySession)) = None.
Proof.
  split.
  - apply (game_end_is_per_update (setPendingAttack (Some (Fin 3, Fin 4)) readySession)
             (endedSnapshot (JNum (Fin 2))) openingSnapshot). reflexivity.
  - apply (game_end_is_per_update readySession (endedSnapshot (JNum (Fin 2))) openingSnapshot).
    reflexivity.
Defined.

(** C5 (as stated) fails: after an update marked ended, a later snapshot
    without the marker clears the game result, makes it the local player's
    turn again and reopens the fire gate. *)
Lemma ended_game_resumes :
  let ended := applyGameStateUpdate (Some (endedSnapshot (JNum (Fin 2)))) readySession in
  let later := applyGameStateUpdate (Some openingSnapshot) ended in
  gameResult ended = Some (JNum (Fin 2), JNum (Fin 1))
  /\ canFire ended = false
  /\ gameResult later = None
  /\ isMyTurn later = true
  /\ canFire later = true.
Proof. repeat split; reflexivity. Qed.

(** ** One request per attack *)

Lemma handleFireAt_begin_closed s r c :
  canFire s = false -> handleFireAt_begin s r c = (s, None).
Proof. unfold handleFireAt_begin. by intros ->. Qed.

Lemma canFire_busy s :
  hasPending s = true \/ isSubmittingAttack s = true -> canFire s = false.
Proof.
  unfold canFire. intros [-> | ->]; rewrite ?orb_true_r; simpl;
    by destruct (isConfirmed s), (hasBothBoardsSubmitted s), (isCurrentTurnSelf s).
Qed.

(** C6. A call of [handleFireAt] made while an attack is pending or a
    submission is in flight returns the state as it is and calls nothing;
    a call on a cell already among the local hits or misses calls nothing
    and leaves both histories as they are; and once a call has been issued,
    every further call is dropped, before and after the pending-attack
    effect has run, until the first one settles. *)
Theorem single_request_per_attack (s : Session) (r c : JNumber) :
  (hasPending s = true \/ isSubmittingAttack s = true ->
   handleFireAt_begin s r c = (s, None))
  /\ (alreadyAttacked s r c = true ->
      snd (handleFireAt_begin s r c) = None
      /\ selfAttackHistory (fst (handleFireAt_begin s r c)) = selfAttackHistory s
      /\ opponentAttackHistory (fst (handleFireAt_begin s r c)) = opponentAttackHistory s)
  /\ (forall s1 call,
        handleFireAt_begin s r c = (s1, Some call) ->
        forall r' c',
          handleFireAt_begin s1 r' c' = (s1, None)
          /\ handleFireAt_begin (pendingAttackEffect s1) r' c' = (pendingAttackEffect s1, None)).
Proof.
  split; [|split].
  - intros H. by apply handleFireAt_begin_closed, canFire_busy.
  - intros H. unfold handleFireAt_begin. rewrite H.
    destruct (canFire s); [|done]. simpl. by destruct (_ || _).
  - intros s1 call (_ & _ & -> & _)%handleFireAt_begin_issued r' c'.
    split; apply handleFireAt_begin_closed, canFire_busy; right; [done|].
    unfold pendingAttackEffect. simpl. by destruct (_ || _).
Qed.

(** The theorem at a session that may fire: the first call goes out, a
    second one is dropped, and a call on a recorded cell is dropped. *)
Lemma single_request_per_attack_witness :
  let firing := fst (handleFireAt_begin readySession (Fin 3) (Fin 4)) in
  let resolved := setSelfAttackHistory (mkHistory [cellAt 3 4] []) readySession in
  snd (handleFireAt_begin readySession (Fin 3) (Fin 4)) = Some (mkFireCall "g1" (Fin 4) (Fin 3))
  /\ handleFireAt_begin firing (Fin 5) (Fin 5) = (firing, None)
  /\ handleFireAt_begin (pendingAttackEffect firing) (Fin 3) (Fin 4)
     = (pendingAttackEffect firing, None)
  /\ snd (handleFireAt_begin resolved (Fin 3) (Fin 4)) = None
  /\ selfAttackHistory (fst (handleFireAt_begin resolved (Fin 3) (Fin 4)))
     = selfAttackHistory resolved.
Proof.
  intros firing resolved.
  destruct (single_request_per_attack readySession (Fin 3) (Fin 4)) as (_ & _ & Hissued).
  destruct (single_request_per_attack firing (Fin 5) (Fin 5)) as (Hbusy & _ & _).
  destruct (single_request_per_attack resolved (Fin 3) (Fin 4)) as (_ & Hseen & _).
  split; [reflexivity|]. split; [|split].
  - apply Hbusy. right. reflexivity.
  - apply (Hissued firing (mkFireCall "g1" (Fin 4) (Fin 3)) eq_refl (Fin 3) (Fin 4)).
  - split; apply Hseen; reflexivity.
Defined.

(** ** The retry loop *)

Lemma roundedDelay_is_rounding (n : nat) :
  let x2 := 2 * (200 * 3 ^ Z.of_nat n) in          (* 2 * 2^n * x *)
  let d := 2 * 2 ^ Z.of_nat n in                   (* 2 * 2^n *)
  d * roundedDelay n <= x2 + 2 ^ Z.of_nat n < d * (roundedDelay n + 1).
Proof.
  intros x2 d. unfold roundedDelay. fold x2. fold d.
  assert (0 < d) as Hd by (unfold d; pose proof (Z.pow_pos_nonneg 2 (Z.of_nat n)); lia).
  pose proof (Z.mul_div_le (x2 + 2 ^ Z.of_nat n) d Hd).
  pose proof (Z.mul_succ_div_gt (x2 + 2 ^ Z.of_nat n) d Hd). lia.
Qed.

Lemma backoff_bound n : backoff n <= 1500.
Proof. unfold backoff. lia. Qed.

Lemma attemptsMade_app t u : attemptsMade (t ++ u) = (attemptsMade t + attemptsMade u)%nat.
Proof. unfold attemptsMade. by rewrite filter_app, length_app. Qed.

Lemma attemptsMade_retriesFrom first count : attemptsMade (retriesFrom first count) = count.
Proof.
  unfold retriesFrom. revert first.
  induction count as [|count IH]; intros first; [done|].
  simpl. change (attemptsMade (GetState first :: Sleep (backoff first)
                   :: flat_map (fun n => [GetState n; Sleep (backoff n)]) (seq (S first) count))
                 = S count).
  unfold attemptsMade in *. rewrite filter_cons_True by done. simpl.
  rewrite filter_cons_False by done. by rewrite IH.
Qed.

Section FetchLoopFacts.

Variable getState : nat -> option Payload.
Variable cancelledAtTest : nat -> bool.
Variable cancelledAfterFetch : nat -> bool.

Local Abbreviation loop := (fetchLoop getState cancelledAtTest cancelledAfterFetch).
Local Abbreviation ending := (loopEnding getState cancelledAtTest cancelledAfterFetch).

Lemma fetchLoop_shape fuel attempt :
  (attempt < maxAttempts)%nat -> (maxAttempts - attempt <= fuel)%nat ->
  exists count tail,
    loop fuel attempt = Some (retriesFrom attempt count ++ tail)
    /\ (attempt + count < maxAttempts)%nat
    /\ (forall n, (attempt <= n < attempt + count)%nat ->
                  getState n = None /\ cancelledAtTest n = false)
    /\ ending (attempt + count)%nat tail.
Proof.
  revert attempt.
  induction fuel as [|fuel IH]; intros attempt Hlt Hfuel; [unfold maxAttempts in *; lia|].
  simpl. apply Nat.ltb_lt in Hlt as Hltb. rewrite Hltb. simpl.
  destruct (cancelledAtTest attempt) eqn:Ecancel; simpl.
  { exists 0%nat, []. rewrite Nat.add_0_r. repeat split; [lia..|]. by left. }
  destruct (getState attempt) as [state|] eqn:Eget.
  { exists 0%nat,
      (if cancelledAfterFetch attempt then [GetState attempt]
       else [GetState attempt; ApplyState state; SetGameReady]).
    rewrite Nat.add_0_r. split; [by destruct (cancelledAfterFetch attempt)|].
    repeat split; [lia..|]. right; left. split; [done|]. by exists state. }
  destruct (Nat.eqb attempt 7) eqn:Elast.
  { apply Nat.eqb_eq in Elast. exists 0%nat, [GetState attempt; WarnGiveUp].
    rewrite Nat.add_0_r. repeat split; [lia..|]. right; right. by subst attempt. }
  apply Nat.eqb_neq in Elast.
  destruct (IH (S attempt)) as (count & tail & -> & Hk & Hfail & Hend);
    [unfold maxAttempts in *; lia..|].
  exists (S count), tail. replace (attempt + S count)%nat with (S attempt + count)%nat by lia.
  split; [done|]. split; [done|]. split; [|done].
  intros n Hn. destruct (decide (n = attempt)) as [->|]; [done|]. apply Hfail. lia.
Qed.

End FetchLoopFacts.

(** One call of [fetchStateWithRetry]: it terminates within [maxAttempts]
    units of fuel; its trace is a run of failed attempts 0..k-1, each
    followed by a wait of [backoff n = min 1500 (round (200 * 1.5^n))]
    milliseconds, and then ends at attempt [k < 8]: cancelled, or with the
    first request that resolves, or with the eighth failure, after which
    nothing follows. *)
Lemma fetchStateWithRetry_one_call
    (getState : nat -> option Payload) (cancelledAtTest cancelledAfterFetch : nat -> bool) :
  exists trace k tail,
    fetchStateWithRetry getState cancelledAtTest cancelledAfterFetch maxAttempts = Some trace
    /\ trace = retriesFrom 0 k ++ tail
    /\ (k < 8)%nat
    /\ (forall n, (n < k)%nat -> getState n = None)
    /\ loopEnding getState cancelledAtTest cancelledAfterFetch k tail
    /\ (attemptsMade trace <= 8)%nat
    /\ (forall ms, In (Sleep ms) trace ->
          ms <= 1500 /\ exists n, (n < k)%nat /\ ms = Z.min 1500 (roundedDelay n))
    /\ map backoff (seq 0 7) = [200; 300; 450; 675; 1013; 1500; 1500].
Proof.
  destruct (fetchLoop_shape getState cancelledAtTest cancelledAfterFetch maxAttempts 0)
    as (k & tail & Hrun & Hk & Hfail & Hend); [unfold maxAttempts; lia..|].
  simpl in Hk, Hend.
  exists (retriesFrom 0 k ++ tail), k, tail.
  split; [done|]. split; [done|]. split; [done|].
  split; [intros n Hn; apply Hfail; lia|]. split; [done|].
  split; [|split; [|reflexivity]].
  - rewrite attemptsMade_app, attemptsMade_retriesFrom.
    assert (attemptsMade tail <= 1)%nat; [|unfold maxAttempts in *; lia].
    destruct Hend as [[_ ->]|[(_ & state & _ & ->)|(_ & _ & _ & ->)]];
      try destruct (cancelledAfterFetch k); vm_compute; lia.
  - intros ms H.
    assert (exists n, (n < k)%nat /\ ms = backoff n) as (n & Hn & ->).
    { apply in_app_or in H as [H|H].
      - unfold retriesFrom in H. apply in_flat_map in H as (n & Hn%in_seq & Hin).
        exists n. split; [lia|]. simpl in Hin. by destruct Hin as [[=]|[[= <-]|[]]].
      - destruct Hend as [[_ ->]|[(_ & state & _ & ->)|(_ & _ & _ & ->)]];
          try destruct (cancelledAfterFetch k); simpl in H;
          repeat (destruct H as [H|H]; [discriminate H|]); destruct H. }
    split; [apply backoff_bound|]. by exists n.
Qed.

Lemma initialFetchEffect_guarded fuel run :
  run_authReady run = false \/ run_displayGameId run = "" \/ run_displayGameId run = "pending"
  \/ run_gameReady run = true ->
  exists trace, initialFetchEffect fuel run = Some trace /\ attemptsMade trace = 0%nat
                /\ forall ms, ~ In (Sleep ms) trace.
Proof.
  intros Hguard. unfold initialFetchEffect.
  destruct (negb (run_authReady run) || String.eqb (run_displayGameId run) ""
            || String.eqb (run_displayGameId run) "pending") eqn:E.
  - destruct (run_gameReady run); eexists; (split; [done|]); (split; [done|]);
      intros ms H; simpl in H; by repeat destruct H as [H|H].
  - apply orb_false_elim in E as [[Ha%negb_false_iff Hid%String.eqb_neq]%orb_false_elim
                                    Hp%String.eqb_neq].
    destruct Hguard as [H|[H|[H|H]]]; try congruence.
    rewrite H. exists []. split; [done|]. split; [done|]. by intros ms H'.
Qed.

Lemma initialFetchEffect_started fuel run :
  run_authReady run = true -> run_displayGameId run <> "" ->
  run_displayGameId run <> "pending" -> run_gameReady run = false ->
  initialFetchEffect fuel run
  = fetchStateWithRetry (run_getState run) (run_cancelledAtTest run)
      (run_cancelledAfterFetch run) fuel.
Proof.
  unfold initialFetchEffect. intros -> Hid%String.eqb_neq Hp%String.eqb_neq ->.
  by rewrite Hid, Hp.
Qed.

Lemma initialFetchEffect_cases run :
  (run_authReady run = false \/ run_displayGameId run = "" \/ run_displayGameId run = "pending"
   \/ run_gameReady run = true)
  \/ (run_authReady run = true /\ run_displayGameId run <> ""
      /\ run_displayGameId run <> "pending" /\ run_gameReady run = false).
Proof.
  destruct (run_authReady run); [|by left; left].
  destruct (String.eqb (run_displayGameId run) "") eqn:E1;
    [apply String.eqb_eq in E1; by left; right; left|apply String.eqb_neq in E1].
  destruct (String.eqb (run_displayGameId run) "pending") eqn:E2;
    [apply String.eqb_eq in E2; by left; right; right; left|apply String.eqb_neq in E2].
  destruct (run_gameReady run); [by left; right; right; right|by right].
Qed.

Lemma initialFetchEffect_bounded run :
  exists trace,
    initialFetchEffect maxAttempts run = Some trace
    /\ (attemptsMade trace <= 8)%nat
    /\ (forall ms, In (Sleep ms) trace ->
          ms <= 1500 /\ exists n, (n < 7)%nat /\ ms = Z.min 1500 (roundedDelay n)).
Proof.
  destruct (initialFetchEffect_cases run) as [Hguard|(Ha & Hid & Hp & Hr)].
  - destruct (initialFetchEffect_guarded maxAttempts run Hguard) as (trace & -> & Hn & Hs).
    exists trace. split; [done|]. split; [lia|]. intros ms H. by apply Hs in H.
  - rewrite (initialFetchEffect_started maxAttempts run Ha Hid Hp Hr).
    destruct (fetchStateWithRetry_one_call (run_getState run) (run_cancelledAtTest run)
                (run_cancelledAfterFetch run))
      as (trace & k & tail & -> & _ & Hk & _ & _ & Hn & Hs & _).
    exists trace. split; [done|]. split; [done|].
    intros ms H. destruct (Hs ms H) as (Hms & n & Hlt & ->).
    split; [done|]. exists n. split; [lia|done].
Qed.

(** C8 (as amended). Every run of the effect that starts the initial fetch
    terminates and makes at most eight requests; it makes none while the
    session is not authenticated, the game id is empty or ['pending'], or
    the game is ready; otherwise its trace is a run of failed attempts
    0..k-1, each followed by a wait of [min 1500 (round (200 * 1.5^n))]
    milliseconds, hence of at most 1500 ms, and it ends at attempt
    [k < 8]: cancelled, or with the first request that resolves, or with
    the eighth failure, after which nothing follows in that run. Over the
    life of the screen the effect runs once per change of its
    dependencies, each run from attempt 0, so any number of runs makes at
    most eight requests per run. *)
Theorem initial_fetch_bounded_per_run (run : EffectRun) (runs : list EffectRun) :
  (exists trace,
      initialFetchEffect maxAttempts run = Some trace
      /\ (attemptsMade trace <= 8)%nat
      /\ (forall ms, In (Sleep ms) trace ->
            ms <= 1500 /\ exists n, (n < 7)%nat /\ ms = Z.min 1500 (roundedDelay n))
      /\ (run_authReady run = false \/ run_displayGameId run = ""
          \/ run_displayGameId run = "pending" \/ run_gameReady run = true ->
          attemptsMade trace = 0%nat)
      /\ (run_authReady run = true -> run_displayGameId run <> "" ->
          run_displayGameId run <> "pending" -> run_gameReady run = false ->
          exists k tail,
            trace = retriesFrom 0 k ++ tail
            /\ (k < 8)%nat
            /\ (forall n, (n < k)%nat -> run_getState run n = None)
            /\ loopEnding (run_getState run) (run_cancelledAtTest run)
                 (run_cancelledAfterFetch run) k tail))
  /\ (exists traces,
        effectRuns maxAttempts runs = Some traces
        /\ length traces = length runs
        /\ (requestsMade traces <= 8 * length runs)%nat)
  /\ map backoff (seq 0 7) = [200; 300; 450; 675; 1013; 1500; 1500].
Proof.
  split; [|split; [|reflexivity]].
  - destruct (initialFetchEffect_bounded run) as (trace & Hrun & Hn & Hs).
    exists trace. split; [done|]. split; [done|]. split; [done|]. split.
    + intros Hguard.
      destruct (initialFetchEffect_guarded maxAttempts run Hguard) as (trace' & Hrun' & H0 & _).
      congruence.
    + intros Ha Hid Hp Hr.
      rewrite (initialFetchEffect_started maxAttempts run Ha Hid Hp Hr) in Hrun.
      destruct (fetchStateWithRetry_one_call (run_getState run) (run_cancelledAtTest run)
                  (run_cancelledAfterFetch run))
        as (trace' & k & tail & Hrun' & -> & Hk & Hfail & Hend & _).
      exists k, tail. split; [congruence|done].
  - induction runs as [|first rest (traces & IHrun & IHlen & IHn)].
    + exists []. by repeat split.
    + destruct (initialFetchEffect_bounded first) as (trace & Hrun & Hn & _).
      exists (trace :: traces). simpl. rewrite Hrun, IHrun.
      split; [done|]. split; [by rewrite IHlen|]. lia.
Qed.

(** C8 (as stated) fails for the initial fetch as a whole. A dependency of
    the effect changes while the fourth attempt is being prepared (a status
    message arrived on the socket and [applyGameStateUpdate] was created
    anew): the loop that has made three requests is cancelled and a new one
    starts at attempt 0, so with every request failing eleven requests are
    made. And when a dependency changes after the eighth failure of a run,
    a further run follows the warning with eight more requests. *)
Lemma initial_fetch_restarts :
  (exists traces,
      effectRuns maxAttempts [failingRun (Some 3%nat); failingRun None] = Some traces
      /\ requestsMade traces = 11%nat)
  /\ effectRuns maxAttempts [failingRun None; failingRun None]
     = Some [retriesFrom 0 7 ++ [GetState 7%nat; WarnGiveUp];
             retriesFrom 0 7 ++ [GetState 7%nat; WarnGiveUp]]
  /\ requestsMade [retriesFrom 0 7 ++ [GetState 7%nat; WarnGiveUp];
                   retriesFrom 0 7 ++ [GetState 7%nat; WarnGiveUp]] = 16%nat.
Proof.
  split; [|split; reflexivity]. eexists. split; reflexivity.
Qed.

(** ** Identity resolution *)

Lemma list_find_head {A} (P : A -> Prop) `{forall x, Decision (P x)} (x : A) (l : list A) :
  P x -> list_find P (x :: l) = Some (0%nat, x).
Proof. intros HP. cbn [list_find]. by rewrite decide_True. Qed.

Lemma list_find_tail {A} (P : A -> Prop) `{forall x, Decision (P x)} (x : A) (l : list A) :
  ~ P x -> list_find P (x :: l) = prod_map S id <$> list_find P l.
Proof. intros HP. cbn [list_find]. by rewrite decide_False. Qed.

Section IdentityFacts.

Variable getUserIdFromToken : string -> option string.
Variables selfToken selfUserId : option string.

Local Abbreviation step := (tokenStep getUserIdFromToken selfToken selfUserId).
Local Abbreviation hit :=
  (fun c : string => matchesSelf getUserIdFromToken selfToken selfUserId c = true).

Lemma tokenStep_found tokens found idx :
  found <> -1 -> fst (fold_left step tokens (found, idx)) = found.
Proof.
  revert idx. induction tokens as [|c tokens IH]; intros idx Hf; [done|].
  simpl. destruct (found =? -1) eqn:E; [lia|]. simpl. by apply IH.
Qed.

Lemma tokenStep_search tokens idx :
  0 <= idx ->
  fst (fold_left step tokens (-1, idx))
  = match list_find hit tokens with
    | Some (i, _) => idx + Z.of_nat i
    | None => -1
    end.
Proof.
  revert idx. induction tokens as [|c tokens IH]; intros idx Hidx; [done|].
  cbn [fold_left].
  assert (step (-1, idx) c
          = if matchesSelf getUserIdFromToken selfToken selfUserId c
            then (idx, idx + 1) else (-1, idx + 1)) as ->.
  { unfold tokenStep, matchesSelf. simpl.
    by destruct (tokenMatches selfToken c), (subjectMatches _ selfUserId c). }
  destruct (matchesSelf getUserIdFromToken selfToken selfUserId c) eqn:E.
  - rewrite list_find_head by done. rewrite tokenStep_found by lia. lia.
  - rewrite list_find_tail by (rewrite E; done). rewrite IH by lia.
    destruct (list_find _ tokens) as [[i x]|]; simpl; lia.
Qed.

Lemma no_credentials_no_match tokens :
  truthyStr selfToken = false -> truthyStr selfUserId = false ->
  list_find hit tokens = None.
Proof.
  intros Ht Hu. apply list_find_None, Forall_forall. intros c _.
  unfold matchesSelf, tokenMatches, subjectMatches, truthyStr in *.
  destruct selfToken as [t|], selfUserId as [u|]; simpl in *;
    rewrite ?Ht, ?Hu; simpl; congruence.
Qed.

Lemma identityEffect_first_match tokens playerIndex :
  identityEffect getUserIdFromToken tokens selfToken selfUserId playerIndex
  = match list_find hit tokens with
    | Some (i, _) => Some (Z.of_nat i + 1)
    | None => playerIndex
    end.
Proof.
  unfold identityEffect. destruct tokens as [|c tokens]; [done|].
  destruct (negb (truthyStr selfToken) && negb (truthyStr selfUserId)) eqn:E.
  - apply andb_prop in E as [Et%negb_true_iff Eu%negb_true_iff].
    by rewrite no_credentials_no_match.
  - unfold findSelfIndex. rewrite tokenStep_search by lia.
    destruct (list_find _ (c :: tokens)) as [[i x]|]; [|done].
    rewrite (proj2 (Z.eqb_neq (0 + Z.of_nat i) (-1))) by lia. by simpl.
Qed.

End IdentityFacts.

Lemma unresolved_cannot_act s p :
  resolvedSelfIndexOf s p = None ->
  isCurrentTurnSelf (applyGameStateUpdate (Some p) s) = false
  /\ canFire (applyGameStateUpdate (Some p) s) = false.
Proof.
  intros H.
  assert (isCurrentTurnSelf (applyGameStateUpdate (Some p) s) = false) as Hturn.
  { simpl. unfold isSelfTurnNow. rewrite H. by destruct (candidateTurnOf p). }
  split; [done|]. unfold canFire. rewrite Hturn.
  by destruct (isConfirmed _), (hasBothBoardsSubmitted _).
Qed.

(** C9 (as amended). The identity effect makes one pass over the token
    list and binds [playerIndex] to the position (0-based) plus one of the
    first token that equals the local token or whose subject equals the
    local subject, whichever test succeeds first; when no token passes
    either test (or the list is empty, or neither credential is known)
    [playerIndex] is left as it is. When neither [playerIndex] nor the
    uuids of a snapshot resolve the local slot, an update sets the
    turn-is-self flag to false and the fire gate is closed. The effect and
    the update are total functions: a token that cannot be decoded is
    skipped. *)
Theorem identity_first_match_either_test
    (getUserIdFromToken : string -> option string) (matchTokens : list string)
    (selfToken selfUserId : option string) (playerIndex0 : option Z)
    (s : Session) (p : Payload) :
  identityEffect getUserIdFromToken matchTokens selfToken selfUserId playerIndex0
  = match list_find (fun c => matchesSelf getUserIdFromToken selfToken selfUserId c = true)
            matchTokens with
    | Some (i, _) => Some (Z.of_nat i + 1)
    | None => playerIndex0
    end
  /\ (resolvedSelfIndexOf s p = None ->
      isCurrentTurnSelf (applyGameStateUpdate (Some p) s) = false
      /\ canFire (applyGameStateUpdate (Some p) s) = false).
Proof.
  split; [apply identityEffect_first_match|apply unresolved_cannot_act].
Qed.

(** The theorem at two tokens of one subject, and at a session whose slot
    nothing resolves. *)
Lemma identity_first_match_either_test_witness :
  identityEffect sameSubjectDecoder ["tokenA"; "tokenB"] (Some "tokenB") (Some "u1") None
  = Some 1
  /\ canFire (applyGameStateUpdate (Some openingSnapshot) unresolvedSession) = false.
Proof.
  destruct (identity_first_match_either_test sameSubjectDecoder ["tokenA"; "tokenB"]
              (Some "tokenB") (Some "u1") None unresolvedSession openingSnapshot)
    as [Hid Hgate].
  split.
  - rewrite Hid. reflexivity.
  - apply Hgate. reflexivity.
Defined.

(** C9 (as stated) fails twice. The second token is the local token and
    the first one is another token of the same subject: the rule "first
    exact match, else first subject match" gives slot 2, the effect binds
    slot 1. And with no token matching by either test, [playerIndex] stays
    unknown, yet a snapshot whose slot-1 uuid is the local subject resolves
    the slot and opens the fire gate. *)
Lemma subject_match_precedes_exact_match :
  exactThenSubjectIndex sameSubjectDecoder ["tokenA"; "tokenB"] (Some "tokenB") (Some "u1")
  = Some 2
  /\ identityEffect sameSubjectDecoder ["tokenA"; "tokenB"] (Some "tokenB") (Some "u1") None
     = Some 1
  /\ identityEffect failingDecoder ["tokenA"; "tokenB"] (Some "tokenC") (Some "u1") None = None
  /\ playerIndex (applyGameStateUpdate (Some openingSnapshot) slotlessSession) = None
  /\ canFire (applyGameStateUpdate (Some openingSnapshot) slotlessSession) = true.
Proof. repeat split; reflexivity. Qed.

(** ** The board matrix *)

Section BoardFacts.

Variable placed : list PlacedShape.

Lemma emptyBoard_invariant : boardInvariant placed emptyBoard.
Proof.
  split; [done|]. apply Forall_replicate. split; [done|].
  apply Forall_replicate. by left.
Qed.

Lemma writeCell_invariant ps board cell :
  ps ∈ placed -> boardInvariant placed board ->
  boardInvariant placed (writeCell (shapeLabel (ps_id ps)) board cell).
Proof.
  intros Hps [Hlen Hrows]. unfold writeCell. destruct (inGrid cell); [|done].
  cbv iota. split; [by rewrite length_alter|].
  apply Forall_alter; [done|]. intros cells _ [Hcells Hentries].
  split; [by rewrite length_insert|].
  apply Forall_insert; [done|]. right. by exists ps.
Qed.

Lemma writeCells_invariant ps cells board :
  ps ∈ placed -> boardInvariant placed board ->
  boardInvariant placed (fold_left (writeCell (shapeLabel (ps_id ps))) cells board).
Proof.
  intros Hps. revert board. induction cells as [|cell cells IH]; intros board Hb; [done|].
  simpl. by apply IH, writeCell_invariant.
Qed.

Lemma writeShapes_invariant (l : list PlacedShape) board :
  (forall ps, ps ∈ l -> ps ∈ placed) -> boardInvariant placed board ->
  boardInvariant placed
    (fold_left
       (fun board shape =>
          fold_left (writeCell (shapeLabel (ps_id shape))) (ps_cells shape) board)
       l board).
Proof.
  revert board. induction l as [|ps l IH]; intros board Hsub Hb; [done|].
  simpl. apply IH.
  - intros ps' Hin. apply Hsub. by right.
  - apply writeCells_invariant; [|done]. apply Hsub. by left.
Qed.

End BoardFacts.

Lemma writeCells_clip label cells board :
  fold_left (writeCell label) cells board
  = fold_left (writeCell label) (filter (fun cell => inGrid cell = true) cells) board.
Proof.
  revert board. induction cells as [|cell cells IH]; intros board; [done|].
  destruct (inGrid cell) eqn:E.
  - rewrite filter_cons_True by done. simpl. apply IH.
  - rewrite filter_cons_False by (rewrite E; done). simpl.
    unfold writeCell at 2. rewrite E. apply IH.
Qed.

Lemma shapeLabel_catalog shape : shape ∈ shapes -> shapeLabel (shape_id shape) = shape_name shape.
Proof.
  unfold shapes. rewrite !elem_of_cons, elem_of_nil.
  intros [->|[->|[->|[->|[->|[]]]]]]; by vm_compute.
Qed.

(** On integer cells: the matrix has ten rows of ten entries, every entry
    is [null] or the label of a placed shape, and cells outside rows and
    columns 0..9 change nothing. *)
Lemma buildBoardMatrix_on_integers (placed : list PlacedShape) :
  length (buildBoardMatrix placed) = 10%nat
  /\ Forall (fun cells => length cells = 10%nat /\ Forall (boardEntryOk placed) cells)
            (buildBoardMatrix placed)
  /\ buildBoardMatrix placed = buildBoardMatrix (map clipToGrid placed)
  /\ Forall (fun shape => shapeLabel (shape_id shape) = shape_name shape) shapes.
Proof.
  assert (boardInvariant placed (buildBoardMatrix placed)) as [Hlen Hrows].
  { apply writeShapes_invariant; [done|apply emptyBoard_invariant]. }
  split; [done|]. split; [done|]. split.
  - clear Hlen Hrows. unfold buildBoardMatrix. generalize emptyBoard.
    induction placed as [|ps l IH]; intros board; [done|].
    simpl. rewrite <- writeCells_clip. apply IH.
  - apply Forall_forall. intros shape Hin. by apply shapeLabel_catalog.
Qed.

(** ** Placement *)

Lemma sameGridCell_eq a b : sameGridCell a b = true <-> a = b.
Proof.
  unfold sameGridCell. destruct a as [r1 c1], b as [r2 c2]. simpl.
  rewrite andb_true_iff, !Z.eqb_eq. split; [by intros [-> ->]|by intros [= -> ->]].
Qed.

Lemma existsb_false_Forall {A} (f : A -> bool) (l : list A) :
  existsb f l = false <-> Forall (fun x => f x = false) l.
Proof.
  induction l as [|x l IH]; simpl.
  - split; [constructor|done].
  - rewrite orb_false_iff, IH. split; [intros [? ?]; by constructor|by inversion 1].
Qed.

Lemma overlapsPlaced_false cells placed :
  overlapsPlaced cells placed = false
  <-> forall ps, ps ∈ placed -> cellsApart cells (ps_cells ps).
Proof.
  unfold overlapsPlaced, cellsApart. rewrite existsb_false_Forall, Forall_forall.
  split.
  - intros H ps Hps cell Hcell Hin.
    specialize (H cell Hcell). rewrite existsb_false_Forall, Forall_forall in H.
    specialize (H ps Hps). rewrite existsb_false_Forall, Forall_forall in H.
    specialize (H cell Hin). by rewrite (proj2 (sameGridCell_eq cell cell)) in H.
  - intros H cell Hcell. rewrite existsb_false_Forall, Forall_forall. intros ps Hps.
    rewrite existsb_false_Forall, Forall_forall. intros other Hother.
    destruct (sameGridCell other cell) eqn:E; [|done].
    apply sameGridCell_eq in E as ->. by destruct (H ps Hps cell Hcell).
Qed.

Lemma cellsApart_sym a b : cellsApart a b -> cellsApart b a.
Proof. intros H cell Hb Ha. by apply (H cell Ha). Qed.

Lemma placementInvariant_initial : placementInvariant initialPlacement.
Proof.
  unfold placementInvariant, initialPlacement; simpl.
  split; [done|]. split; [constructor|].
  split; [intros ps H; by apply elem_of_nil in H|].
  split; [intros ps H; by apply elem_of_nil in H|].
  split; [intros ps1 ps2 H; by apply elem_of_nil in H|].
  split; by intros.
Qed.

(** [resetDrag] keeps the invariant for any placed list that satisfies its
    placed part. *)
Lemma placementInvariant_reset placed used :
  used = list_to_set (ps_id <$> placed) ->
  NoDup (ps_id <$> placed) ->
  (forall ps, ps ∈ placed -> ps_id ps ∈ (shape_id <$> shapes)) ->
  (forall ps, ps ∈ placed -> forallb inGrid (ps_cells ps) = true) ->
  (forall ps1 ps2, ps1 ∈ placed -> ps2 ∈ placed ->
     ps_id ps1 <> ps_id ps2 -> cellsApart (ps_cells ps1) (ps_cells ps2)) ->
  placementInvariant (resetDrag placed used).
Proof. intros. unfold placementInvariant, resetDrag; simpl. by repeat split. Qed.

Lemma placementInvariant_reset_same p :
  placementInvariant p -> placementInvariant (resetDrag (placedShapesLeft p) (usedShapeIds p)).
Proof. intros (H1 & H2 & H3 & H4 & H5 & _). by apply placementInvariant_reset. Qed.

Lemma placementInvariant_reset_remove id p :
  placementInvariant p ->
  placementInvariant
    (resetDrag (removePlaced id (placedShapesLeft p)) (usedShapeIds p ∖ {[id]})).
Proof.
  intros (H1 & H2 & H3 & H4 & H5 & _). unfold removePlaced.
  apply placementInvariant_reset.
  - rewrite H1. apply set_eq. intros x.
    rewrite elem_of_difference, !elem_of_list_to_set, !list_elem_of_fmap, elem_of_singleton.
    split.
    + intros [(ps & -> & Hps) Hne]. exists ps. split; [done|].
      by apply list_elem_of_filter.
    + intros (ps & -> & [Hne Hps]%list_elem_of_filter). split; [|done]. by exists ps.
  - clear -H2. induction (placedShapesLeft p) as [|ps l IH]; [constructor|].
    rewrite fmap_cons in H2. apply NoDup_cons in H2 as [Hnotin Hnd].
    destruct (decide (ps_id ps ≠ id)).
    + rewrite filter_cons_True by done. rewrite fmap_cons. apply NoDup_cons. split; [|by apply IH].
      intros (ps' & Heq & [_ Hin]%list_elem_of_filter)%list_elem_of_fmap.
      apply Hnotin. apply list_elem_of_fmap. by exists ps'.
    + rewrite filter_cons_False by done. by apply IH.
  - intros ps [_ Hps]%list_elem_of_filter. by apply H3.
  - intros ps [_ Hps]%list_elem_of_filter. by apply H4.
  - intros ps1 ps2 [_ Hps1]%list_elem_of_filter [_ Hps2]%list_elem_of_filter. by apply H5.
Qed.

Lemma placementInvariant_startDrag isConfirmed shape at_ p :
  shape ∈ paletteShapes p -> placementInvariant p ->
  placementInvariant (startDrag isConfirmed shape at_ p).
Proof.
  intros [Hunused Hshape]%list_elem_of_filter (H1 & H2 & H3 & H4 & H5 & H6 & H7).
  unfold startDrag. destruct isConfirmed; [done|].
  unfold placementInvariant; simpl.
  do 6 (split; [done|]). by intros ? [= <-] _.
Qed.

Lemma placementInvariant_moveDrag isConfirmed at_ p :
  placementInvariant p -> placementInvariant (moveDrag isConfirmed at_ p).
Proof.
  intros Hinv. unfold moveDrag. destruct isConfirmed; [done|].
  destruct at_ as [pt|].
  - destruct Hinv as (H1 & H2 & H3 & H4 & H5 & H6 & H7).
    unfold placementInvariant; simpl.
    do 5 (split; [done|]). split; [|done].
    intros cells. destruct (draggingShape p) as [shape|]; [|done].
    destruct (overGrid pt) as [[row0 col0]|]; [|done].
    intros [= <- Hvalid]. apply andb_prop in Hvalid as [? Hclear%negb_true_iff].
    split; [done|]. by apply overlapsPlaced_false.
  - destruct (draggingShape p) as [shape|]; [|by apply placementInvariant_reset_same].
    destruct (dragSource p) as [[]|];
      [by apply placementInvariant_reset_same
      |by apply placementInvariant_reset_remove
      |by apply placementInvariant_reset_same].
Qed.

Lemma map_as_fmap {A B} (f : A -> B) (l : list A) : map f l = f <$> l.
Proof. induction l as [|x l IH]; [done|]. simpl. by rewrite IH. Qed.

Lemma placementInvariant_reset_add shape cells p :
  placementInvariant p ->
  shape ∈ shapes -> shape_id shape ∉ usedShapeIds p ->
  forallb inGrid cells = true ->
  (forall ps, ps ∈ placedShapesLeft p -> cellsApart cells (ps_cells ps)) ->
  placementInvariant
    (resetDrag (placedShapesLeft p ++ [mkPlaced (shape_id shape) cells])
               (usedShapeIds p ∪ {[shape_id shape]})).
Proof.
  intros (H1 & H2 & H3 & H4 & H5 & _) Hshape Hunused Hgrid Hclear.
  assert (forall ps, ps ∈ placedShapesLeft p -> ps_id ps <> shape_id shape) as Hfresh.
  { intros ps Hps Heq. apply Hunused. rewrite H1, elem_of_list_to_set, list_elem_of_fmap.
    by exists ps. }
  apply placementInvariant_reset.
  - rewrite fmap_app, list_to_set_app_L, <- H1. simpl.
    by rewrite (right_id_L ∅ (∪)).
  - rewrite fmap_app. apply NoDup_app. split; [done|]. split; [|apply NoDup_singleton].
    intros x (ps & -> & Hps)%list_elem_of_fmap Hin%list_elem_of_singleton.
    by apply (Hfresh ps Hps).
  - intros ps [Hps|Hnew%list_elem_of_singleton]%elem_of_app; [by apply H3|]. subst ps.
    cbn [ps_id]. apply list_elem_of_fmap. by exists shape.
  - intros ps [Hps|Hnew%list_elem_of_singleton]%elem_of_app; [by apply H4|by subst ps].
  - intros ps1 ps2 [Hps1|Hnew1%list_elem_of_singleton]%elem_of_app
      [Hps2|Hnew2%list_elem_of_singleton]%elem_of_app Hne; subst; simpl in *.
    + by apply H5.
    + by apply cellsApart_sym, Hclear.
    + by apply Hclear.
    + done.
Qed.

Lemma placementInvariant_reset_move lifted cells p :
  placementInvariant p ->
  forallb inGrid cells = true ->
  (forall ps, ps ∈ placedShapesLeft p -> cellsApart cells (ps_cells ps)) ->
  placementInvariant
    (resetDrag
       (map (fun ps => if String.eqb (ps_id ps) lifted then mkPlaced (ps_id ps) cells else ps)
            (placedShapesLeft p))
       (usedShapeIds p)).
Proof.
  intros (H1 & H2 & H3 & H4 & H5 & _) Hgrid Hclear.
  set (move := fun ps => if String.eqb (ps_id ps) lifted then mkPlaced (ps_id ps) cells else ps).
  assert (forall ps, ps_id (move ps) = ps_id ps) as Hid.
  { intros ps. unfold move. by destruct (String.eqb (ps_id ps) lifted). }
  assert (ps_id <$> (move <$> placedShapesLeft p) = ps_id <$> placedShapesLeft p) as Hids.
  { rewrite <- list_fmap_compose. apply list_fmap_ext. intros i ps _. apply Hid. }
  rewrite map_as_fmap. apply placementInvariant_reset.
  - by rewrite Hids.
  - by rewrite Hids.
  - intros ps' (ps & -> & Hps)%list_elem_of_fmap. rewrite Hid. by apply H3.
  - intros ps' (ps & -> & Hps)%list_elem_of_fmap. unfold move.
    destruct (String.eqb (ps_id ps) lifted); [done|by apply H4].
  - intros ps1' ps2' (ps1 & -> & Hps1)%list_elem_of_fmap (ps2 & -> & Hps2)%list_elem_of_fmap.
    rewrite !Hid. intros Hne. unfold move.
    destruct (String.eqb (ps_id ps1) lifted) eqn:E1, (String.eqb (ps_id ps2) lifted) eqn:E2;
      simpl.
    + apply String.eqb_eq in E1, E2. congruence.
    + by apply Hclear.
    + by apply cellsApart_sym, Hclear.
    + by apply H5.
Qed.

Lemma placementInvariant_endDrag isConfirmed p :
  placementInvariant p -> placementInvariant (endDrag isConfirmed p).
Proof.
  intros Hinv. unfold endDrag.
  destruct isConfirmed; [by apply placementInvariant_reset_same|].
  pose proof Hinv as (_ & _ & _ & _ & _ & H6 & H7).
  destruct (draggingShape p) as [shape|] eqn:Edrag.
  - destruct (hoverPreview p) as [[cells [|]]|] eqn:Ehover.
    + destruct (H6 cells eq_refl) as [Hgrid Hclear].
      destruct (dragSource p) as [[]|] eqn:Esrc.
      * destruct (H7 shape eq_refl eq_refl) as [Hshape Hunused].
        by apply placementInvariant_reset_add.
      * destruct (liftedPrevCellsRef p) as [lifted|];
          [|by apply placementInvariant_reset_same].
        destruct (String.eqb (ps_id lifted) ""); [by apply placementInvariant_reset_same|].
        by apply placementInvariant_reset_move.
      * by apply placementInvariant_reset_same.
    + destruct (withinPalette p); [|by apply placementInvariant_reset_same].
      destruct (dragSource p) as [[]|];
        [by apply placementInvariant_reset_same
        |by apply placementInvariant_reset_remove
        |by apply placementInvariant_reset_same].
    + destruct (withinPalette p); [|by apply placementInvariant_reset_same].
      destruct (dragSource p) as [[]|];
        [by apply placementInvariant_reset_same
        |by apply placementInvariant_reset_remove
        |by apply placementInvariant_reset_same].
  - destruct (hoverPreview p) as [[cells [|]]|]; by apply placementInvariant_reset_same.
Qed.

Lemma placementInvariant_placedDragStart isConfirmed id p :
  placementInvariant p -> placementInvariant (onPlacedDragStart isConfirmed id p).
Proof.
  intros Hinv. unfold onPlacedDragStart. destruct isConfirmed; [done|].
  destruct (find _ (placedShapesLeft p)) as [ps|]; [|done].
  destruct (find _ shapes) as [shape|]; [|done].
  destruct Hinv as (H1 & H2 & H3 & H4 & H5 & H6 & H7).
  unfold placementInvariant; simpl. do 6 (split; [done|]). by intros.
Qed.

Lemma placementReachable_invariant p : placementReachable p -> placementInvariant p.
Proof.
  induction 1 as [|p p' _ IH Hstep]; [apply placementInvariant_initial|].
  destruct Hstep.
  - by apply placementInvariant_startDrag.
  - by apply placementInvariant_moveDrag.
  - by apply placementInvariant_endDrag.
  - by apply placementInvariant_placedDragStart.
Qed.

Lemma placedCount_is_usedCount p :
  placementInvariant p -> size (usedShapeIds p) = length (placedShapesLeft p).
Proof.
  intros (H1 & H2 & _). rewrite H1, size_list_to_set by done. by rewrite length_fmap.
Qed.

Lemma pressConfirm_submitted isConfirmed isSubmittingBoard gameId token p request :
  pressConfirm isConfirmed isSubmittingBoard gameId token p = ConfirmSubmitted request ->
  size (usedShapeIds p) = length shapes
  /\ submit_board request = buildBoardMatrix (placedShapesLeft p).
Proof.
  unfold pressConfirm, confirmButtonShown.
  destruct isConfirmed; [done|]. simpl.
  destruct (Nat.eqb _ _) eqn:E; [|done]. apply Nat.eqb_eq in E.
  unfold handleConfirmBoard_begin. simpl.
  destruct isSubmittingBoard; [done|].
  destruct (placedShapesLeft p); [done|].
  destruct (_ || _); [done|].
  destruct token as [t|]; [|done]. destruct (String.eqb t ""); [done|].
  by intros [= <-].
Qed.

(** C7. In every placement state the screen can reach, a press on
    "Confirm Ships" sends the board only if the placed ids are exactly the
    five catalog ids, each once, every placed cell lies on the grid and no
    two placed instances share a cell; the board sent is the matrix of
    that placement. Whenever the number of placed shapes is not five (four
    of five, for one) there is no confirm button and nothing is sent. *)
Theorem board_sent_only_when_complete (p : Placement) :
  placementReachable p ->
  (forall isConfirmed isSubmittingBoard gameId token request,
     pressConfirm isConfirmed isSubmittingBoard gameId token p = ConfirmSubmitted request ->
     (ps_id <$> placedShapesLeft p) ≡ₚ (shape_id <$> shapes)
     /\ (forall ps, ps ∈ placedShapesLeft p -> forallb inGrid (ps_cells ps) = true)
     /\ (forall (i j : nat) ps1 ps2,
           i <> j -> placedShapesLeft p !! i = Some ps1 -> placedShapesLeft p !! j = Some ps2 ->
           cellsApart (ps_cells ps1) (ps_cells ps2))
     /\ submit_board request = buildBoardMatrix (placedShapesLeft p))
  /\ (length (placedShapesLeft p) <> 5%nat ->
      forall isConfirmed isSubmittingBoard gameId token,
        pressConfirm isConfirmed isSubmittingBoard gameId token p = NoConfirmButton).
Proof.
  intros Hinv%placementReachable_invariant.
  pose proof (placedCount_is_usedCount p Hinv) as Hcount.
  destruct Hinv as (H1 & H2 & H3 & H4 & H5 & _).
  split.
  - intros isConfirmed isSubmittingBoard gameId token request
      [Hsize Hboard]%pressConfirm_submitted.
    split; [|split; [done|split; [|done]]].
    + apply submseteq_length_Permutation.
      * apply NoDup_submseteq; [done|].
        intros id (ps & -> & Hps)%list_elem_of_fmap. by apply H3.
      * rewrite !length_fmap. lia.
    + intros i j ps1 ps2 Hij Hi Hj. apply H5.
      * by eapply list_elem_of_lookup_2.
      * by eapply list_elem_of_lookup_2.
      * intros Heq. apply Hij. eapply (NoDup_lookup _ i j (ps_id ps1)); [done|..].
        -- by rewrite list_lookup_fmap, Hi.
        -- by rewrite list_lookup_fmap, Hj, Heq.
  - intros Hlen isConfirmed isSubmittingBoard gameId token.
    unfold pressConfirm, confirmButtonShown. rewrite Hcount.
    destruct (Nat.eqb_spec (length (placedShapesLeft p)) (length shapes)) as [Heq|_].
    + by destruct Hlen.
    + by rewrite andb_false_r.
Qed.

Lemma dragFromPalette_reachable shape row0 col0 p :
  placementReachable p -> shape ∈ paletteShapes p ->
  placementReachable (dragFromPalette shape row0 col0 p).
Proof.
  intros Hp Hshape. unfold dragFromPalette.
  eapply reach_step; [|apply step_endDrag].
  eapply reach_step; [|apply step_moveDrag].
  eapply reach_step; [exact Hp|by apply step_startDrag].
Qed.

Lemma fourPlaced_reachable : placementReachable fourPlaced.
Proof.
  unfold fourPlaced.
  repeat (apply dragFromPalette_reachable;
          [|apply list_elem_of_filter; split;
            [by vm_compute | unfold shapes; rewrite !elem_of_cons; tauto]]).
  apply reach_initial.
Qed.

Lemma fivePlaced_reachable : placementReachable fivePlaced.
Proof.
  unfold fivePlaced. apply dragFromPalette_reachable; [apply fourPlaced_reachable|].
  apply list_elem_of_filter. split; [by vm_compute|].
  unfold shapes. rewrite !elem_of_cons. tauto.
Qed.

(** The theorem at the placement of all five shapes and at the placement
    of four of them. *)
Lemma board_sent_only_when_complete_witness :
  (ps_id <$> placedShapesLeft fivePlaced) ≡ₚ (shape_id <$> shapes)
  /\ pressConfirm false false "g1" (Some "token") fourPlaced = NoConfirmButton.
Proof.
  destruct (board_sent_only_when_complete fivePlaced fivePlaced_reachable) as [Hsent _].
  destruct (board_sent_only_when_complete fourPlaced fourPlaced_reachable) as [_ Hhidden].
  split.
  - apply (Hsent false false "g1" (Some "token")
             (mkSubmit "g1" (buildBoardMatrix (placedShapesLeft fivePlaced)) "token")).
    reflexivity.
  - apply Hhidden. vm_compute. lia.
Defined.

(** A 2x1 ship that overhangs column 9 and an unknown shape placed off the
    grid: only the cell (0, 9) is written. *)
Example buildBoardMatrix_overhang :
  buildBoardMatrix overhangingPlacement
  = <[0%nat := <[9%nat := Some "2x1"]> (replicate 10 None)]> emptyBoard.
Proof. reflexivity. Qed.

(** * Further properties *)

(** ** The session over time *)

Lemma applyGameStateUpdateFrom_self payload s :
  applyGameStateUpdateFrom s payload s = applyGameStateUpdate payload s.
Proof. by destruct payload. Qed.

Lemma strict_eq_num_sym a b : strict_eq_num a b = strict_eq_num b a.
Proof. destruct a, b; simpl; try done. apply Z.eqb_sym. Qed.

Lemma sameCell_sym a b : sameCell a b = sameCell b a.
Proof. unfold sameCell. by rewrite (strict_eq_num_sym (row b)), (strict_eq_num_sym (col b)). Qed.

Lemma cellsDistinct_snoc cells cell :
  cellsDistinct cells = true -> existsb (sameCell cell) cells = false ->
  cellsDistinct (cells ++ [cell]) = true.
Proof.
  induction cells as [|c cells IH]; [done|]. simpl.
  intros [Hc Hrest]%andb_prop [Hcc Hcells]%orb_false_elim.
  rewrite existsb_app. simpl. rewrite orb_false_r.
  apply negb_true_iff in Hc. rewrite Hc. simpl.
  rewrite sameCell_sym, Hcc. simpl. by apply IH.
Qed.

Lemma mergeCells_distinct base additions :
  cellsDistinct base = true -> cellsDistinct (mergeCells base additions) = true.
Proof.
  revert base. induction additions as [|c adds IH]; intros base Hbase; [done|].
  rewrite mergeCells_cons. apply IH.
  destruct (existsb (sameCell c) base) eqn:E; [done|]. by apply cellsDistinct_snoc.
Qed.

Lemma mergeEvents_distinct index events prev :
  historyDistinct prev = true -> historyDistinct (mergeEvents index events prev) = true.
Proof.
  unfold historyDistinct, mergeEvents. intros [Hh Hm]%andb_prop.
  destruct (collectAttacks index events) as [newHits newMisses].
  destruct newHits, newMisses; cbn [hits misses];
    rewrite ?Hh, ?Hm, ?mergeCells_distinct; done.
Qed.

Lemma setIsCurrentTurnSelf_same s : setIsCurrentTurnSelf (isCurrentTurnSelf s) s = s.
Proof. by destruct s. Qed.

Lemma setAttackFeedback_same s : setAttackFeedback (attackFeedback s) s = s.
Proof. by destruct s. Qed.

Lemma setSelfAttackHistory_same s : setSelfAttackHistory (selfAttackHistory s) s = s.
Proof. by destruct s. Qed.

Lemma responseFeedback_sets response s :
  exists v, responseFeedback response s = setAttackFeedback v s.
Proof.
  unfold responseFeedback.
  destruct (res_message response) as [m|]; [destruct (negb (String.eqb m ""))|];
    try (eexists; reflexivity);
    destruct (is_str (res_result response) "hit"); try (eexists; reflexivity);
    destruct (is_str (res_result response) "miss"); try (eexists; reflexivity);
    exists (attackFeedback s); by rewrite setAttackFeedback_same.
Qed.

Lemma recordOutcome_sets response r c s :
  exists h,
    recordOutcome response r c s = setSelfAttackHistory h s
    /\ (historyDistinct (selfAttackHistory s) = true -> historyDistinct h = true).
Proof.
  unfold recordOutcome, historyDistinct.
  destruct (is_str (res_result response) "hit").
  - destruct (someAt r c (hits (selfAttackHistory s))) eqn:E.
    + exists (selfAttackHistory s). by rewrite setSelfAttackHistory_same.
    + eexists. split; [reflexivity|]. cbn [hits misses].
      intros [Hh Hm]%andb_prop. rewrite Hm, andb_true_r. by apply cellsDistinct_snoc.
  - destruct (is_str (res_result response) "miss").
    + destruct (someAt r c (misses (selfAttackHistory s))) eqn:E.
      * exists (selfAttackHistory s). by rewrite setSelfAttackHistory_same.
      * eexists. split; [reflexivity|]. cbn [hits misses].
        intros [Hh Hm]%andb_prop. rewrite Hh. by apply cellsDistinct_snoc.
    + exists (selfAttackHistory s). by rewrite setSelfAttackHistory_same.
Qed.

Lemma applyNextTurn_sets closure response s :
  exists v, applyNextTurn closure response s = setIsCurrentTurnSelf v s.
Proof.
  assert (exists v,
            match playerIndex closure with
            | Some me =>
                match
                  match res_nextTurn response with
                  | JNum n => n
                  | _ => res_nextTurnNumber response
                  end
                with
                | NaN => s
                | _ => setIsCurrentTurnSelf
                         (strict_eq_num
                            match res_nextTurn response with
                            | JNum n => n
                            | _ => res_nextTurnNumber response
                            end (Fin me)) s
                end
            | None => s
            end = setIsCurrentTurnSelf v s) as [v Hv].
  { destruct (playerIndex closure) as [me|].
    - destruct (match res_nextTurn response with JNum n => n | _ => _ end);
        try (eexists; reflexivity).
      exists (isCurrentTurnSelf s). by rewrite setIsCurrentTurnSelf_same.
    - exists (isCurrentTurnSelf s). by rewrite setIsCurrentTurnSelf_same. }
  unfold applyNextTurn.
  destruct (res_nextTurn response) eqn:E;
    try (exists v; exact Hv).
  - exists (isCurrentTurnSelf s). by rewrite setIsCurrentTurnSelf_same.
  - rewrite Hv.
    destruct (matchesUuid (selfUserId closure) (JStr s0)); [eexists; reflexivity|].
    destruct (matchesUuid (playerOneUuid closure) (JStr s0)); [eexists; reflexivity|].
    destruct (matchesUuid (playerTwoUuid closure) (JStr s0)); eexists; reflexivity.
Qed.

Lemma handleFireAt_settle_sets closure r c outcome s :
  exists turn h feedback,
    handleFireAt_settle closure r c outcome s
    = setIsSubmittingAttack false
        (setIsCurrentTurnSelf turn (setSelfAttackHistory h (setAttackFeedback feedback s)))
    /\ (historyDistinct (selfAttackHistory s) = true -> historyDistinct h = true).
Proof.
  unfold handleFireAt_settle. destruct outcome as [response|error].
  - destruct (responseFeedback_sets response s) as [f ->].
    destruct (recordOutcome_sets response r c (setAttackFeedback f s)) as (h & -> & Hh).
    destruct (applyNextTurn_sets closure response
                (setSelfAttackHistory h (setAttackFeedback f s))) as [v ->].
    by exists v, h, f.
  - exists (isCurrentTurnSelf s), (selfAttackHistory s), (Some (thrownMessage error)).
    split; [by destruct s|done].
Qed.

Lemma sessionInvariant_step s s' :
  sessionStep s s' -> sessionInvariant s -> sessionInvariant s'.
Proof.
  intros Hstep (Hboards & Hself & Hopp). destruct Hstep.
  - destruct payload as [p|]; [|done]. unfold sessionInvariant. simpl.
    split; [|split].
    + destruct (fst (selectSnapshots closure p)) as [a|]; [|done].
      destruct (snd (selectSnapshots closure p)) as [b|].
      * intros [-> _]%andb_prop. done.
      * intros H. rewrite (Hboards H). by destruct (snap_boardSubmitted a).
    + destruct (eventsArrayOf p); [done|].
      destruct (resolvedSelfIndexOf closure p); [|done]. by apply mergeEvents_distinct.
    + destruct (eventsArrayOf p); [done|].
      destruct (resolvedSelfIndexOf closure p); [|done].
      destruct (resolvedOpponentIndexOf closure p); [|done]. by apply mergeEvents_distinct.
  - unfold handleFireAt_begin.
    destruct (negb (canFire s)); [done|]. destruct (_ || _); [done|].
    by destruct (alreadyAttacked s r c).
  - destruct (handleFireAt_settle_sets closure r c outcome s) as (turn & h & f & -> & Hh).
    unfold sessionInvariant. simpl. auto.
  - unfold pendingAttackEffect. destruct (pendingAttack s) as [[r c]|]; [|done].
    by destruct (_ || _).
  - done.
  - destruct response as [p|]; [|done]. unfold sessionInvariant. simpl.
    split; [done|]. split.
    + destruct (eventsArrayOf p); [done|].
      destruct (resolvedSelfIndexOf closure p); [|done]. by apply mergeEvents_distinct.
    + destruct (eventsArrayOf p); [done|].
      destruct (resolvedSelfIndexOf closure p); [|done].
      destruct (resolvedOpponentIndexOf closure p); [|done]. by apply mergeEvents_distinct.
  - done.
  - done.
  - done.
Qed.

Lemma sessionReachable_invariant s : sessionReachable s -> sessionInvariant s.
Proof.
  induction 1 as [gameId opponent|s s' _ IH Hstep]; [done|].
  by eapply sessionInvariant_step.
Qed.

Lemma freshSession_reachable : sessionReachable freshSession.
Proof.
  change freshSession
    with (setPlayerIndex (Some 1) (setSelfUserId (Some "u1") (initialSession "g1" ""))).
  eapply session_step; [|apply step_identity].
  eapply session_step; [|apply step_subject]. apply session_initial.
Qed.

Lemma readySession_reachable : sessionReachable readySession.
Proof.
  unfold readySession. rewrite <- applyGameStateUpdateFrom_self.
  eapply session_step; [apply freshSession_reachable|apply step_update].
Qed.

(** X1. In every state the match screen can reach — through snapshots and
    event batches (applied from any earlier closure), attacks and their
    answers, board submissions and game changes — neither the hit list nor
    the miss list of either attack history holds two cells with the same
    row and column. *)
Theorem histories_never_repeat_a_cell (s : Session) :
  sessionReachable s ->
  cellsDistinct (hits (selfAttackHistory s)) = true
  /\ cellsDistinct (misses (selfAttackHistory s)) = true
  /\ cellsDistinct (hits (opponentAttackHistory s)) = true
  /\ cellsDistinct (misses (opponentAttackHistory s)) = true.
Proof.
  intros (_ & [? ?]%andb_prop & [? ?]%andb_prop)%sessionReachable_invariant. done.
Qed.

Lemma histories_never_repeat_a_cell_witness :
  let twice :=
    applyGameStateUpdate
      (Some (eventsPayload (JNum (Fin 2)) [attackEvent 1 1 1 "hit"; attackEvent 1 1 1 "hit"]))
      readySession in
  hits (selfAttackHistory twice) = [cellAt 1 1]
  /\ cellsDistinct (hits (selfAttackHistory twice)) = true.
Proof.
  intros twice. split; [reflexivity|].
  apply (histories_never_repeat_a_cell twice).
  subst twice. rewrite <- applyGameStateUpdateFrom_self.
  eapply session_step; [apply readySession_reachable|apply step_update].
Defined.

(** X2. In every reachable state the both-boards flag is set only when the
    local board is confirmed, so the first test of [canFire] never decides:
    the gate is open exactly when both boards are in, the turn flag is set
    and no attack is pending or in flight. *)
Theorem canFire_on_reachable_sessions (s : Session) :
  sessionReachable s ->
  (hasBothBoardsSubmitted s = true -> isConfirmed s = true)
  /\ canFire s
     = hasBothBoardsSubmitted s && isCurrentTurnSelf s
       && negb (isSubmittingAttack s || hasPending s).
Proof.
  intros (Hboards & _)%sessionReachable_invariant. split; [done|].
  unfold canFire. destruct (hasBothBoardsSubmitted s).
  - rewrite (Hboards eq_refl). simpl.
    by destruct (isCurrentTurnSelf s), (isSubmittingAttack s || hasPending s).
  - by destruct (isConfirmed s).
Qed.

Lemma canFire_on_reachable_sessions_witness :
  isConfirmed readySession = true /\ canFire readySession = true.
Proof.
  destruct (canFire_on_reachable_sessions readySession readySession_reachable) as [Hc Hgate].
  split; [apply Hc; reflexivity|]. rewrite Hgate. reflexivity.
Defined.

(** ** Whose turn *)

(** X3. When an update names the turn by the number 1 or 2, exactly one of
    the two clients of the game (the one bound to slot 1 and the one bound
    to slot 2) ends up with its turn flag set. *)
Theorem numeric_turn_is_exclusive (one two : Session) (p : Payload) (turn : Z) :
  playerIndex one = Some 1 ->
  playerIndex two = Some 2 ->
  candidateTurnOf p = JNum (Fin turn) ->
  turn = 1 \/ turn = 2 ->
  isCurrentTurnSelf (applyGameStateUpdate (Some p) one)
  = negb (isCurrentTurnSelf (applyGameStateUpdate (Some p) two))
  /\ isCurrentTurnSelf (applyGameStateUpdate (Some p) one) = (turn =? 1).
Proof.
  intros H1 H2 Hturn Hrange. simpl. unfold isSelfTurnNow, resolvedSelfIndexOf.
  rewrite H1, H2, Hturn.
  assert (forall o, matchesUuid o (JNum (Fin turn)) = false) as Hno
    by (intros [u|]; [simpl; apply andb_false_r|done]).
  rewrite !Hno. simpl. destruct Hrange as [-> | ->]; done.
Qed.

Lemma numeric_turn_is_exclusive_witness :
  isCurrentTurnSelf (applyGameStateUpdate (Some openingSnapshot) freshSession) = true
  /\ isCurrentTurnSelf (applyGameStateUpdate (Some openingSnapshot) freshSessionTwo) = false.
Proof.
  destruct (numeric_turn_is_exclusive freshSession freshSessionTwo openingSnapshot 1
              eq_refl eq_refl eq_refl (or_introl eq_refl)) as [Hexcl Hone].
  split; [exact Hone|].
  apply negb_true_iff. rewrite <- Hexcl. exact Hone.
Defined.

(** ** Attacks that are answered *)

Lemma someAt_fired response r c :
  Number_isFinite r = true -> Number_isFinite c = true ->
  someAt r c [firedCellOf response r c] = true.
Proof.
  intros Hr Hc. unfold someAt. simpl. by rewrite !strict_eq_num_finite_refl.
Qed.

Lemma recordOutcome_hit response r c s :
  is_str (res_result response) "hit" = true ->
  someAt r c (hits (selfAttackHistory s)) = false ->
  recordOutcome response r c s
  = setSelfAttackHistory
      (mkHistory (hits (selfAttackHistory s) ++ [firedCellOf response r c])
                 (misses (selfAttackHistory s))) s.
Proof. unfold recordOutcome, firedCellOf. by intros -> ->. Qed.

Lemma recordOutcome_miss response r c s :
  is_str (res_result response) "miss" = true ->
  is_str (res_result response) "hit" = false ->
  someAt r c (misses (selfAttackHistory s)) = false ->
  recordOutcome response r c s
  = setSelfAttackHistory
      (mkHistory (hits (selfAttackHistory s))
                 (misses (selfAttackHistory s) ++ [firedCellOf response r c])) s.
Proof. unfold recordOutcome, firedCellOf. by intros -> -> ->. Qed.

Lemma recordOutcome_other response r c s :
  is_str (res_result response) "hit" = false ->
  is_str (res_result response) "miss" = false ->
  recordOutcome response r c s = s.
Proof. unfold recordOutcome. by intros -> ->. Qed.

Lemma handleFireAt_begin_seen s r c :
  alreadyAttacked s r c = true -> snd (handleFireAt_begin s r c) = None.
Proof.
  intros H. unfold handleFireAt_begin. rewrite H.
  destruct (negb (canFire s)); [done|]. by destruct (_ || _).
Qed.

(** The state in which the answer of an issued attack finds the screen. *)
Lemma awaiting_state s r c s1 call :
  handleFireAt_begin s r c = (s1, Some call) ->
  alreadyAttacked s r c = false
  /\ call = mkFireCall (displayGameId s) c r
  /\ exists pending,
       pendingAttackEffect s1
       = setAttackFeedback None (setPendingAttack pending (setIsSubmittingAttack true s))
       /\ (pending = Some (r, c) \/ pending = None)
       /\ (gameResult s = None -> pending = Some (r, c)).
Proof.
  intros (Hfire & Hnew & -> & ->)%handleFireAt_begin_issued.
  split; [done|]. split; [done|].
  apply canFire_true in Hfire as (_ & _ & Hturn & _ & _).
  unfold pendingAttackEffect. cbn [pendingAttack setAttackFeedback setPendingAttack
    setIsSubmittingAttack].
  replace (alreadyAttacked _ r c) with (alreadyAttacked s r c) by done. rewrite Hnew.
  unfold isMyTurn. cbn [gameResult isCurrentTurnSelf setAttackFeedback setPendingAttack
    setIsSubmittingAttack]. rewrite Hturn.
  destruct (gameResult s) as [res|]; simpl.
  - exists None. split; [done|]. split; [by right|done].
  - exists (Some (r, c)). split; [done|]. split; [by left|done].
Qed.

(** X4. An attack that leaves the client and is answered "hit" or "miss"
    appends exactly the fired cell to the list for that outcome (with the
    sunk flag only for a hit the answer marks as sunk), leaves the other
    list and the opponent's history alone, and ends with no pending marker
    and no submission in flight; a further call on the same cell is
    dropped. *)
Theorem answered_attack_is_recorded (s s1 : Session) (token : option string)
    (respond : FireCall -> FireOutcome) (r c : JNumber) (call : FireCall)
    (response : FireResponse) :
  handleFireAt_begin s r c = (s1, Some call) ->
  Number_isFinite r = true -> Number_isFinite c = true ->
  truthyStr token = true ->
  respond call = Resolved response ->
  is_str (res_result response) "hit" = true \/ is_str (res_result response) "miss" = true ->
  let after := fireRound token respond r c s in
  selfAttackHistory after
  = (if is_str (res_result response) "hit"
     then mkHistory (hits (selfAttackHistory s) ++ [firedCellOf response r c])
                    (misses (selfAttackHistory s))
     else mkHistory (hits (selfAttackHistory s))
                    (misses (selfAttackHistory s) ++ [firedCellOf response r c]))
  /\ opponentAttackHistory after = opponentAttackHistory s
  /\ pendingAttack after = None
  /\ isSubmittingAttack after = false
  /\ snd (handleFireAt_begin after r c) = None.
Proof.
  intros Hbegin Hr Hc Htoken Hrespond Hresult after.
  set (h := if is_str (res_result response) "hit"
            then mkHistory (hits (selfAttackHistory s) ++ [firedCellOf response r c])
                           (misses (selfAttackHistory s))
            else mkHistory (hits (selfAttackHistory s))
                           (misses (selfAttackHistory s) ++ [firedCellOf response r c])).
  assert (exists turn f,
            after
            = setPendingAttack None
                (setIsSubmittingAttack false
                   (setIsCurrentTurnSelf turn
                      (setSelfAttackHistory h (setAttackFeedback f s))))) as (turn & f & ->).
  { subst after. unfold fireRound. rewrite Hbegin.
    destruct (awaiting_state s r c s1 call Hbegin)
      as (Hnew & Hcall & pending & -> & Hpending & _).
    assert (fireAttack_request token call = inr call) as ->.
    { unfold fireAttack_request. rewrite Hcall. cbn [call_x call_y].
      by rewrite Hr, Hc, Htoken. }
    rewrite Hrespond. unfold handleFireAt_settle.
    match goal with
    | |- context [responseFeedback ?rs ?st] =>
        destruct (responseFeedback_sets rs st) as [f ->]
    end.
    apply orb_false_elim in Hnew as [Hnoth Hnotm].
    match goal with
    | |- context [recordOutcome ?rs r c ?st] =>
        assert (recordOutcome rs r c st = setSelfAttackHistory h st) as ->
    end.
    { subst h. destruct (is_str (res_result response) "hit") eqn:Ehit.
      - by rewrite recordOutcome_hit.
      - destruct Hresult as [[=]|Hmiss]. by rewrite recordOutcome_miss. }
    match goal with
    | |- context [applyNextTurn ?cl ?rs ?st] =>
        destruct (applyNextTurn_sets cl rs st) as [turn ->]
    end.
    exists turn, f.
    unfold pendingAttackEffect.
    cbn [pendingAttack setIsSubmittingAttack setIsCurrentTurnSelf setSelfAttackHistory
      setAttackFeedback setPendingAttack].
    destruct Hpending as [-> | ->]; [|done].
    match goal with
    | |- context [alreadyAttacked ?st r c] =>
        assert (alreadyAttacked st r c = true) as ->
    end; [|done].
    unfold alreadyAttacked. cbn [selfAttackHistory setIsSubmittingAttack setIsCurrentTurnSelf
      setSelfAttackHistory]. subst h.
    destruct (is_str (res_result response) "hit"); cbn [hits misses];
      rewrite someAt_app, someAt_fired by done;
      [by rewrite orb_true_r | by rewrite !orb_true_r]. }
  split; [done|]. split; [done|]. split; [done|]. split; [done|].
  apply handleFireAt_begin_seen.
  unfold alreadyAttacked. cbn [selfAttackHistory setIsSubmittingAttack setIsCurrentTurnSelf
    setSelfAttackHistory setPendingAttack]. subst h.
  destruct (is_str (res_result response) "hit"); cbn [hits misses];
    rewrite someAt_app, someAt_fired by done;
    [by rewrite orb_true_r | by rewrite !orb_true_r].
Qed.

Lemma answered_attack_is_recorded_witness :
  let after := fireRound (Some "token") hitSunkRespond (Fin 3) (Fin 4) readySession in
  selfAttackHistory after = mkHistory [mkCell (Fin 3) (Fin 4) true] []
  /\ pendingAttack after = None
  /\ snd (handleFireAt_begin after (Fin 3) (Fin 4)) = None.
Proof.
  intros after.
  destruct (answered_attack_is_recorded readySession
              (fst (handleFireAt_begin readySession (Fin 3) (Fin 4)))
              (Some "token") hitSunkRespond (Fin 3) (Fin 4)
              (mkFireCall "g1" (Fin 4) (Fin 3))
              (mkFireResponse (JStr "hit") (JBool true) JUndefined None (JNum (Fin 2)) (Fin 2))
              eq_refl eq_refl eq_refl eq_refl eq_refl (or_introl eq_refl))
    as (Hhistory & _ & Hpending & _ & Hagain).
  split; [exact Hhistory|]. split; [exact Hpending|exact Hagain].
Defined.

Lemma fireRound_resolved s s1 token respond r c call response :
  handleFireAt_begin s r c = (s1, Some call) ->
  Number_isFinite r = true -> Number_isFinite c = true ->
  truthyStr token = true ->
  respond call = Resolved response ->
  fireRound token respond r c s
  = pendingAttackEffect (handleFireAt_settle s r c (Resolved response) (pendingAttackEffect s1)).
Proof.
  intros Hbegin Hr Hc Htoken Hrespond. unfold fireRound. rewrite Hbegin.
  destruct (awaiting_state s r c s1 call Hbegin) as (_ & Hcall & _).
  assert (fireAttack_request token call = inr call) as ->.
  { unfold fireAttack_request. rewrite Hcall. cbn [call_x call_y].
    by rewrite Hr, Hc, Htoken. }
  by rewrite Hrespond.
Qed.

Lemma pendingAttackEffect_sets s : exists v, pendingAttackEffect s = setPendingAttack v s.
Proof.
  unfold pendingAttackEffect. destruct (pendingAttack s) as [[r c]|] eqn:E.
  - destruct (_ || _); [by eexists|]. exists (Some (r, c)). rewrite <- E. by destruct s.
  - exists None. rewrite <- E. by destruct s.
Qed.

(** X5. An answer that carries neither "hit" nor "miss" as result and no
    next turn (the client reads an unparsable 200 body as [{}]) records
    nothing; while the game has no result the pending marker stays on the
    cell and the fire gate stays closed. *)
Theorem answer_without_result_blocks_the_gate (s s1 : Session) (token : option string)
    (respond : FireCall -> FireOutcome) (r c : JNumber) (call : FireCall)
    (response : FireResponse) :
  handleFireAt_begin s r c = (s1, Some call) ->
  Number_isFinite r = true -> Number_isFinite c = true ->
  truthyStr token = true ->
  respond call = Resolved response ->
  is_str (res_result response) "hit" = false ->
  is_str (res_result response) "miss" = false ->
  res_nextTurn response = JUndefined ->
  gameResult s = None ->
  let after := fireRound token respond r c s in
  selfAttackHistory after = selfAttackHistory s
  /\ isSubmittingAttack after = false
  /\ pendingAttack after = Some (r, c)
  /\ canFire after = false.
Proof.
  intros Hbegin Hr Hc Htoken Hrespond Hhit Hmiss Hnext Hres after.
  assert (exists f,
            after = setIsSubmittingAttack false
                      (setAttackFeedback f
                         (setPendingAttack (Some (r, c)) (setIsSubmittingAttack true s))))
    as [f ->].
  { subst after. rewrite (fireRound_resolved s s1 token respond r c call response) by done.
    destruct (awaiting_state s r c s1 call Hbegin)
      as (Hnew & _ & pending & -> & _ & Hpending).
    rewrite (Hpending Hres). unfold handleFireAt_settle.
    match goal with
    | |- context [responseFeedback ?rs ?st] =>
        destruct (responseFeedback_sets rs st) as [f ->]
    end.
    rewrite recordOutcome_other by done.
    unfold applyNextTurn. rewrite Hnext.
    exists f. unfold pendingAttackEffect.
    cbn [pendingAttack setIsSubmittingAttack setAttackFeedback setPendingAttack].
    match goal with
    | |- context [alreadyAttacked ?st r c] =>
        replace (alreadyAttacked st r c) with (alreadyAttacked s r c) by done
    end.
    rewrite Hnew. unfold isMyTurn.
    cbn [gameResult isCurrentTurnSelf setIsSubmittingAttack setAttackFeedback setPendingAttack].
    rewrite Hres.
    apply handleFireAt_begin_issued in Hbegin as (Hfire & _).
    apply canFire_true in Hfire as (_ & _ & -> & _). done. }
  split; [done|]. split; [done|]. split; [done|].
  unfold canFire, hasPending. simpl.
  by destruct (isConfirmed s), (hasBothBoardsSubmitted s), (isCurrentTurnSelf s).
Qed.

Lemma answer_without_result_blocks_the_gate_witness :
  let after := fireRound (Some "token") emptyRespond (Fin 3) (Fin 4) readySession in
  selfAttackHistory after = emptyHistory
  /\ pendingAttack after = Some (Fin 3, Fin 4)
  /\ canFire after = false.
Proof.
  intros after.
  destruct (answer_without_result_blocks_the_gate readySession
              (fst (handleFireAt_begin readySession (Fin 3) (Fin 4)))
              (Some "token") emptyRespond (Fin 3) (Fin 4)
              (mkFireCall "g1" (Fin 4) (Fin 3))
              (mkFireResponse JUndefined JUndefined JUndefined None JUndefined NaN)
              eq_refl eq_refl eq_refl eq_refl eq_refl eq_refl eq_refl eq_refl eq_refl)
    as (Hhistory & _ & Hpending & Hgate).
  split; [exact Hhistory|]. split; [exact Hpending|exact Hgate].
Defined.

Lemma applyNextTurn_number closure response s n i :
  res_nextTurn response = JNum (Fin n) ->
  playerIndex closure = Some i ->
  applyNextTurn closure response s = setIsCurrentTurnSelf (n =? i) s.
Proof. unfold applyNextTurn. by intros -> ->. Qed.

(** X6. When the answer to an attack names the next turn by a number and
    the local slot is bound, the turn flag after the attack is set exactly
    when that number is the local slot; when the answer names no next turn
    the flag stays set. *)
Theorem answered_attack_sets_turn (s s1 : Session) (token : option string)
    (respond : FireCall -> FireOutcome) (r c : JNumber) (call : FireCall)
    (response : FireResponse) :
  handleFireAt_begin s r c = (s1, Some call) ->
  Number_isFinite r = true -> Number_isFinite c = true ->
  truthyStr token = true ->
  respond call = Resolved response ->
  let after := fireRound token respond r c s in
  (forall n i, res_nextTurn response = JNum (Fin n) -> playerIndex s = Some i ->
               isCurrentTurnSelf after = (n =? i))
  /\ (res_nextTurn response = JUndefined -> isCurrentTurnSelf after = true).
Proof.
  intros Hbegin Hr Hc Htoken Hrespond after. subst after.
  rewrite (fireRound_resolved s s1 token respond r c call response) by done.
  destruct (awaiting_state s r c s1 call Hbegin) as (_ & _ & pending & -> & _ & _).
  unfold handleFireAt_settle.
  match goal with
  | |- context [responseFeedback ?rs ?st] =>
      destruct (responseFeedback_sets rs st) as [f ->]
  end.
  match goal with
  | |- context [recordOutcome ?rs r c ?st] =>
      destruct (recordOutcome_sets rs r c st) as (h & -> & _)
  end.
  split.
  - intros n i Hn Hi. rewrite (applyNextTurn_number _ _ _ n i Hn Hi).
    match goal with
    | |- context [pendingAttackEffect ?st] =>
        destruct (pendingAttackEffect_sets st) as [v ->]
    end. done.
  - intros Hn. unfold applyNextTurn. rewrite Hn.
    match goal with
    | |- context [pendingAttackEffect ?st] =>
        destruct (pendingAttackEffect_sets st) as [v ->]
    end.
    cbn [isCurrentTurnSelf setPendingAttack setIsSubmittingAttack setSelfAttackHistory
      setAttackFeedback].
    apply handleFireAt_begin_issued in Hbegin as (Hfire & _).
    by apply canFire_true in Hfire as (_ & _ & -> & _).
Qed.

Lemma answered_attack_sets_turn_witness :
  isCurrentTurnSelf (fireRound (Some "token") hitSunkRespond (Fin 3) (Fin 4) readySession)
  = false
  /\ isCurrentTurnSelf (fireRound (Some "token") emptyRespond (Fin 3) (Fin 4) readySession)
     = true.
Proof.
  destruct (answered_attack_sets_turn readySession
              (fst (handleFireAt_begin readySession (Fin 3) (Fin 4)))
              (Some "token") hitSunkRespond (Fin 3) (Fin 4)
              (mkFireCall "g1" (Fin 4) (Fin 3))
              (mkFireResponse (JStr "hit") (JBool true) JUndefined None (JNum (Fin 2)) (Fin 2))
              eq_refl eq_refl eq_refl eq_refl eq_refl) as [Hnumber _].
  destruct (answered_attack_sets_turn readySession
              (fst (handleFireAt_begin readySession (Fin 3) (Fin 4)))
              (Some "token") emptyRespond (Fin 3) (Fin 4)
              (mkFireCall "g1" (Fin 4) (Fin 3))
              (mkFireResponse JUndefined JUndefined JUndefined None JUndefined NaN)
              eq_refl eq_refl eq_refl eq_refl eq_refl) as [_ Hnone].
  split.
  - exact (Hnumber 2 1 eq_refl eq_refl).
  - exact (Hnone eq_refl).
Defined.

(** ** Snapshot cell lists *)

(** X7. [normalizeCells] returns nothing for a value that is not an array
    and never more cells than the array has items; every cell it takes
    from an item in array form [[x, y, flag]] has finite coordinates, with
    [x] as column and [y] as row. *)
Theorem normalizeCells_array_items (items : list RawCellItem) :
  normalizeCells None = []
  /\ (length (normalizeCells (Some items)) <= length items)%nat
  /\ (forallb isArrayItem items = true ->
      forallb finiteCell (normalizeCells (Some items)) = true)
  /\ (forall x y extra cell,
        normalizeItem (RawTuple (CValue x) (CValue y) extra) = Some cell ->
        col cell = x /\ row cell = y).
Proof.
  split; [done|]. split; [|split].
  - unfold normalizeCells. induction items as [|item items IH]; [done|].
    csimpl. destruct (normalizeItem item); simpl; lia.
  - unfold normalizeCells. induction items as [|item items IH]; [done|].
    cbn [forallb]. intros [Hitem Hrest]%andb_prop. csimpl.
    destruct (normalizeItem item) as [cell|] eqn:E; [|by apply IH].
    cbn [forallb]. rewrite IH by done. rewrite andb_true_r.
    destruct item as [|xRaw yRaw extra| |]; try done.
    cbn [normalizeItem] in E.
    destruct xRaw as [| |cx]; try done. destruct yRaw as [| |cy]; try done.
    destruct (Number_isFinite cx) eqn:Ex, (Number_isFinite cy) eqn:Ey; simpl in E;
      try done.
    injection E as <-. unfold finiteCell. simpl. by rewrite Ex, Ey.
  - intros x y extra cell. simpl.
    destruct (negb (Number_isFinite x) || negb (Number_isFinite y)); [done|].
    by intros [= <-].
Qed.

Lemma normalizeCells_array_items_witness :
  forallb finiteCell
    (normalizeCells
       (Some [RawTuple (CValue (Fin 2)) (CValue (Fin 5)) JUndefined;
              RawTuple (CValue NaN) (CValue (Fin 1)) JUndefined; RawShortArray])) = true
  /\ normalizeCells
       (Some [RawTuple (CValue (Fin 2)) (CValue (Fin 5)) JUndefined;
              RawTuple (CValue NaN) (CValue (Fin 1)) JUndefined; RawShortArray])
     = [cellAt 5 2].
Proof.
  split; [|reflexivity].
  apply (normalizeCells_array_items
           [RawTuple (CValue (Fin 2)) (CValue (Fin 5)) JUndefined;
            RawTuple (CValue NaN) (CValue (Fin 1)) JUndefined; RawShortArray]).
  reflexivity.
Defined.

(** ** Reading the board matrix *)

Lemma boardDims_empty : boardDims emptyBoard.
Proof. split; [done|]. by apply Forall_replicate. Qed.

Lemma boardDims_writeCell label board cell :
  boardDims board -> boardDims (writeCell label board cell).
Proof.
  intros [Hlen Hrows]. unfold writeCell. destruct (inGrid cell); [|done]. cbv iota.
  split; [by rewrite length_alter|].
  apply Forall_alter; [done|]. intros cells _ Hcells. by rewrite length_insert.
Qed.

Lemma boardDims_writeCells label cells board :
  boardDims board -> boardDims (fold_left (writeCell label) cells board).
Proof.
  revert board. induction cells as [|cell cells IH]; intros board Hb; [done|].
  simpl. by apply IH, boardDims_writeCell.
Qed.

Lemma inGrid_bounds cell :
  inGrid cell = true <-> 0 <= fst cell < 10 /\ 0 <= snd cell < 10.
Proof. unfold inGrid. rewrite !andb_true_iff, !Z.leb_le, !Z.ltb_lt. lia. Qed.

Lemma boardAt_is_Some board cell :
  boardDims board -> inGrid cell = true -> is_Some (boardAt board cell).
Proof.
  intros [Hlen Hrows] [Hr Hc]%inGrid_bounds. unfold boardAt.
  destruct (lookup_lt_is_Some_2 board (Z.to_nat (fst cell))) as [cells Hcells]; [lia|].
  rewrite Hcells. simpl. apply lookup_lt_is_Some_2.
  rewrite Forall_forall in Hrows. rewrite (Hrows cells); [lia|].
  by eapply list_elem_of_lookup_2.
Qed.

Lemma boardAt_writeCell label board written cell :
  boardDims board -> inGrid cell = true ->
  boardAt (writeCell label board written) cell
  = if sameGridCell written cell then Some (Some label) else boardAt board cell.
Proof.
  intros Hdims Hcell. unfold writeCell.
  destruct (sameGridCell written cell) eqn:Esame.
  - apply sameGridCell_eq in Esame as ->. rewrite Hcell. unfold boardAt.
    destruct (boardAt_is_Some board cell Hdims Hcell) as [entry Hentry].
    unfold boardAt in Hentry.
    rewrite list_lookup_alter_eq.
    destruct (board !! Z.to_nat (fst cell)) as [cells|] eqn:Hcells; [|done].
    simpl in *. rewrite list_lookup_insert_eq; [done|]. by eapply lookup_lt_Some.
  - destruct (inGrid written) eqn:Ewritten; [|done].
    apply inGrid_bounds in Ewritten as [Hwr Hwc]. apply inGrid_bounds in Hcell as [Hr Hc].
    unfold boardAt.
    destruct (decide (Z.to_nat (fst written) = Z.to_nat (fst cell))) as [Hrow|Hrow].
    + rewrite Hrow, list_lookup_alter_eq.
      destruct (board !! Z.to_nat (fst cell)) as [cells|]; [|done]. simpl.
      rewrite list_lookup_insert_ne; [done|].
      intros Hcol. assert (written = cell) as Heq.
      { destruct written, cell; simpl in *. f_equal; lia. }
      apply sameGridCell_eq in Heq. congruence.
    + by rewrite list_lookup_alter_ne.
Qed.

Lemma boardAt_writeCells label cells board cell :
  boardDims board -> inGrid cell = true ->
  boardAt (fold_left (writeCell label) cells board) cell
  = if existsb (fun p => sameGridCell p cell) cells then Some (Some label)
    else boardAt board cell.
Proof.
  revert board. induction cells as [|written cells IH]; intros board Hdims Hcell; [done|].
  simpl. rewrite IH by (try apply boardDims_writeCell; done).
  rewrite boardAt_writeCell by done.
  destruct (existsb _ cells); [by rewrite orb_true_r|]. by rewrite orb_false_r.
Qed.

Lemma boardAt_writeShapes placed board cell acc :
  boardDims board -> inGrid cell = true ->
  boardAt board cell = Some acc ->
  boardAt
    (fold_left
       (fun board shape =>
          fold_left (writeCell (shapeLabel (ps_id shape))) (ps_cells shape) board)
       placed board) cell
  = Some (fold_left (coverStep cell) placed acc).
Proof.
  revert board acc. induction placed as [|ps placed IH]; intros board acc Hdims Hcell Hacc;
    [done|].
  simpl. apply IH; [by apply boardDims_writeCells|done|].
  rewrite boardAt_writeCells by done. unfold coverStep.
  by destruct (existsb _ (ps_cells ps)).
Qed.

Lemma coverStep_uncovered cell placed acc :
  (forall ps, ps ∈ placed -> cell ∉ ps_cells ps) ->
  fold_left (coverStep cell) placed acc = acc.
Proof.
  revert acc. induction placed as [|ps placed IH]; intros acc Hfree; [done|].
  simpl. unfold coverStep at 2.
  replace (existsb _ (ps_cells ps)) with false.
  - apply IH. intros ps' Hin. apply Hfree. by right.
  - symmetry. apply existsb_false_Forall, Forall_forall. intros p Hp.
    destruct (sameGridCell p cell) eqn:E; [|done].
    apply sameGridCell_eq in E as ->. destruct (Hfree ps); [by left|done].
Qed.

Lemma coverStep_covered cell ps :
  cell ∈ ps_cells ps -> forall acc, coverStep cell acc ps = Some (shapeLabel (ps_id ps)).
Proof.
  intros Hin acc. unfold coverStep.
  replace (existsb _ (ps_cells ps)) with true; [done|]. symmetry.
  apply existsb_exists. exists cell. split; [by apply list_elem_of_In|].
  by apply sameGridCell_eq.
Qed.

(** X8. The matrix sent with the board reads back the placement: at every
    grid cell it holds the label of the last placed shape that covers the
    cell, and [null] where none does. For a placement the screen can reach
    (instances pairwise apart) that is the label of the one shape on the
    cell. *)
Theorem buildBoardMatrix_reads_back (p : Placement) (cell : Z * Z) :
  inGrid cell = true ->
  boardAt (buildBoardMatrix (placedShapesLeft p)) cell
  = Some (lastCover (placedShapesLeft p) cell)
  /\ (placementReachable p ->
      (forall ps, ps ∈ placedShapesLeft p -> cell ∈ ps_cells ps ->
                  boardAt (buildBoardMatrix (placedShapesLeft p)) cell
                  = Some (Some (shapeLabel (ps_id ps))))
      /\ ((forall ps, ps ∈ placedShapesLeft p -> cell ∉ ps_cells ps) ->
          boardAt (buildBoardMatrix (placedShapesLeft p)) cell = Some None)).
Proof.
  intros Hcell.
  assert (boardAt (buildBoardMatrix (placedShapesLeft p)) cell
          = Some (lastCover (placedShapesLeft p) cell)) as Hread.
  { apply boardAt_writeShapes; [apply boardDims_empty|done|].
    apply inGrid_bounds in Hcell as [Hr Hc]. unfold boardAt, emptyBoard.
    rewrite lookup_replicate_2 by lia. unfold mbind, option_bind.
    by rewrite lookup_replicate_2 by lia. }
  split; [done|]. intros (_ & Hnodup & _ & _ & Hapart & _)%placementReachable_invariant.
  rewrite Hread. split.
  - intros ps Hps Hin. f_equal. unfold lastCover.
    apply list_elem_of_split in Hps as (before & after & Hsplit).
    rewrite Hsplit in *. rewrite fold_left_app. simpl.
    rewrite (coverStep_covered cell ps Hin). apply coverStep_uncovered.
    intros other Hother Hcover.
    assert (ps_id ps <> ps_id other) as Hne.
    { rewrite fmap_app, fmap_cons in Hnodup.
      apply NoDup_app in Hnodup as (_ & _ & Hnd). apply NoDup_cons in Hnd as [Hnotin _].
      intros Heq. apply Hnotin. rewrite Heq. by apply list_elem_of_fmap_2. }
    apply (Hapart ps other) in Hne; [by apply (Hne cell)|..].
    + apply elem_of_app. right. by left.
    + apply elem_of_app. right. by right.
  - intros Hfree. f_equal. by apply coverStep_uncovered.
Qed.

Lemma buildBoardMatrix_reads_back_witness :
  boardAt (buildBoardMatrix (placedShapesLeft fivePlaced)) (6, 0) = Some (Some "U")
  /\ boardAt (buildBoardMatrix (placedShapesLeft fivePlaced)) (9, 9) = Some None.
Proof.
  destruct (buildBoardMatrix_reads_back fivePlaced (6, 0) eq_refl) as [_ Hreach].
  destruct (Hreach fivePlaced_reachable) as [Hcovered _].
  destruct (buildBoardMatrix_reads_back fivePlaced (9, 9) eq_refl) as [Hread _].
  split.
  - apply (Hcovered (mkPlaced "s-u" [(5, 0); (5, 1); (6, 0); (7, 0); (7, 1)])).
    + unfold fivePlaced. vm_compute. repeat constructor.
    + repeat constructor.
  - rewrite Hread. reflexivity.
Defined.

(** ** Drag and drop *)

(** X9. For every catalog shape, [getShapeBounds] gives a positive width
    and height, and the in-bounds test of the drag preview accepts an
    anchor exactly when the bounding box anchored there lies within the
    10 x 10 grid. *)
Theorem catalog_shape_fits_iff_box_fits (shape : Shape) (row0 col0 : Z) :
  shape ∈ shapes ->
  exists w h,
    getShapeBounds (shape_cells shape) = (Fin w, Fin h)
    /\ 0 < w <= 4 /\ 0 < h <= 3
    /\ (forallb inGrid (cellsAt shape row0 col0) = true
        <-> 0 <= row0 /\ row0 + h <= 10 /\ 0 <= col0 /\ col0 + w <= 10).
Proof.
  unfold shapes. rewrite !elem_of_cons, elem_of_nil.
  intros [->|[->|[->|[->|[->|[]]]]]]; eexists _, _;
    (split; [vm_compute; reflexivity|]); (split; [lia|]); (split; [lia|]);
    unfold cellsAt; cbn [map forallb shape_cells fst snd];
    rewrite ?andb_true_r, ?andb_true_iff, ?inGrid_bounds; cbn [fst snd]; lia.
Qed.

Lemma catalog_shape_fits_iff_box_fits_witness :
  forallb inGrid (cellsAt (mkShape "s-u" "U" [(0, 0); (1, 0); (0, 1); (0, 2); (1, 2)]) 7 8)
  = true.
Proof.
  destruct (catalog_shape_fits_iff_box_fits
              (mkShape "s-u" "U" [(0, 0); (1, 0); (0, 1); (0, 2); (1, 2)]) 7 8)
    as (w & h & Hbounds & _ & _ & Hfits).
  - unfold shapes. rewrite !elem_of_cons. tauto.
  - injection Hbounds as <- <-. apply Hfits. lia.
Defined.

Lemma find_elem {A} (f : A -> bool) (l : list A) (x : A) :
  find f l = Some x -> x ∈ l /\ f x = true.
Proof. intros [Hin Hf]%find_some. split; [by apply list_elem_of_In|done]. Qed.

(** X10. A placed ship cannot be moved onto a position that shares a cell
    with its own current position: the overlap test of the preview counts
    the lifted ship itself, so such a release (outside the palette) leaves
    the placed list and the used ids unchanged. *)
Theorem move_onto_own_cells_is_refused (p : Placement) (id : string) (ps : PlacedShape)
    (shape : Shape) (row0 col0 : Z) (cell : Z * Z) :
  find (fun ps => String.eqb (ps_id ps) id) (placedShapesLeft p) = Some ps ->
  find (fun shape => String.eqb (shape_id shape) id) shapes = Some shape ->
  cell ∈ cellsAt shape row0 col0 -> cell ∈ ps_cells ps ->
  dragOnGrid id row0 col0 p = resetDrag (placedShapesLeft p) (usedShapeIds p).
Proof.
  intros Hps Hshape Htarget Hown.
  unfold dragOnGrid, onPlacedDragStart. rewrite Hps, Hshape.
  unfold moveDrag. cbn [draggingShape overGrid placedShapesLeft usedShapeIds dragSource
    liftedPrevCellsRef].
  fold (cellsAt shape row0 col0).
  assert (overlapsPlaced (cellsAt shape row0 col0) (placedShapesLeft p) = true) as ->.
  { destruct (overlapsPlaced _ _) eqn:E; [done|].
    rewrite overlapsPlaced_false in E. apply find_elem in Hps as [Hin _].
    by destruct (E ps Hin cell Htarget). }
  rewrite andb_false_r. unfold endDrag, withinPalette. by simpl.
Qed.

Lemma move_onto_own_cells_is_refused_witness :
  placedShapesLeft (dragOnGrid "s-3x1" 0 1 fivePlaced) = placedShapesLeft fivePlaced.
Proof.
  rewrite (move_onto_own_cells_is_refused fivePlaced "s-3x1"
             (mkPlaced "s-3x1" [(0, 0); (0, 1); (0, 2)])
             (mkShape "s-3x1" "3x1" [(0, 0); (1, 0); (2, 0)]) 0 1 (0, 1)).
  - reflexivity.
  - reflexivity.
  - reflexivity.
  - vm_compute. repeat constructor.
  - repeat constructor.
Defined.

Lemma catalog_find shape :
  shape ∈ shapes -> find (fun sh => String.eqb (shape_id sh) (shape_id shape)) shapes = Some shape.
Proof.
  unfold shapes. rewrite !elem_of_cons, elem_of_nil.
  intros [->|[->|[->|[->|[->|[]]]]]]; reflexivity.
Qed.

Lemma find_fresh_placed id cells placed :
  (forall ps, ps ∈ placed -> ps_id ps <> id) ->
  find (fun ps => String.eqb (ps_id ps) id) (placed ++ [mkPlaced id cells])
  = Some (mkPlaced id cells)
  /\ removePlaced id (placed ++ [mkPlaced id cells]) = placed.
Proof.
  intros Hfresh. unfold removePlaced. induction placed as [|ps placed IH].
  - simpl. rewrite String.eqb_refl. split; [done|].
    by rewrite filter_cons_False by (intros H; by apply H).
  - destruct IH as [IHfind IHremove]; [intros ps' Hin; apply Hfresh; by right|].
    assert (ps_id ps <> id) as Hne by (apply Hfresh; by left).
    simpl. rewrite (proj2 (String.eqb_neq _ _) Hne). split; [done|].
    rewrite filter_cons_True by done. by rewrite IHremove.
Qed.

(** X11. Placing a palette shape and then dragging it back onto the palette
    undoes the placement: from a reachable state, the placed list and the
    used ids are what they were before and the shape is offered in the
    palette again. *)
Theorem place_then_remove_restores (p : Placement) (shape : Shape) (row0 col0 : Z) :
  placementReachable p ->
  shape ∈ paletteShapes p ->
  forallb inGrid (cellsAt shape row0 col0) = true ->
  overlapsPlaced (cellsAt shape row0 col0) (placedShapesLeft p) = false ->
  let placed := dragFromPalette shape row0 col0 p in
  let removed := dragToPalette (shape_id shape) placed in
  shape_id shape ∈ usedShapeIds placed
  /\ (shape ∉ paletteShapes placed)
  /\ placedShapesLeft removed = placedShapesLeft p
  /\ usedShapeIds removed = usedShapeIds p
  /\ shape ∈ paletteShapes removed.
Proof.
  intros (Hused & _)%placementReachable_invariant
    [Hunused Hshape]%list_elem_of_filter Hgrid Hclear placed removed.
  assert (forall ps, ps ∈ placedShapesLeft p -> ps_id ps <> shape_id shape) as Hfresh.
  { intros ps Hps Heq. apply Hunused. rewrite Hused, elem_of_list_to_set, list_elem_of_fmap.
    by exists ps. }
  assert (placed
          = resetDrag
              (placedShapesLeft p ++ [mkPlaced (shape_id shape) (cellsAt shape row0 col0)])
              (usedShapeIds p ∪ {[shape_id shape]})) as Hplaced.
  { subst placed.
    unfold dragFromPalette, startDrag, moveDrag, endDrag, withinPalette. simpl.
    fold (cellsAt shape row0 col0). by rewrite Hgrid, Hclear. }
  destruct (find_fresh_placed (shape_id shape) (cellsAt shape row0 col0)
              (placedShapesLeft p) Hfresh) as [Hfind Hremove].
  assert (removed
          = resetDrag (placedShapesLeft p)
              ((usedShapeIds p ∪ {[shape_id shape]}) ∖ {[shape_id shape]})) as Hremoved.
  { subst removed. rewrite Hplaced. unfold dragToPalette, onPlacedDragStart.
    cbn [placedShapesLeft resetDrag]. rewrite Hfind, (catalog_find shape Hshape).
    unfold moveDrag, endDrag, withinPalette. simpl. by rewrite Hremove. }
  assert ((usedShapeIds p ∪ {[shape_id shape]}) ∖ {[shape_id shape]} = usedShapeIds p)
    as Hsame.
  { apply set_eq. intros x. rewrite elem_of_difference, elem_of_union, elem_of_singleton.
    split; [by intros [[?|?] ?]|]. intros Hx. split; [by left|]. by intros ->. }
  rewrite Hremoved, Hplaced, Hsame. cbn [usedShapeIds placedShapesLeft resetDrag].
  split; [apply elem_of_union; right; by apply elem_of_singleton|].
  split.
  - unfold paletteShapes. rewrite list_elem_of_filter. cbn [usedShapeIds resetDrag].
    intros [Hnot _]. apply Hnot. apply elem_of_union. right. by apply elem_of_singleton.
  - split; [done|]. split; [done|].
    unfold paletteShapes. by rewrite list_elem_of_filter.
Qed.

Lemma place_then_remove_restores_witness :
  placedShapesLeft
    (dragToPalette "s-u"
       (dragFromPalette (mkShape "s-u" "U" [(0, 0); (1, 0); (0, 1); (0, 2); (1, 2)]) 5 0
          fourPlaced))
  = placedShapesLeft fourPlaced.
Proof.
  destruct (place_then_remove_restores fourPlaced
              (mkShape "s-u" "U" [(0, 0); (1, 0); (0, 1); (0, 2); (1, 2)]) 5 0
              fourPlaced_reachable) as (_ & _ & Hplaced & _).
  - apply list_elem_of_filter. split; [by vm_compute|].
    unfold shapes. rewrite !elem_of_cons. tauto.
  - reflexivity.
  - reflexivity.
  - exact Hplaced.
Defined.

(** ** The waits of the retry loop *)

Lemma totalSleep_app t u : totalSleep (t ++ u) = totalSleep t + totalSleep u.
Proof.
  induction t as [|a t IH]; [done|]. simpl. rewrite IH. destruct a; lia.
Qed.

Lemma totalSleep_retries k :
  (k < 8)%nat -> 0 <= totalSleep (retriesFrom 0 k) <= 5638
                 /\ (k = 7%nat -> totalSleep (retriesFrom 0 k) = 5638).
Proof.
  intros Hk.
  do 8 (destruct k as [|k]; [vm_compute; split; [split; congruence|]; first [done|lia]|]).
  lia.
Qed.

(** X12. One call of [fetchStateWithRetry] spends at most
    200 + 300 + 450 + 675 + 1013 + 1500 + 1500 = 5638 ms in its waits,
    whatever the requests answer and whenever its [cancelled] flag is set.
    When every request fails and the flag is not set at any test of the
    loop condition (the run of the effect that started the call is not
    cleaned up, neither for a re-run of the effect nor by leaving the
    screen), the call makes all eight requests, waits exactly that long,
    warns once and never applies a state nor marks the game ready. *)
Theorem fetchStateWithRetry_waits_at_most
    (getState : nat -> option Payload) (cancelledAtTest cancelledAfterFetch : nat -> bool) :
  exists trace,
    fetchStateWithRetry getState cancelledAtTest cancelledAfterFetch maxAttempts = Some trace
    /\ 0 <= totalSleep trace <= 5638
    /\ ((forall n, (n < 8)%nat -> getState n = None /\ cancelledAtTest n = false) ->
        trace = retriesFrom 0 7 ++ [GetState 7%nat; WarnGiveUp]
        /\ totalSleep trace = 5638
        /\ attemptsMade trace = 8%nat
        /\ SetGameReady ∉ trace).
Proof.
  destruct (fetchLoop_shape getState cancelledAtTest cancelledAfterFetch maxAttempts 0)
    as (k & tail & Hrun & Hk & _ & Hend); [unfold maxAttempts; lia..|].
  simpl in Hk, Hend. unfold maxAttempts in Hk.
  exists (retriesFrom 0 k ++ tail). split; [done|].
  assert (totalSleep tail = 0) as Htail.
  { destruct Hend as [[_ ->]|[(_ & state & _ & ->)|(_ & _ & _ & ->)]];
      try destruct (cancelledAfterFetch k); reflexivity. }
  destruct (totalSleep_retries k Hk) as [Hbound Hfull].
  split; [rewrite totalSleep_app, Htail; lia|].
  intros Hfail. destruct (Hfail k Hk) as [Hnone Hmounted].
  destruct Hend as [[Hc _]|[(_ & state & Hs & _)|(_ & _ & Hlast & ->)]]; [congruence..|].
  unfold maxAttempts in Hlast. simpl in Hlast. subst k.
  split; [done|]. split; [by vm_compute|]. split; [by vm_compute|].
  intros Hin. apply list_elem_of_In in Hin. vm_compute in Hin.
  repeat (destruct Hin as [Hin|Hin]; [discriminate|]). done.
Qed.

(** ** The identity effect run again *)


(** ** Token decoding *)

Lemma isBase64Char_sextet c :
  if isBase64Char c then 0 <= sextet c <= 64 else sextet c = -1.
Proof. destruct c as [[] [] [] [] [] [] [] []]; vm_compute; first [done|split; congruence]. Qed.

Lemma range_check (P : Z -> bool) (n : nat) :
  forallb P (map Z.of_nat (seq 0 n)) = true ->
  forall x, 0 <= x < Z.of_nat n -> P x = true.
Proof.
  rewrite forallb_forall. intros H x Hx. apply H.
  apply in_map_iff. exists (Z.to_nat x). split; [lia|]. apply in_seq. lia.
Qed.

Lemma ToInt32_small z : - 2 ^ 31 <= z < 2 ^ 31 -> ToInt32 z = z.
Proof. intros Hz. unfold ToInt32. rewrite Z.mod_small; lia. Qed.

Lemma lor_below x y n :
  0 <= n -> 0 <= x < 2 ^ n -> 0 <= y < 2 ^ n -> 0 <= Z.lor x y < 2 ^ n.
Proof.
  intros Hn Hx Hy.
  assert (0 <= Z.lor x y) as Hnonneg by (apply Z.lor_nonneg; lia).
  split; [done|].
  destruct (decide (x = 0)) as [->|Hx0]; [rewrite Z.lor_0_l; lia|].
  destruct (decide (y = 0)) as [->|Hy0]; [rewrite Z.lor_0_r; lia|].
  destruct (decide (Z.lor x y = 0)) as [->|Hne]; [lia|].
  apply Z.log2_lt_pow2; [lia|]. rewrite Z.log2_lor by lia.
  apply Z.max_lub_lt; apply Z.log2_lt_pow2; lia.
Qed.


Lemma range_check2 (P : Z -> Z -> bool) (n m : nat) :
  forallb (fun x => forallb (P x) (map Z.of_nat (seq 0 m))) (map Z.of_nat (seq 0 n)) = true ->
  forall x y, 0 <= x < Z.of_nat n -> 0 <= y < Z.of_nat m -> P x y = true.
Proof.
  intros H x y Hx Hy.
  apply (range_check (P x) m); [|done].
  by apply (range_check (fun x => forallb (P x) (map Z.of_nat (seq 0 m))) n).
Qed.

Lemma shl_sextet e k :
  0 <= e <= 64 -> k = 18 \/ k = 12 \/ k = 6 ->
  shl e k = e * 2 ^ k /\ 0 <= e * 2 ^ k < 2 ^ 25.
Proof.
  intros He Hk. unfold shl. rewrite (ToInt32_small e) by lia.
  rewrite Z.shiftl_mul_pow2 by lia.
  assert (0 <= e * 2 ^ k < 2 ^ 25) by (destruct Hk as [-> | [-> | ->]]; lia).
  split; [apply ToInt32_small; lia|done].
Qed.

Lemma bor_small x y :
  0 <= x < 2 ^ 25 -> 0 <= y < 2 ^ 25 -> bor x y = Z.lor x y /\ 0 <= Z.lor x y < 2 ^ 25.
Proof.
  intros Hx Hy. unfold bor. rewrite !ToInt32_small by lia.
  split; [done|]. by apply lor_below.
Qed.

(** The word [bits] of a round, and a byte taken from it. *)
Lemma bits_of_sextets e1 e2 e3 e4 :
  0 <= e1 <= 64 -> 0 <= e2 <= 64 -> 0 <= e3 <= 64 -> 0 <= e4 <= 64 ->
  bor (bor (bor (shl e1 18) (shl e2 12)) (shl e3 6)) e4
  = Z.lor (Z.lor (Z.lor (e1 * 2 ^ 18) (e2 * 2 ^ 12)) (e3 * 2 ^ 6)) e4
  /\ 0 <= Z.lor (Z.lor (Z.lor (e1 * 2 ^ 18) (e2 * 2 ^ 12)) (e3 * 2 ^ 6)) e4 < 2 ^ 25.
Proof.
  intros H1 H2 H3 H4.
  destruct (shl_sextet e1 18 H1) as [-> B1]; [tauto|].
  destruct (shl_sextet e2 12 H2) as [-> B2]; [tauto|].
  destruct (shl_sextet e3 6 H3) as [-> B3]; [tauto|].
  destruct (bor_small _ _ B1 B2) as [-> B12].
  destruct (bor_small _ _ B12 B3) as [-> B123].
  apply bor_small; [done|lia].
Qed.

Lemma byte_of_word bits s :
  0 <= bits < 2 ^ 25 -> 0 <= s ->
  band (sar bits s) 255 = Z.land (Z.shiftr bits s) 255
  /\ band bits 255 = Z.land bits 255.
Proof.
  intros Hb Hs. unfold band, sar. rewrite (ToInt32_small bits) by lia.
  change (ToInt32 255) with 255. split; [|done].
  rewrite ToInt32_small; [done|]. rewrite Z.shiftr_div_pow2 by done.
  assert (0 < 2 ^ s) by (apply Z.pow_pos_nonneg; lia).
  split; [pose proof (Z.div_pos bits (2 ^ s)); lia|].
  apply Z.div_lt_upper_bound; nia.
Qed.

Lemma byte_in_range x : 0 <= band x 255 <= 255.
Proof.
  unfold band. change (ToInt32 255) with (Z.ones 8). rewrite Z.land_ones by lia.
  pose proof (Z.mod_pos_bound (ToInt32 x) (2 ^ 8)). lia.
Qed.

Lemma first_byte a b c d :
  0 <= a < 64 -> 0 <= b < 64 -> 0 <= c <= 64 -> 0 <= d <= 64 ->
  Z.land (Z.shiftr (Z.lor (Z.lor (Z.lor (a * 2 ^ 18) (b * 2 ^ 12)) (c * 2 ^ 6)) d) 16) 255
  = 4 * a + b / 16.
Proof.
  intros Ha Hb Hc Hd. rewrite !Z.shiftr_lor, !Z.land_lor_distr_l.
  assert (Z.land (Z.shiftr (c * 2 ^ 6) 16) 255 = 0) as ->.
  { apply Z.eqb_eq.
    apply (range_check (fun c => Z.land (Z.shiftr (c * 2 ^ 6) 16) 255 =? 0) 65);
      [by vm_compute|lia]. }
  assert (Z.land (Z.shiftr d 16) 255 = 0) as ->.
  { apply Z.eqb_eq.
    apply (range_check (fun d => Z.land (Z.shiftr d 16) 255 =? 0) 65); [by vm_compute|lia]. }
  rewrite !Z.lor_0_r. apply Z.eqb_eq.
  apply (range_check2
           (fun a b => Z.lor (Z.land (Z.shiftr (a * 2 ^ 18) 16) 255)
                         (Z.land (Z.shiftr (b * 2 ^ 12) 16) 255) =? 4 * a + b / 16) 64 64);
    [by vm_compute|lia..].
Qed.

Lemma second_byte a b c d :
  0 <= a < 64 -> 0 <= b < 64 -> 0 <= c < 64 -> 0 <= d <= 64 ->
  Z.land (Z.shiftr (Z.lor (Z.lor (Z.lor (a * 2 ^ 18) (b * 2 ^ 12)) (c * 2 ^ 6)) d) 8) 255
  = 16 * (b mod 16) + c / 4.
Proof.
  intros Ha Hb Hc Hd. rewrite !Z.shiftr_lor, !Z.land_lor_distr_l.
  assert (Z.land (Z.shiftr (a * 2 ^ 18) 8) 255 = 0) as ->.
  { apply Z.eqb_eq.
    apply (range_check (fun a => Z.land (Z.shiftr (a * 2 ^ 18) 8) 255 =? 0) 64);
      [by vm_compute|lia]. }
  assert (Z.land (Z.shiftr d 8) 255 = 0) as ->.
  { apply Z.eqb_eq.
    apply (range_check (fun d => Z.land (Z.shiftr d 8) 255 =? 0) 65); [by vm_compute|lia]. }
  rewrite Z.lor_0_l, Z.lor_0_r. apply Z.eqb_eq.
  apply (range_check2
           (fun b c => Z.lor (Z.land (Z.shiftr (b * 2 ^ 12) 8) 255)
                         (Z.land (Z.shiftr (c * 2 ^ 6) 8) 255)
                       =? 16 * (b mod 16) + c / 4) 64 64);
    [by vm_compute|lia..].
Qed.

Lemma third_byte a b c d :
  0 <= a < 64 -> 0 <= b < 64 -> 0 <= c < 64 -> 0 <= d < 64 ->
  Z.land (Z.lor (Z.lor (Z.lor (a * 2 ^ 18) (b * 2 ^ 12)) (c * 2 ^ 6)) d) 255
  = 64 * (c mod 4) + d.
Proof.
  intros Ha Hb Hc Hd. rewrite !Z.land_lor_distr_l.
  assert (Z.land (a * 2 ^ 18) 255 = 0) as ->.
  { apply Z.eqb_eq.
    apply (range_check (fun a => Z.land (a * 2 ^ 18) 255 =? 0) 64); [by vm_compute|lia]. }
  assert (Z.land (b * 2 ^ 12) 255 = 0) as ->.
  { apply Z.eqb_eq.
    apply (range_check (fun b => Z.land (b * 2 ^ 12) 255 =? 0) 64); [by vm_compute|lia]. }
  rewrite !Z.lor_0_l. apply Z.eqb_eq.
  apply (range_check2
           (fun c d => Z.lor (Z.land (c * 2 ^ 6) 255) (Z.land d 255) =? 64 * (c mod 4) + d)
           64 64);
    [by vm_compute|lia..].
Qed.

Lemma decodeRound_values c1 c2 c3 c4 :
  0 <= sextet c1 < 64 -> 0 <= sextet c2 < 64 ->
  0 <= sextet c3 <= 64 -> 0 <= sextet c4 <= 64 ->
  decodeRound (Some c1) (Some c2) (Some c3) (Some c4)
  = if sextet c3 =? 64 then [4 * sextet c1 + sextet c2 / 16]
    else if sextet c4 =? 64
         then [4 * sextet c1 + sextet c2 / 16; 16 * (sextet c2 mod 16) + sextet c3 / 4]
         else [4 * sextet c1 + sextet c2 / 16; 16 * (sextet c2 mod 16) + sextet c3 / 4;
               64 * (sextet c3 mod 4) + sextet c4].
Proof.
  intros H1 H2 H3 H4. unfold decodeRound. fold (sextet c1) (sextet c2) (sextet c3) (sextet c4).
  destruct (bits_of_sextets (sextet c1) (sextet c2) (sextet c3) (sextet c4))
    as [-> Hbits]; [lia..|].
  destruct (byte_of_word _ 16 Hbits) as [-> Hlow]; [lia|].
  destruct (byte_of_word _ 8 Hbits) as [-> _]; [lia|]. rewrite Hlow.
  rewrite first_byte by lia.
  destruct (sextet c3 =? 64) eqn:E3; [done|]. apply Z.eqb_neq in E3.
  rewrite second_byte by lia.
  destruct (sextet c4 =? 64) eqn:E4; [done|]. apply Z.eqb_neq in E4.
  by rewrite third_byte by lia.
Qed.

Lemma sextet_alphabet c : 0 <= sextet c -> isBase64Char c = true /\ sextet c <= 64.
Proof.
  intros H. pose proof (isBase64Char_sextet c) as Hc.
  destruct (isBase64Char c); [split; [done|lia]|lia].
Qed.

Lemma filter_base64_cons c str :
  isBase64Char c = true ->
  filter (fun c => isBase64Char c = true) (c :: str)
  = c :: filter (fun c => isBase64Char c = true) str.
Proof. intros H. by rewrite filter_cons_True. Qed.

(** X14. A group of four alphabet characters with values [a], [b], [c],
    [d] (the positions in [chars]; the first two below 64) decodes as the
    base64 arithmetic says: the bytes [4a + b/16], [16 (b mod 16) + c/4]
    and [64 (c mod 4) + d]; only the first two when the fourth character
    is the padding, only the first when the third is; and decoding goes
    on with the rest of the string. *)
Theorem base64Decode_group (c1 c2 c3 c4 : Ascii.ascii) (rest : list Ascii.ascii) :
  0 <= sextet c1 < 64 -> 0 <= sextet c2 < 64 -> 0 <= sextet c3 -> 0 <= sextet c4 ->
  base64Decode (c1 :: c2 :: c3 :: c4 :: rest)
  = (if sextet c3 =? 64 then [4 * sextet c1 + sextet c2 / 16]
     else if sextet c4 =? 64
          then [4 * sextet c1 + sextet c2 / 16; 16 * (sextet c2 mod 16) + sextet c3 / 4]
          else [4 * sextet c1 + sextet c2 / 16; 16 * (sextet c2 mod 16) + sextet c3 / 4;
                64 * (sextet c3 mod 4) + sextet c4])
    ++ base64Decode rest.
Proof.
  intros H1 H2 H3 H4.
  destruct (sextet_alphabet c1) as [A1 _]; [lia|].
  destruct (sextet_alphabet c2) as [A2 _]; [lia|].
  destruct (sextet_alphabet c3 H3) as [A3 B3].
  destruct (sextet_alphabet c4 H4) as [A4 B4].
  unfold base64Decode. rewrite !filter_base64_cons by done.
  cbn [decodeLoop]. by rewrite decodeRound_values by lia.
Qed.

Lemma base64Decode_group_witness :
  base64Decode (String.list_ascii_of_string "TWFuTQ==") = [77; 97; 110; 77].
Proof.
  change (String.list_ascii_of_string "TWFuTQ==")
    with ("T" :: "W" :: "F" :: "u" :: String.list_ascii_of_string "TQ==")%char.
  rewrite (base64Decode_group "T" "W" "F" "u"); [|by vm_compute..].
  change (String.list_ascii_of_string "TQ==") with ("T" :: "Q" :: "=" :: "=" :: [])%char.
  rewrite (base64Decode_group "T" "Q" "=" "="); [|by vm_compute..].
  reflexivity.
Defined.


Lemma list_ind4 {A} (P : list A -> Prop) :
  P [] -> (forall a, P [a]) -> (forall a b, P [a; b]) -> (forall a b c, P [a; b; c]) ->
  (forall a b c d l, P l -> P (a :: b :: c :: d :: l)) ->
  forall l, P l.
Proof.
  intros H0 H1 H2 H3 H4 l.
  assert (forall n l, (length l <= n)%nat -> P l) as Hall; [|by apply (Hall (length l))].
  clear l. induction n as [|n IH]; intros l Hl.
  - destruct l; [done|simpl in Hl; lia].
  - destruct l as [|a [|b [|c [|d l]]]]; try done.
    apply H4, IH. simpl in Hl. lia.
Qed.

Lemma decodeRound_bytes ch1 ch2 ch3 ch4 :
  Forall (fun v => 0 <= v <= 255) (decodeRound ch1 ch2 ch3 ch4)
  /\ (length (decodeRound ch1 ch2 ch3 ch4) <= 3)%nat.
Proof.
  unfold decodeRound.
  destruct (indexOf chars ch3 =? 64); [|destruct (indexOf chars ch4 =? 64)];
    (split; [repeat constructor; apply byte_in_range|simpl; lia]).
Qed.

Lemma decodeLoop_bytes str :
  Forall (fun v => 0 <= v <= 255) (decodeLoop str)
  /\ (length (decodeLoop str) <= 3 * ((length str + 3) / 4))%nat.
Proof.
  induction str as [|a|a b|a b c|a b c d str [IHbytes IHlen]] using list_ind4.
  - split; [constructor|simpl; lia].
  - destruct (decodeRound_bytes (Some a) None None None). by split.
  - destruct (decodeRound_bytes (Some a) (Some b) None None). by split.
  - destruct (decodeRound_bytes (Some a) (Some b) (Some c) None). by split.
  - destruct (decodeRound_bytes (Some a) (Some b) (Some c) (Some d)) as [Hbytes Hlen].
    cbn [decodeLoop]. split; [by apply Forall_app|].
    rewrite length_app. cbn [length].
    replace (S (S (S (S (length str)))) + 3)%nat with (length str + 3 + 1 * 4)%nat by lia.
    rewrite Nat.div_add by lia. lia.
Qed.

Lemma decodeLoop_completed str :
  decodeLoop str
  = decodeLoop (str ++ repeat "A"%char ((4 - length str mod 4) mod 4)).
Proof.
  induction str as [|a|a b|a b c|a b c d str IH] using list_ind4; try reflexivity.
  - change ((4 - length [a; b; c] mod 4) mod 4)%nat with 1%nat.
    cbn [repeat app decodeLoop]. by rewrite app_nil_r.
  - replace (length (a :: b :: c :: d :: str)) with (length str + 1 * 4)%nat
      by (simpl; lia).
    rewrite Nat.Div0.mod_add. cbn [app decodeLoop]. by rewrite <- IH.
Qed.

Lemma filter_base64_all str :
  Forall (fun c => isBase64Char c = true) str ->
  filter (fun c => isBase64Char c = true) str = str.
Proof.
  induction 1 as [|c str Hc _ IH]; [done|]. by rewrite filter_cons_True, IH.
Qed.

(** X15. On every string the decoder returns char codes between 0 and
    255, at most three for every four characters read; a character
    outside the alphabet is skipped wherever it stands; and a last group
    cut short is decoded as if it were completed with the letter A, whose
    position in [chars] is the 0 that [indexOf] returns for the empty
    string read past the end. *)
Theorem base64Decode_any_string (str : list Ascii.ascii) :
  Forall (fun v => 0 <= v <= 255) (base64Decode str)
  /\ (length (base64Decode str) <= 3 * ((length str + 3) / 4))%nat
  /\ (forall before c after,
        str = before ++ c :: after -> isBase64Char c = false ->
        base64Decode str = base64Decode (before ++ after))
  /\ base64Decode str
     = base64Decode
         (str ++ repeat "A"%char
                   ((4 - length (filter (fun c => isBase64Char c = true) str) mod 4) mod 4)).
Proof.
  unfold base64Decode.
  destruct (decodeLoop_bytes (filter (fun c => isBase64Char c = true) str)) as [Hbytes Hlen].
  split; [done|]. split.
  { etrans; [exact Hlen|]. apply Nat.mul_le_mono_l, Nat.Div0.div_le_mono.
    pose proof (length_filter (fun c => isBase64Char c = true) str). lia. }
  split.
  { intros before c after -> Hc. rewrite !filter_app, filter_cons_False; [done|].
    by rewrite Hc. }
  rewrite filter_app, (filter_base64_all (repeat _ _)).
  - apply decodeLoop_completed.
  - apply Forall_forall. intros c Hc%list_elem_of_In%repeat_spec. by subst c.
Qed.

Lemma split_nonempty sep s : split sep s <> [].
Proof.
  induction s as [|c s IH]; [done|]. simpl.
  destruct (Ascii.eqb c sep); [done|]. by destruct (split sep s).
Qed.

Lemma split_length sep s :
  length (split sep s) = S (length (filter (fun c => c = sep) s)).
Proof.
  induction s as [|c s IH]; [done|]. simpl.
  destruct (Ascii.eqb c sep) eqn:E.
  - apply Ascii.eqb_eq in E. rewrite filter_cons_True by done. simpl. by rewrite IH.
  - apply Ascii.eqb_neq in E. rewrite filter_cons_False by done.
    pose proof (split_nonempty sep s). by destruct (split sep s).
Qed.

Lemma split_no_sep sep l : sep ∉ l -> split sep l = [l].
Proof.
  induction l as [|c l IH]; [done|]. intros [Hc Hl]%not_elem_of_cons. simpl.
  rewrite (proj2 (Ascii.eqb_neq c sep)) by done. by rewrite IH.
Qed.

Lemma split_app_sep sep l r : sep ∉ l -> split sep (l ++ sep :: r) = l :: split sep r.
Proof.
  induction l as [|c l IH]; intros Hl.
  - simpl. by rewrite Ascii.eqb_refl.
  - apply not_elem_of_cons in Hl as [Hc Hl]. simpl.
    rewrite (proj2 (Ascii.eqb_neq c sep)) by done. by rewrite IH.
Qed.

(** X16. [decodeJWT] rejects a token for its shape exactly when the token
    does not contain two dots; of a token [header.payload.signature] it
    decodes the payload alone, so the header and the signature do not
    influence the result and are never checked. *)
Theorem decodeJWT_reads_only_the_payload
    (token header payload signature : list Ascii.ascii) :
  (decodeJWT_decoded token = None
   <-> length (filter (fun c => c = "."%char) token) <> 2%nat)
  /\ ("."%char ∉ header -> "."%char ∉ payload -> "."%char ∉ signature ->
      decodeJWT_decoded (header ++ "."%char :: payload ++ "."%char :: signature)
      = Some (base64Decode (paddedPayload payload))).
Proof.
  split.
  - unfold decodeJWT_decoded. pose proof (split_length "." token) as Hlen.
    destruct (split "." token) as [|p1 [|p2 [|p3 [|p4 parts]]]]; simpl in Hlen;
      split; try done; lia.
  - intros Hh Hp Hs. unfold decodeJWT_decoded.
    by rewrite split_app_sep, split_app_sep, split_no_sep.
Qed.

Lemma url_char_sextet c :
  isBase64UrlChar c = true ->
  0 <= sextet (if Ascii.eqb (if Ascii.eqb c "-" then "+"%char else c) "_"
               then "/"%char else if Ascii.eqb c "-" then "+"%char else c) < 64.
Proof.
  destruct c as [[] [] [] [] [] [] [] []]; vm_compute; first [done|split; congruence].
Qed.

Lemma decodeRound_padded_length c1 c2 c3 c4 :
  0 <= sextet c1 < 64 -> 0 <= sextet c2 < 64 -> 0 <= sextet c3 < 64 -> 0 <= sextet c4 < 64 ->
  length (decodeRound (Some c1) (Some c2) (Some c3) (Some c4)) = 3%nat
  /\ length (decodeRound (Some c1) (Some c2) (Some c3) (Some padChar)) = 2%nat
  /\ length (decodeRound (Some c1) (Some c2) (Some padChar) (Some padChar)) = 1%nat
  /\ length (decodeRound (Some c1) (Some padChar) (Some padChar) (Some padChar)) = 1%nat.
Proof.
  intros H1 H2 H3 H4. unfold decodeRound.
  fold (sextet c1) (sextet c2) (sextet c3) (sextet c4) (sextet padChar).
  change (sextet padChar) with 64. cbn [Z.eqb Pos.eqb].
  rewrite (proj2 (Z.eqb_neq (sextet c3) 64)) by lia.
  rewrite (proj2 (Z.eqb_neq (sextet c4) 64)) by lia. done.
Qed.

Lemma decodeLoop_padded_length l :
  Forall (fun c => 0 <= sextet c < 64) l ->
  length (decodeLoop
            (l ++ repeat padChar
                    (if Nat.eqb (length l mod 4) 0 then 0 else 4 - length l mod 4)))
  = (3 * (length l / 4)
     + match (length l mod 4)%nat with 0 => 0 | 1 => 1 | 2 => 1 | _ => 2 end)%nat.
Proof.
  induction l as [|a|a b|a b c|a b c d l IH] using list_ind4; intros Hl.
  - done.
  - apply Forall_cons in Hl as [Ha _].
    cbn [length]. change (1 mod 4)%nat with 1%nat. change (1 / 4)%nat with 0%nat.
    cbn [Nat.eqb Nat.sub repeat app decodeLoop].
    destruct (decodeRound_padded_length a a a a) as (_ & _ & _ & Hround); [done..|].
    rewrite app_nil_r, Hround. reflexivity.
  - apply Forall_cons in Hl as [Ha [Hb _]%Forall_cons].
    cbn [length]. change (2 mod 4)%nat with 2%nat. change (2 / 4)%nat with 0%nat.
    cbn [Nat.eqb Nat.sub repeat app decodeLoop].
    destruct (decodeRound_padded_length a b a a) as (_ & _ & Hround & _); [done..|].
    rewrite app_nil_r, Hround. reflexivity.
  - apply Forall_cons in Hl as [Ha [Hb [Hc _]%Forall_cons]%Forall_cons].
    cbn [length]. change (3 mod 4)%nat with 3%nat. change (3 / 4)%nat with 0%nat.
    cbn [Nat.eqb Nat.sub repeat app decodeLoop].
    destruct (decodeRound_padded_length a b c a) as (_ & Hround & _); [done..|].
    rewrite app_nil_r, Hround. reflexivity.
  - apply Forall_cons in Hl as [Ha [Hb [Hc [Hd Hl]%Forall_cons]%Forall_cons]%Forall_cons].
    replace (length (a :: b :: c :: d :: l)) with (length l + 1 * 4)%nat by (simpl; lia).
    rewrite Nat.Div0.mod_add, Nat.div_add by lia.
    cbn [app decodeLoop]. rewrite length_app, (IH Hl).
    destruct (decodeRound_padded_length a b c d) as (-> & _); [done..|]. lia.
Qed.

(** X17. For a token [header.payload.signature] whose payload is written
    in the base64url alphabet, the text [decodeJWT] hands to [base64Decode]
    has a length that is a multiple of four and is decoded without any
    character being dropped; from a payload of [n] characters it yields
    [3 (n / 4)] bytes plus 0, 1, 1 or 2 for [n mod 4] = 0, 1, 2 or 3, so a
    payload with one character too many still yields a byte instead of
    being rejected. *)
Theorem decodeJWT_payload_length (header payload signature : list Ascii.ascii) :
  "."%char ∉ header -> "."%char ∉ signature ->
  Forall (fun c => isBase64UrlChar c = true) payload ->
  exists decoded,
    decodeJWT_decoded (header ++ "."%char :: payload ++ "."%char :: signature) = Some decoded
    /\ decoded = decodeLoop (paddedPayload payload)
    /\ (length (paddedPayload payload) mod 4 = 0)%nat
    /\ length decoded
       = (3 * (length payload / 4)
          + match (length payload mod 4)%nat with 0 => 0 | 1 => 1 | 2 => 1 | _ => 2 end)%nat
    /\ Forall (fun v => 0 <= v <= 255) decoded.
Proof.
  intros Hh Hs Hurl.
  assert ("."%char ∉ payload) as Hp.
  { intros Hin. rewrite Forall_forall in Hurl. by pose proof (Hurl _ Hin). }
  exists (decodeLoop (paddedPayload payload)).
  assert (Forall (fun c => 0 <= sextet c < 64)
            (replaceAll "_" "/" (replaceAll "-" "+" payload))) as Hsextets.
  { unfold replaceAll. rewrite map_map. apply Forall_map.
    eapply Forall_impl; [exact Hurl|]. intros c Hc. by apply url_char_sextet. }
  assert (length (replaceAll "_" "/" (replaceAll "-" "+" payload)) = length payload)
    as Hsame by (unfold replaceAll; by rewrite !length_map).
  assert (paddedPayload payload
          = replaceAll "_" "/" (replaceAll "-" "+" payload)
            ++ repeat padChar
                 (if Nat.eqb (length payload mod 4) 0 then 0 else 4 - length payload mod 4))
    as Hpadded.
  { unfold paddedPayload. rewrite Hsame.
    destruct (Nat.eqb (length payload mod 4) 0); simpl; [by rewrite app_nil_r|done]. }
  assert (Forall (fun c => isBase64Char c = true) (paddedPayload payload)) as Halphabet.
  { rewrite Hpadded. apply Forall_app. split.
    - eapply Forall_impl; [exact Hsextets|]. intros c Hc. cbv beta in Hc. apply sextet_alphabet. lia.
    - apply Forall_forall. intros c Hc%list_elem_of_In%repeat_spec. by subst c. }
  split.
  { unfold decodeJWT_decoded. rewrite split_app_sep, split_app_sep, split_no_sep by done.
    unfold base64Decode. by rewrite filter_base64_all. }
  split; [done|]. split.
  { rewrite Hpadded, length_app, repeat_length, Hsame.
    pose proof (Nat.mod_upper_bound (length payload) 4).
    pose proof (Nat.div_mod_eq (length payload) 4).
    destruct (Nat.eqb (length payload mod 4) 0) eqn:E.
    - apply Nat.eqb_eq in E. by rewrite Nat.add_0_r.
    - apply Nat.eqb_neq in E.
      replace (length payload + (4 - length payload mod 4))%nat
        with ((length payload / 4 + 1) * 4)%nat by lia.
      apply Nat.Div0.mod_mul. }
  split; [|apply decodeLoop_bytes].
  rewrite Hpadded. rewrite <- Hsame.
  rewrite (decodeLoop_padded_length _ Hsextets). done.
Qed.

Lemma decodeJWT_payload_length_witness :
  exists decoded,
    decodeJWT_decoded (String.list_ascii_of_string "e30.eyJzdWIiOiJ1MSJ9.c2ln") = Some decoded
    /\ length decoded = 12%nat.
Proof.
  destruct (decodeJWT_payload_length
              (String.list_ascii_of_string "e30")
              (String.list_ascii_of_string "eyJzdWIiOiJ1MSJ9")
              (String.list_ascii_of_string "c2ln"))
    as (decoded & Hdecoded & _ & _ & Hlength & _).
  - vm_compute. intros H. repeat (apply elem_of_cons in H as [H|H]; [discriminate|]).
    by apply elem_of_nil in H.
  - vm_compute. intros H. repeat (apply elem_of_cons in H as [H|H]; [discriminate|]).
    by apply elem_of_nil in H.
  - vm_compute. repeat constructor.
  - exists decoded. split; [exact Hdecoded|exact Hlength].
Defined.

(** ** The matchmaking queue *)

Lemma queueStep_keeps_no_match q q' :
  queueStep q q' ->
  q_gameId q = None /\ q_status q <> Matched ->
  q_gameId q' = None /\ q_status q' <> Matched.
Proof.
  intros Hstep [Hid Hstatus]. destruct Hstep as
    [q q' Hset|q token socket|q token|q parsed|q|q|q].
  - by destruct Hset as [-> | [-> | [-> | ->]]].
  - unfold connect_resume. by destruct (truthyStr token).
  - done.
  - destruct parsed as [[position|gameId tokens data|message|]|]; simpl; try done.
    by destruct position.
  - done.
  - unfold ws_onclose. destruct (q_status q) eqn:E; simpl; try done; split; congruence.
  - done.
Qed.

(** X18. The service never keeps a match: between any two of its handlers,
    whatever messages, socket events and calls came before, [getGameId()]
    is [null] and [getStatus()] is not ['matched']; the game id and the
    ['matched'] status are only ever passed to the listeners. *)
Theorem queue_never_keeps_the_match (q : QueueService) :
  queueReachable q -> q_gameId q = None /\ q_status q <> Matched.
Proof.
  induction 1 as [|q q' _ IH Hstep]; [done|].
  by apply (queueStep_keeps_no_match q q').
Qed.

Lemma queue_never_keeps_the_match_witness :
  q_gameId
    (ws_onmessage (Some (MatchedMessage (Some "g-1") None None))
       (connect_resume (Some "token") 0 (setOnMatched newQueueService)).1.1).1
  = None.
Proof.
  apply queue_never_keeps_the_match.
  eapply queue_next; [|apply queue_message].
  eapply queue_next; [|apply queue_connect].
  eapply queue_next; [apply queue_new|].
  apply queue_listener. tauto.
Defined.

Lemma matched_message_shape q gameId playerTokens data :
  map param_gameId
    (routesPushed (handleMessage (MatchedMessage gameId playerTokens data) q).2)
  = (if q_onMatched q
     then [default "pending" (orElse (data ≫= data_gameId) gameId)]
     else []).
Proof.
  simpl.
  destruct (q_onStatusChange q), (q_ws q) as [held|], (q_onMatched q); simpl; try done;
    unfold matchedPayload; destruct gameId as [g|], data as [[dg dt dm dn du]|]; simpl;
    try done; by destruct dg.
Qed.

(** X19. A ['matched'] message, on any state of the service: the status
    listener is told ['matched'] once and nothing afterwards, the socket
    held is closed, and the service is left idle with no position and no
    game id. The match listener receives [message.gameId], else
    [data.gameId], else ['pending']; the profile screen then routes to
    [data.gameId] first and to [message.gameId] only when [data] has
    none, so when both are present it is the id of [data] that the game
    screen opens. *)
Theorem matched_message_routes (q : QueueService) (gameId : option string)
    (playerTokens : option (list string)) (data : option MatchData) :
  let '(q', effects) := handleMessage (MatchedMessage gameId playerTokens data) q in
  q' = mkQueue None Idle None None (q_onStatusChange q) (q_onQueuePositionChange q)
         (q_onMatched q) (q_onError q)
  /\ statusesNotified effects = (if q_onStatusChange q then [Matched] else [])
  /\ (forall socket, SocketClose socket ∈ effects <-> q_ws q = Some socket)
  /\ (forall id payload,
        NotifyMatched id payload ∈ effects ->
        id = default "pending" (orElse gameId (data ≫= data_gameId)))
  /\ map param_gameId (routesPushed effects)
     = (if q_onMatched q
        then [default "pending" (orElse (data ≫= data_gameId) gameId)]
        else []).
Proof.
  simpl. split; [done|]. split.
  { by destruct (q_onStatusChange q), (q_ws q), (q_onMatched q). }
  split.
  { intros socket.
    destruct (q_onStatusChange q), (q_ws q) as [held|], (q_onMatched q); simpl;
      rewrite ?elem_of_cons, ?elem_of_nil; split; intros H;
      repeat match goal with
             | H : _ \/ _ |- _ => destruct H as [H|H]
             end; try done; try congruence;
      try (injection H as ->; tauto). }
  split.
  { intros id payload.
    destruct (q_onStatusChange q), (q_ws q) as [held|], (q_onMatched q); simpl;
      rewrite ?elem_of_cons, ?elem_of_nil; intros H;
      repeat match goal with
             | H : _ \/ _ |- _ => destruct H as [H|H]
             end; try done; by injection H as -> _. }
  destruct (q_onStatusChange q), (q_ws q) as [held|], (q_onMatched q); simpl; try done;
    unfold matchedPayload; destruct gameId as [g|], data as [[dg dt dm dn du]|]; simpl;
    try done; by destruct dg.
Qed.

(** X20. A match announced without any game id reaches the game screen as
    the game ['pending'], and on that game the screen sends nothing: the
    attack handler makes no request and leaves the session as it is,
    whatever the session holds, and confirming the board never submits
    it. *)
Theorem pending_match_sends_nothing (q : QueueService)
    (playerTokens : option (list string)) (data : option MatchData)
    (s : Session) (r c : JNumber)
    (confirmed submitting : bool) (token : option string) (p : Placement) :
  q_onMatched q = true ->
  data ≫= data_gameId = None ->
  displayGameId s = "pending" ->
  map param_gameId (routesPushed (handleMessage (MatchedMessage None playerTokens data) q).2)
  = ["pending"]
  /\ handleFireAt_begin s r c = (s, None)
  /\ (forall request,
        handleConfirmBoard_begin confirmed submitting (displayGameId s) token p
        <> ConfirmSubmitted request).
Proof.
  intros Hlistener Hdata Hgame. split; [|split].
  - pose proof (matched_message_shape q None playerTokens data) as Hshape.
    rewrite Hlistener, Hdata in Hshape. exact Hshape.
  - unfold handleFireAt_begin. rewrite Hgame. by destruct (canFire s).
  - intros request. unfold handleConfirmBoard_begin. rewrite Hgame.
    destruct (confirmed || submitting); [done|]. by destruct (placedShapesLeft p).
Qed.

Lemma pending_match_sends_nothing_witness :
  handleFireAt_begin (initialSession "pending" "") (Fin 0) (Fin 0)
  = (initialSession "pending" "", None).
Proof.
  destruct (pending_match_sends_nothing (setOnMatched newQueueService) None
              (Some emptyData) (initialSession "pending" "") (Fin 0) (Fin 0)
              false false None initialPlacement) as (_ & Hfire & _);
    [reflexivity..|exact Hfire].
Defined.

(** X21. Leaving the queue is silent: [disconnect()] resets the service
    without calling the status listener, which hears ['idle'] only when
    the close event of the socket arrives; after an error, reported by a
    message, by the socket or by a [connect()] without a token, that event
    changes nothing and the status stays ['error']. *)
Theorem disconnect_is_silent (q : QueueService) (errorMessage : string) (socket : nat) :
  statusesNotified (disconnect q).2 = []
  /\ ws_onclose (disconnect q).1
     = ((disconnect q).1, if q_onStatusChange q then [NotifyStatus Idle] else [])
  /\ ws_onclose (handleError errorMessage q).1 = ((handleError errorMessage q).1, [])
  /\ ws_onclose (connect_resume None socket q).1.1 = ((connect_resume None socket q).1.1, [])
  /\ q_status (ws_onclose (ws_onerror q).1).1 = QueueError.
Proof.
  split; [unfold disconnect; simpl; by destruct (q_ws q)|]. by repeat split.
Qed.

(** ** Errors of the attack request *)

Lemma nonBlankString_nonempty v s : nonBlankString v = Some s -> s <> "".
Proof.
  destruct v as [| | | |t|]; simpl; try done.
  destruct (String.eqb (trim t) "") eqn:E; [done|]. intros [= ->] ->.
  by vm_compute in E.
Qed.

Lemma append_prefix_nonempty prefix s : prefix <> "" -> String.append prefix s <> "".
Proof. by destruct prefix. Qed.

Lemma orDefault_nonempty a b : b <> "" -> orDefault a b <> "".
Proof.
  intros Hb. unfold orDefault. destruct a as [s|]; [|done].
  destruct (String.eqb s "") eqn:E; [done|]. by apply String.eqb_neq in E.
Qed.

(** X22. Every error [gameApi.fireAttack] rejects with is an [Error] with
    a message that is not empty, so after a failed attack the feedback
    line shows that message and the controller's own text for an error
    without message is never used; and an [ok] response whose body cannot
    be parsed is an answer with no result: nothing is recorded, no
    feedback is set and nothing is submitting afterwards. *)
Theorem failed_attack_shows_service_message
    (token : option string) (call : FireCall) (reply : FetchReply)
    (closure s : Session) (r c : JNumber) (error : Thrown) :
  fireAttack token call reply = Rejected error ->
  (exists message,
      error = ThrownError message /\ message <> ""
      /\ attackFeedback (handleFireAt_settle closure r c (Rejected error) s) = Some message
      /\ selfAttackHistory (handleFireAt_settle closure r c (Rejected error) s)
         = selfAttackHistory s)
  /\ handleFireAt_settle closure r c (fireAttack_settle (HttpOk None)) s
     = setIsSubmittingAttack false s.
Proof.
  intros Hfire. split; [|done].
  assert (exists message, error = ThrownError message /\ message <> "")
    as (message & -> & Hmessage).
  { unfold fireAttack, fireAttack_request in Hfire.
    destruct (negb (Number_isFinite (call_x call)) || negb (Number_isFinite (call_y call))).
    { injection Hfire as <-. by eexists. }
    destruct (truthyStr token); [|injection Hfire as <-; by eexists].
    destruct reply as [networkMessage|statusText body|body]; simpl in Hfire; [| |done].
    - injection Hfire as <-. eexists. split; [done|]. by apply orDefault_nonempty.
    - injection Hfire as <-. eexists. split; [done|]. unfold failureMessage.
      destruct body as [errorData|]; [|by apply append_prefix_nonempty].
      destruct (nonBlankString (err_message errorData)) eqn:E1;
        [by apply nonBlankString_nonempty in E1|].
      destruct (nonBlankString (err_error errorData)) eqn:E2;
        [by apply nonBlankString_nonempty in E2|].
      by apply append_prefix_nonempty. }
  exists message. split; [done|]. split; [done|].
  simpl. apply String.eqb_neq in Hmessage. by rewrite Hmessage.
Qed.

Lemma failed_attack_shows_service_message_witness :
  attackFeedback
    (handleFireAt_settle readySession (Fin 1) (Fin 1)
       (fireAttack (Some "token") (mkFireCall "g-1" (Fin 1) (Fin 1))
          (HttpFailure "409" (Some (mkErrorBody (JStr "  ") (JStr "Not your turn")))))
       readySession)
  = Some "Not your turn".
Proof.
  destruct (failed_attack_shows_service_message (Some "token")
              (mkFireCall "g-1" (Fin 1) (Fin 1))
              (HttpFailure "409" (Some (mkErrorBody (JStr "  ") (JStr "Not your turn"))))
              readySession readySession (Fin 1) (Fin 1) (ThrownError "Not your turn"))
    as [(message & Herror & _ & Hfeedback & _) _]; [reflexivity|].
  injection Herror as <-. exact Hfeedback.
Defined.

(** ** Manual attack markers *)

Lemma selfDisplayHits_mergeCells selfHits markers :
  selfDisplayHits selfHits markers = mergeCells selfHits markers.
Proof. reflexivity. Qed.

Lemma strict_eq_num_same a b x :
  strict_eq_num a b = true -> strict_eq_num x a = strict_eq_num x b.
Proof. destruct a, b, x; simpl; try done; by intros ->%Z.eqb_eq. Qed.

Lemma unrecorded_at r c selfHits selfMisses cell :
  strict_eq_num (row cell) r && strict_eq_num (col cell) c = true ->
  unrecorded selfHits selfMisses cell
  = negb (someAt r c selfHits) && negb (someAt r c selfMisses).
Proof.
  intros [Hr Hc]%andb_prop. unfold unrecorded, someAt.
  assert (forall cells,
            existsb (fun other => strict_eq_num (row other) (row cell)
                                  && strict_eq_num (col other) (col cell)) cells
            = existsb (fun other => strict_eq_num (row other) r
                                    && strict_eq_num (col other) c) cells) as Hsame.
  { intros cells. induction cells as [|other cells IH]; [done|]. simpl.
    by rewrite IH, (strict_eq_num_same _ _ _ Hr), (strict_eq_num_same _ _ _ Hc). }
  by rewrite !Hsame.
Qed.

Lemma someAt_cons r c cell cells :
  someAt r c (cell :: cells)
  = strict_eq_num (row cell) r && strict_eq_num (col cell) c || someAt r c cells.
Proof. reflexivity. Qed.

Lemma someAt_filter_unrecorded r c selfHits selfMisses markers :
  someAt r c (filter (fun cell => unrecorded selfHits selfMisses cell = true) markers)
  = someAt r c markers && (negb (someAt r c selfHits) && negb (someAt r c selfMisses)).
Proof.
  induction markers as [|cell markers IH]; [done|]. rewrite (someAt_cons r c cell markers).
  destruct (strict_eq_num (row cell) r && strict_eq_num (col cell) c) eqn:Eat.
  - rewrite <- (unrecorded_at r c selfHits selfMisses cell Eat).
    destruct (unrecorded selfHits selfMisses cell) eqn:E.
    + rewrite filter_cons_True by done. by rewrite someAt_cons, Eat.
    + rewrite filter_cons_False by (rewrite E; done). rewrite IH.
      rewrite <- (unrecorded_at r c selfHits selfMisses cell Eat), E.
      by rewrite andb_false_r.
  - destruct (unrecorded selfHits selfMisses cell) eqn:E.
    + rewrite filter_cons_True by done. rewrite someAt_cons, Eat. apply IH.
    + rewrite filter_cons_False by (rewrite E; done). apply IH.
Qed.

Lemma someAt_markersEffect r c selfHits selfMisses markers :
  someAt r c (markersEffect selfHits selfMisses markers)
  = someAt r c markers && (negb (someAt r c selfHits) && negb (someAt r c selfMisses)).
Proof.
  destruct markers as [|cell markers]; [done|]. apply someAt_filter_unrecorded.
Qed.

Lemma someAt_addMarker r c markers :
  Number_isFinite r = true -> Number_isFinite c = true ->
  someAt r c (addMarker r c markers) = true.
Proof.
  intros Hr Hc. unfold addMarker. destruct (someAt r c markers) eqn:E; [done|].
  rewrite someAt_app. unfold someAt at 2. simpl.
  by rewrite !strict_eq_num_finite_refl, orb_true_r.
Qed.

(** X23. A press on a cell of the opponent grid marks it whether or not an
    attack can be made: once the marker effect has run, the cell is drawn
    among the hits exactly when it is a recorded hit or is not a recorded
    miss. So with the fire gate closed the press sends nothing and changes
    no session state, and a cell never attacked is still drawn as a hit. *)
Theorem press_draws_cell_as_hit (s : Session) (markers : list AttackCell) (r c : JNumber) :
  Number_isFinite r = true -> Number_isFinite c = true ->
  let '(s', request, markers') := onCellPress r c s markers in
  let selfHits := hits (selfAttackHistory s') in
  let selfMisses := misses (selfAttackHistory s') in
  someAt r c (selfDisplayHits selfHits (markersEffect selfHits selfMisses markers'))
  = someAt r c selfHits || negb (someAt r c selfMisses)
  /\ selfAttackHistory s' = selfAttackHistory s
  /\ (canFire s = false -> s' = s /\ request = None).
Proof.
  intros Hr Hc. unfold onCellPress.
  assert (exists s' request,
            (if canFire s then handleFireAt_begin s r c else (s, None)) = (s', request)
            /\ selfAttackHistory s' = selfAttackHistory s
            /\ (canFire s = false -> s' = s /\ request = None))
    as (s' & request & -> & Hsame & Hclosed).
  { destruct (canFire s) eqn:Egate; [|by eexists _, _].
    unfold handleFireAt_begin. rewrite Egate. simpl.
    destruct (String.eqb (displayGameId s) "" || String.eqb (displayGameId s) "pending");
      [by eexists _, _|].
    destruct (alreadyAttacked s r c); by eexists _, _. }
  split; [|by split].
  rewrite selfDisplayHits_mergeCells, someAt_mergeCells, someAt_markersEffect.
  rewrite someAt_addMarker by done.
  by destruct (someAt r c (hits _)), (someAt r c (misses _)).
Qed.

Lemma press_draws_cell_as_hit_witness :
  someAt (Fin 3) (Fin 4)
    (selfDisplayHits [] (markersEffect [] [] (addMarker (Fin 3) (Fin 4) [])))
  = true.
Proof.
  pose proof (press_draws_cell_as_hit freshSession [] (Fin 3) (Fin 4) eq_refl eq_refl)
    as Hpress.
  destruct Hpress as [Hdrawn _]. exact Hdrawn.
Defined.

(** ** The board matrix on any placement value *)

Lemma inRange_integer z : inRange (Finite (inject_Z z)) = (0 <=? z) && (z <? 10).
Proof.
  unfold inRange, Qle_bool, inject_Z. simpl. rewrite !Z.mul_1_r.
  f_equal. destruct (Z.leb_spec 10 z), (Z.ltb_spec z 10); simpl; try done; lia.
Qed.

Lemma arrayIndex_integer z :
  arrayIndex (Finite (inject_Z z)) = if 0 <=? z then Some (Z.to_nat z) else None.
Proof.
  unfold arrayIndex, inject_Z. simpl. rewrite Z.mod_1_r, Z.div_1_r. simpl.
  by rewrite andb_true_r.
Qed.

Lemma arrayIndex_inRange n i : inRange n = true -> arrayIndex n = Some i -> (i < 10)%nat.
Proof.
  destruct n as [q| |]; simpl; try done.
  unfold Qle_bool, inject_Z. simpl. rewrite !Z.mul_1_r.
  intros [_ Hlt%negb_true_iff%Z.leb_gt]%andb_prop.
  destruct ((0 <=? Qnum q) && (Qnum q mod Z.pos (Qden q) =? 0)) eqn:E; [|done].
  apply andb_prop in E as [Hpos%Z.leb_le _]. intros [= <-].
  assert (Qnum q / Z.pos (Qden q) < 10) by (apply Z.div_lt_upper_bound; lia).
  pose proof (Z.div_pos (Qnum q) (Z.pos (Qden q))). lia.
Qed.

Lemma alter_as_insert {A} (f : A -> A) (i : nat) (l : list A) (x : A) :
  l !! i = Some x -> alter f i l = <[i := f x]> l.
Proof.
  revert i. induction l as [|y l IH]; intros [|i]; simpl; try done.
  - by intros [= ->].
  - intros H. f_equal. by apply IH.
Qed.

Section BoardValueFacts.

Variable placed : list PlacedValue.

Local Abbreviation invariant :=
  (fun board : Board =>
     length board = 10%nat
     /\ Forall (fun cells => length cells = 10%nat /\ Forall (entryOfPlaced placed) cells) board).

Lemma assignCell_invariant shape board cell :
  shape ∈ placed -> passesGuard cell = true -> is_Some (arrayIndex (fst cell)) ->
  invariant board ->
  exists board', assignCell (shapeLabel (pv_id shape)) board (fst cell) (snd cell) = Some board'
                 /\ invariant board'.
Proof.
  intros Hshape [Hrow Hcol]%andb_prop [i Hi] [Hlen Hrows]. unfold assignCell. rewrite Hi.
  pose proof (arrayIndex_inRange _ _ Hrow Hi) as Hlt.
  destruct (lookup_lt_is_Some_2 board i) as [cells Hcells]; [lia|]. rewrite Hcells.
  eexists. split; [done|]. split; [by rewrite length_insert|].
  apply Forall_insert; [done|].
  rewrite Forall_forall in Hrows.
  destruct (Hrows cells) as [Hcellslen Hentries]; [by eapply list_elem_of_lookup_2|].
  unfold assignElement. destruct (arrayIndex (snd cell)) as [j|] eqn:Ej; [|done].
  pose proof (arrayIndex_inRange _ _ Hcol Ej) as Hj.
  rewrite (proj2 (Nat.ltb_lt j (length cells))) by lia.
  split; [by rewrite length_insert|].
  apply Forall_insert; [done|]. right. by exists shape.
Qed.

Lemma writeCells_value_invariant shape cells board :
  shape ∈ placed ->
  (forall cell, cell ∈ cells -> passesGuard cell = true -> is_Some (arrayIndex (fst cell))) ->
  invariant board ->
  exists board',
    fold_left (writeCellValue (shapeLabel (pv_id shape))) cells (Some board) = Some board'
    /\ invariant board'.
Proof.
  intros Hshape. revert board.
  induction cells as [|cell cells IH]; intros board Hcells Hb; [by exists board|].
  simpl. destruct (passesGuard cell) eqn:E.
  - destruct (assignCell_invariant shape board cell) as (board' & -> & Hb'); try done.
    { apply Hcells; [by left|done]. }
    apply IH; [|done]. intros c Hc. apply Hcells. by right.
  - apply IH; [|done]. intros c Hc. apply Hcells. by right.
Qed.

Lemma writeShapes_value_invariant (l : list PlacedValue) board :
  (forall shape, shape ∈ l -> shape ∈ placed) -> rowsIntegral l -> invariant board ->
  exists board',
    fold_left
      (fun board shape =>
         fold_left (writeCellValue (shapeLabel (pv_id shape))) (pv_cells shape) board)
      l (Some board) = Some board'
    /\ invariant board'.
Proof.
  revert board. induction l as [|shape l IH]; intros board Hsub Hrows Hb; [by exists board|].
  simpl.
  destruct (writeCells_value_invariant shape (pv_cells shape) board) as (board' & -> & Hb').
  - apply Hsub. by left.
  - intros cell Hcell. apply (Hrows shape cell); [by left|done].
  - done.
  - apply IH; [| |done].
    + intros sh Hsh. apply Hsub. by right.
    + intros sh cell Hsh. apply Hrows. by right.
Qed.

End BoardValueFacts.

Lemma writeCells_value_clip label cells board :
  fold_left (writeCellValue label) cells board
  = fold_left (writeCellValue label) (filter (fun cell => passesGuard cell = true) cells) board.
Proof.
  revert board. induction cells as [|cell cells IH]; intros board; [done|].
  destruct (passesGuard cell) eqn:E.
  - rewrite filter_cons_True by done. simpl. apply IH.
  - rewrite filter_cons_False by (rewrite E; done). simpl. rewrite <- IH.
    unfold writeCellValue at 2. rewrite E. by destruct board.
Qed.

Lemma writeCellValue_integer label board r c :
  boardDims board ->
  writeCellValue label (Some board) (Finite (inject_Z r), Finite (inject_Z c))
  = Some (writeCell label board (r, c)).
Proof.
  intros [Hlen Hrows]. unfold writeCellValue, passesGuard, writeCell, inGrid.
  cbn [fst snd]. rewrite !inRange_integer, andb_assoc.
  destruct ((0 <=? r) && (r <? 10) && (0 <=? c) && (c <? 10)) eqn:E; [|done].
  apply andb_prop in E as [[[Hr0%Z.leb_le Hr9%Z.ltb_lt]%andb_prop Hc0%Z.leb_le]%andb_prop
                             Hc9%Z.ltb_lt].
  unfold assignCell. rewrite arrayIndex_integer, (proj2 (Z.leb_le 0 r)) by done.
  destruct (lookup_lt_is_Some_2 board (Z.to_nat r)) as [cells Hcells]; [lia|].
  rewrite Hcells, (alter_as_insert _ _ _ _ Hcells). do 2 f_equal.
  unfold assignElement. rewrite arrayIndex_integer, (proj2 (Z.leb_le 0 c)) by done.
  rewrite Forall_forall in Hrows.
  rewrite (Hrows cells) by (by eapply list_elem_of_lookup_2).
  by rewrite (proj2 (Nat.ltb_lt (Z.to_nat c) 10)) by lia.
Qed.

Lemma writeCells_value_integer label cells board :
  boardDims board ->
  fold_left (writeCellValue label)
    (map (fun cell => (Finite (inject_Z (fst cell)), Finite (inject_Z (snd cell)))) cells)
    (Some board)
  = Some (fold_left (writeCell label) cells board).
Proof.
  revert board. induction cells as [|[r c] cells IH]; intros board Hb; [done|].
  cbn [map fold_left fst snd]. rewrite writeCellValue_integer by done.
  apply IH. by apply boardDims_writeCell.
Qed.

Lemma buildBoardMatrix_any_integer placed :
  buildBoardMatrix_any (map ofPlaced placed) = Some (buildBoardMatrix placed).
Proof.
  unfold buildBoardMatrix_any, buildBoardMatrix.
  assert (boardDims emptyBoard) as Hb by apply boardDims_empty.
  revert Hb. generalize emptyBoard.
  induction placed as [|ps placed IH]; intros board Hb; [done|].
  cbn [map fold_left ofPlaced pv_id pv_cells]. rewrite writeCells_value_integer by done.
  apply IH. by apply boardDims_writeCells.
Qed.

Lemma rowsIntegral_ofPlaced placed : rowsIntegral (map ofPlaced placed).
Proof.
  intros shape cell (ps & -> & Hps)%list_elem_of_fmap Hcell Hguard.
  simpl in Hcell. apply list_elem_of_fmap in Hcell as ([r c] & -> & _).
  unfold passesGuard in Hguard. cbn [fst snd] in *.
  rewrite !inRange_integer in Hguard.
  apply andb_prop in Hguard as [[Hr _]%andb_prop _].
  rewrite arrayIndex_integer, Hr. by eexists.
Qed.

Lemma shapeLabel_other id :
  id ∉ (shape_id <$> shapes) ->
  shapeLabel id = if String.eqb id "constructor" then "Object" else id.
Proof.
  intros Hid. unfold shapeLabel.
  assert (shapesById !! id = None) as ->; [|done].
  unfold shapesById, shapes in *. cbn [fold_left shape_id fmap list_fmap] in *.
  rewrite !not_elem_of_cons in Hid. destruct Hid as (H1 & H2 & H3 & H4 & H5 & _).
  rewrite !lookup_insert_ne by done. apply lookup_empty.
Qed.

(** C10 (as amended). For every list of placed shapes in which no cell
    that passes the test of the loop has a fractional row (so for every
    list with integer cells, on or off the grid), building the matrix
    raises nothing and gives ten rows of ten entries, each [null] or the
    label of a placed shape; cells whose row or column is outside 0..9,
    [NaN] or infinite change nothing: the matrix is the one of the
    placement without them. On integer cells it is the matrix
    [buildBoardMatrix] computes. The label of a catalog shape is its name;
    that of any other id is the id, but ["Object"] for ["constructor"]. *)
Theorem buildBoardMatrix_ten_by_ten (placed : list PlacedValue) (sent : list PlacedShape) :
  rowsIntegral placed ->
  (exists board,
      buildBoardMatrix_any placed = Some board
      /\ length board = 10%nat
      /\ Forall (fun cells => length cells = 10%nat /\ Forall (entryOfPlaced placed) cells)
           board
      /\ buildBoardMatrix_any (map clipValue placed) = Some board)
  /\ buildBoardMatrix_any (map ofPlaced sent) = Some (buildBoardMatrix sent)
  /\ rowsIntegral (map ofPlaced sent)
  /\ Forall (fun shape => shapeLabel (shape_id shape) = shape_name shape) shapes
  /\ (forall id, id ∉ (shape_id <$> shapes) ->
        shapeLabel id = if String.eqb id "constructor" then "Object" else id).
Proof.
  intros Hrows.
  split; [|split; [apply buildBoardMatrix_any_integer|split; [|split; [|apply shapeLabel_other]]]].
  - destruct (writeShapes_value_invariant placed placed emptyBoard)
      as (board & Hboard & Hlen & Hentries); try done.
    { split; [done|]. apply Forall_replicate. split; [done|].
      apply Forall_replicate. by left. }
    exists board. split; [exact Hboard|]. split; [done|]. split; [done|].
    rewrite <- Hboard. unfold buildBoardMatrix_any. generalize (Some emptyBoard).
    clear. induction placed as [|shape l IH]; intros board; [done|].
    simpl. rewrite <- writeCells_value_clip. apply IH.
  - apply rowsIntegral_ofPlaced.
  - apply Forall_forall. intros shape Hin. by apply shapeLabel_catalog.
Qed.

Lemma buildBoardMatrix_ten_by_ten_witness :
  exists board,
    buildBoardMatrix_any overhangingValue = Some board
    /\ length board = 10%nat
    /\ buildBoardMatrix_any (map clipValue overhangingValue) = Some board.
Proof.
  destruct (buildBoardMatrix_ten_by_ten overhangingValue []
              (rowsIntegral_ofPlaced overhangingPlacement))
    as [(board & H1 & H2 & _ & H4) _].
  exists board. split; [exact H1|]. split; [exact H2|exact H4].
Defined.

(** C10 (as stated) fails on a value of the declared type: a cell at row
    1/2 and column 0 passes the test of the loop, [board[0.5]] is
    [undefined], and the assignment raises. *)
Lemma fractional_row_raises :
  passesGuard (Finite (1 # 2), Finite (inject_Z 0)) = true
  /\ buildBoardMatrix_any halfRowPlacement = None.
Proof. split; reflexivity. Qed.
